(** * HLTB API client (backend/hltb.lua): shallow embedding and properties

    The Lua module keeps five module-level cache variables and talks to the
    outside world through [http.get], [http.request], [os.time] and
    [json.decode].  The embedding threads the cache variables and a log of
    every interaction with the outside world through a small state monad
    whose computations may also be aborted by a Lua runtime error, as when a
    number is indexed.

    What the module requires but does not define (transport, clock, JSON
    decoder, [hltb_utils], [table.sort]) is a parameter of every function: an
    environment.  Calls of [logger:info] have no effect on the results and
    are left out, except where evaluating their argument can fail. *)

From Stdlib Require Import List String Ascii ZArith QArith Qcanon Bool Lia Lqa DecimalString
  Permutation Sorted.
Import ListNotations.

Local Open Scope string_scope.
Local Open Scope Z_scope.

(** ** Lua patterns

    The source uses [string.gmatch], [string.match] and [string.find] with a
    handful of fixed patterns.  Patterns are kept as syntax trees; the matcher
    follows the backtracking matcher of the Lua string library: a greedy
    repetition tries the longest run first, a lazy one ([-]) the shortest. *)
Module LuaPattern.

Inductive setitem :=
| SChar (c : ascii)
| SRange (lo hi : ascii).

Inductive cclass :=
| CLit (c : ascii)              (* a plain or %-escaped character *)
| CSpace                        (* %s *)
| CSet (items : list setitem)   (* [...] *)
| CNotSet (items : list setitem). (* [^...] *)

Inductive rep := Once | Plus | Star | Minus.

Inductive pitem :=
| PC (c : cclass) (r : rep)
| POpen                         (* ( *)
| PClose.                       (* ) *)

Definition pattern := list pitem.

Definition ascii_leb (a b : ascii) : bool :=
  (nat_of_ascii a <=? nat_of_ascii b)%nat.

Definition isspace (a : ascii) : bool :=
  let n := nat_of_ascii a in
  ((n =? 32) || ((9 <=? n) && (n <=? 13)))%nat.

Definition in_setitem (a : ascii) (i : setitem) : bool :=
  match i with
  | SChar c => Ascii.eqb a c
  | SRange lo hi => ascii_leb lo a && ascii_leb a hi
  end.

Definition single (c : cclass) (a : ascii) : bool :=
  match c with
  | CLit x => Ascii.eqb a x
  | CSpace => isspace a
  | CSet items => existsb (in_setitem a) items
  | CNotSet items => negb (existsb (in_setitem a) items)
  end.

(** Characters consumed while a capture is open are appended to it. *)
Definition push (incap : bool) (cap : string) (a : ascii) : string :=
  if incap then cap ++ String a "" else cap.

(** [pmatch p incap cap s] matches [p] anchored at the start of [s] and
    returns the capture together with the unconsumed rest of [s]. *)
Fixpoint pmatch (p : pattern) : bool -> string -> string -> option (string * string) :=
  match p with
  | [] => fun _ cap s => Some (cap, s)
  | POpen :: p' => fun _ cap s => pmatch p' true cap s
  | PClose :: p' => fun _ cap s => pmatch p' false cap s
  | PC c r :: p' =>
      let k := pmatch p' in
      let max_expand :=
        fix expand (ic : bool) (cap s : string) {struct s} :=
          match s with
          | String a s' =>
              if single c a then
                match expand ic (push ic cap a) s' with
                | Some res => Some res
                | None => k ic cap s
                end
              else k ic cap s
          | EmptyString => k ic cap s
          end in
      let min_expand :=
        fix expand (ic : bool) (cap s : string) {struct s} :=
          match k ic cap s with
          | Some res => Some res
          | None =>
              match s with
              | String a s' =>
                  if single c a then expand ic (push ic cap a) s' else None
              | EmptyString => None
              end
          end in
      match r with
      | Once => fun ic cap s =>
          match s with
          | String a s' => if single c a then k ic (push ic cap a) s' else None
          | EmptyString => None
          end
      | Plus => fun ic cap s =>
          match s with
          | String a s' =>
              if single c a then max_expand ic (push ic cap a) s' else None
          | EmptyString => None
          end
      | Star => max_expand
      | Minus => min_expand
      end
  end.

(** [s:find(p)] (only its truth value is used by the source). *)
Fixpoint str_find (p : pattern) (s : string) : bool :=
  match pmatch p false "" s with
  | Some _ => true
  | None =>
      match s with
      | String _ s' => str_find p s'
      | EmptyString => false
      end
  end.

(** [s:match(p)] for a pattern with one capture: the first match's capture. *)
Fixpoint str_match (p : pattern) (s : string) : option string :=
  match pmatch p false "" s with
  | Some (cap, _) => Some cap
  | None =>
      match s with
      | String _ s' => str_match p s'
      | EmptyString => None
      end
  end.

(** [s:gmatch(p)] for a pattern with one capture: the captures of the
    successive non-overlapping matches, left to right. *)
Fixpoint gmatch_from (fuel : nat) (p : pattern) (s : string) : list string :=
  match fuel with
  | O => []
  | S fuel' =>
      match pmatch p false "" s with
      | Some (cap, rest) =>
          cap :: (if (String.length rest <? String.length s)%nat
                  then gmatch_from fuel' p rest
                  else match s with
                       | String _ s' => gmatch_from fuel' p s'
                       | EmptyString => []
                       end)
      | None =>
          match s with
          | String _ s' => gmatch_from fuel' p s'
          | EmptyString => []
          end
      end
  end.

Definition gmatch (p : pattern) (s : string) : list string :=
  gmatch_from (S (String.length s)) p s.

(** A run of literal characters. *)
Fixpoint lits (s : string) : pattern :=
  match s with
  | EmptyString => []
  | String a s' => PC (CLit a) Once :: lits s'
  end.

Definition dquote : ascii := ascii_of_nat 34.
Definition squote : ascii := ascii_of_nat 39.
Definition quote : cclass := CSet [SChar dquote; SChar squote].
Definition not_quote : cclass := CNotSet [SChar dquote; SChar squote].
Definition word : cclass :=
  CSet [SRange "a"%char "z"%char; SRange "A"%char "Z"%char;
        SRange "0"%char "9"%char; SChar "_"%char].

End LuaPattern.

(** ** Lua values

    A Lua number is modelled as a rational in lowest terms: [type()] reports
    [number] for integers and non-integers alike, [==] is equality and [<] is
    the usual order (JSON has no NaN or infinity).  A table has an array part,
    holding the values at keys [1..n] (a sequence without holes), and string
    keyed fields.  [nil] is the absence of a value: [option value]. *)

Definition number : Type := Qc.

Definition Z2num (z : Z) : number := Q2Qc (inject_Z z).

Definition num_eqb (a b : number) : bool := Qeq_bool a b.
Definition num_ltb (a b : number) : bool := negb (Qle_bool b a).
Definition is_integer (n : number) : bool := Pos.eqb (Qden n) 1.

#[local] Set Warnings "-register-all".

Inductive value :=
| VBool (b : bool)
| VNum (n : number)
| VStr (s : string)
| VTable (arr : list value) (fields : list (string * value))
| VUserdata.  (* an opaque sentinel, such as a decoder's null *)

Inductive lua_type := TNil | TBoolean | TNumber | TString | TTable | TUserdata.

Definition lua_type_eqb (a b : lua_type) : bool :=
  match a, b with
  | TNil, TNil | TBoolean, TBoolean | TNumber, TNumber
  | TString, TString | TTable, TTable | TUserdata, TUserdata => true
  | _, _ => false
  end.

(** [type(v)] *)
Definition type_of (v : option value) : lua_type :=
  match v with
  | None => TNil
  | Some (VBool _) => TBoolean
  | Some (VNum _) => TNumber
  | Some (VStr _) => TString
  | Some (VTable _ _) => TTable
  | Some VUserdata => TUserdata
  end.

(** Lua truth: everything but [nil] and [false]. *)
Definition truthy (v : option value) : bool :=
  match v with
  | None | Some (VBool false) => false
  | Some _ => true
  end.

Inductive lua_error :=
| AttemptToIndex (t : lua_type)
| AttemptToConcatenate (t : lua_type)
| BadArgument (fn : string) (t : lua_type).

Inductive result (A : Type) :=
| Ret (a : A)
| Raise (e : lua_error).
Arguments Ret {A} a.
Arguments Raise {A} e.

Fixpoint assoc (k : string) (fields : list (string * value)) : option value :=
  match fields with
  | [] => None
  | (k', v) :: rest => if String.eqb k k' then Some v else assoc k rest
  end.

(** [v.k] or [v[k]] for a string key [k].  A string is indexed through the
    string library, where none of the keys the client uses names a function;
    every other non-table operand is a runtime error. *)
Definition index (v : value) (k : string) : result (option value) :=
  match v with
  | VTable _ fields => Ret (assoc k fields)
  | VStr _ => Ret None
  | _ => Raise (AttemptToIndex (type_of (Some v)))
  end.

(** [string.lower] in the C locale. *)
Definition lower_ascii (a : ascii) : ascii :=
  let n := nat_of_ascii a in
  if ((65 <=? n) && (n <=? 90))%nat then ascii_of_nat (n + 32) else a.

Fixpoint lower (s : string) : string :=
  match s with
  | EmptyString => EmptyString
  | String a s' => String (lower_ascii a) (lower s')
  end.

(** [s:sub(2)] *)
Definition sub2 (s : string) : string :=
  match s with
  | EmptyString => EmptyString
  | String _ s' => s'
  end.

(** ** The outside world *)

Record Response := { status : Z; body : option string }.

(** [local response, err = http.get(...)] *)
Inductive http_result :=
| HttpOk (r : Response)
| HttpFail (err : option string).

(** The fields of the search payload that vary from call to call; the
    remaining fields of the JSON body are constants. *)
Record SearchPayload := {
  searchTerms : list string;
  searchPage : Z;
  size : Z;
  modifier : string
}.

(** Every interaction with the outside world, newest first in the log.
    [EvFetchGameData] and [EvLevenshtein] are ghost events: they record a call
    of [fetch_game_data] and of [utils.levenshtein_distance]. *)
Inductive Event :=
| EvTime
| EvGet (url : string)
| EvPost (url : string) (auth_token : option value) (payload : SearchPayload)
| EvFetchGameData (game_id : option value)
| EvLevenshtein (a b : string).

(** What the module requires and does not define: the transport, the clock,
    the JSON decoder, the helpers of [hltb_utils], [table.sort] and the
    conversion of a number to a string.  The transport and the clock answer as
    a function of everything that happened before.  [json_decode] is
    [pcall(json.decode, body)]: [None] when decoding raises or yields [nil]. *)
Record Env := {
  http_get : list Event -> string -> http_result;
  http_request : list Event -> string -> option value -> SearchPayload -> http_result;
  os_time : list Event -> Z;
  json_decode : string -> option value;
  sanitize_game_name : string -> string;
  levenshtein_distance : string -> string -> number;
  table_sort : forall A : Type, (A -> A -> bool) -> list A -> list A;
  tostring_number : number -> string
}.

(** The module-level cache variables, and the log. *)
Record World := {
  cached_token : option value;
  cached_search_url : option string;
  cached_build_id : option string;
  cached_homepage : option string;
  token_expires_at : Z;
  log : list Event
}.

Definition initial_world : World :=
  {| cached_token := None; cached_search_url := None; cached_build_id := None;
     cached_homepage := None; token_expires_at := 0; log := [] |}.

(** ** The monad: state, and Lua runtime errors *)

Definition M (A : Type) : Type := World -> result A * World.

Definition ret {A} (a : A) : M A := fun w => (Ret a, w).

Definition bind {A B} (m : M A) (f : A -> M B) : M B :=
  fun w =>
    match m w with
    | (Ret a, w') => f a w'
    | (Raise e, w') => (Raise e, w')
    end.

Definition lift {A} (r : result A) : M A := fun w => (r, w).

(** Sequencing of steps that touch no state. *)
Definition and_then {A B} (r : result A) (f : A -> result B) : result B :=
  match r with
  | Ret a => f a
  | Raise e => Raise e
  end.

Definition get_world : M World := fun w => (Ret w, w).

Definition put_world (f : World -> World) : M unit := fun w => (Ret tt, f w).

Declare Scope lua_scope.
Delimit Scope lua_scope with lua.
Notation "x <- m ;; k" := (bind m (fun x => k))
  (at level 100, m at next level, right associativity) : lua_scope.
Notation "m ;;; k" := (bind m (fun _ => k))
  (at level 100, right associativity) : lua_scope.
Notation "x <~ r ;; k" := (and_then r (fun x => k))
  (at level 100, r at next level, right associativity) : lua_scope.
Local Open Scope lua_scope.

Definition add_event (e : Event) (w : World) : World :=
  {| cached_token := cached_token w; cached_search_url := cached_search_url w;
     cached_build_id := cached_build_id w; cached_homepage := cached_homepage w;
     token_expires_at := token_expires_at w; log := e :: log w |}.

(** The world after further events [evs] (newest first). *)
Definition prepend_events (evs : list Event) (w : World) : World :=
  {| cached_token := cached_token w; cached_search_url := cached_search_url w;
     cached_build_id := cached_build_id w; cached_homepage := cached_homepage w;
     token_expires_at := token_expires_at w; log := (evs ++ log w)%list |}.

Definition set_homepage (h : option string) (w : World) : World :=
  {| cached_token := cached_token w; cached_search_url := cached_search_url w;
     cached_build_id := cached_build_id w; cached_homepage := h;
     token_expires_at := token_expires_at w; log := log w |}.

Definition set_build_id (b : option string) (w : World) : World :=
  {| cached_token := cached_token w; cached_search_url := cached_search_url w;
     cached_build_id := b; cached_homepage := cached_homepage w;
     token_expires_at := token_expires_at w; log := log w |}.

Definition set_search_url (u : option string) (w : World) : World :=
  {| cached_token := cached_token w; cached_search_url := u;
     cached_build_id := cached_build_id w; cached_homepage := cached_homepage w;
     token_expires_at := token_expires_at w; log := log w |}.

Definition set_token (t : option value) (expires : Z) (w : World) : World :=
  {| cached_token := t; cached_search_url := cached_search_url w;
     cached_build_id := cached_build_id w; cached_homepage := cached_homepage w;
     token_expires_at := expires; log := log w |}.

(** ** The client *)

Definition BASE_URL : string := "https://howlongtobeat.com/".
Definition TOKEN_TTL : Z := 300.
Definition SEARCH_SIZE : Z := 20.
(** Static fallback URL *)
Definition SEARCH_URL : string := BASE_URL ++ "api/search".

(** Known non-search API endpoints to skip *)
Definition SKIP_ENDPOINTS : list string := ["find"; "error"; "user"; "logout"].

Definition mem (s : string) (l : list string) : bool :=
  existsb (String.eqb s) l.

Import LuaPattern.

(** The pattern that finds the chunk scripts in the homepage: a quote, the
    captured path [/_next/static/chunks/] ... [.js], a quote. *)
Definition chunk_pattern : pattern :=
  ([PC quote Once; POpen] ++ lits "/_next/static/chunks/"
   ++ [PC not_quote Plus] ++ lits ".js" ++ [PClose; PC quote Once])%list.

(** A quoted [/api/] path of word characters, captured without the quotes. *)
Definition api_path_pattern : pattern :=
  ([PC quote Once; POpen] ++ lits "/api/" ++ [PC word Plus; PClose; PC quote Once])%list.

(** [/api/(word characters)] *)
Definition endpoint_pattern : pattern :=
  (lits "/api/" ++ [POpen; PC word Plus; PClose])%list.

(** [fetch], blanks, an opening parenthesis, blanks, the quoted path, blanks,
    a comma, blanks, an opening brace, the shortest run without a closing
    brace, then [method], a colon and a quoted [POST], with blanks allowed
    around the colon.  The path consists of word characters and slashes, which
    the source escapes: every character of it stands for itself. *)
Definition post_pattern (api_path : string) : pattern :=
  (lits "fetch" ++ [PC CSpace Star; PC (CLit "("%char) Once; PC CSpace Star; PC quote Once]
   ++ lits api_path
   ++ [PC quote Once; PC CSpace Star; PC (CLit ","%char) Once; PC CSpace Star;
       PC (CLit "{"%char) Once; PC (CNotSet [SChar "}"%char]) Minus]
   ++ lits "method" ++ [PC CSpace Star; PC (CLit ":"%char) Once; PC CSpace Star; PC quote Once]
   ++ lits "POST" ++ [PC quote Once])%list.

(** The two homepage markers of the build id. *)
Definition ssg_manifest_pattern : pattern :=
  (lits "/_next/static/" ++ [POpen; PC (CNotSet [SChar "/"%char]) Plus; PClose]
   ++ lits "/_ssgManifest.js")%list.

Definition build_manifest_pattern : pattern :=
  (lits "/_next/static/" ++ [POpen; PC (CNotSet [SChar "/"%char]) Plus; PClose]
   ++ lits "/_buildManifest.js")%list.

(** A run of non-blank characters: one search term. *)
Definition term_pattern : pattern :=
  [POpen; PC (CNotSet [SChar " "%char; SRange (ascii_of_nat 9) (ascii_of_nat 13)]) Plus; PClose].

(** One entry of a [validate_fields] schema. *)
Record field_spec := { name : string; expected_type : lua_type }.

(** Validate that a table has required fields with expected types.
    Returns true if valid, or false and the failing field name. *)
Fixpoint validate_fields (tbl : value) (schema : list field_spec)
  : result (bool * option string) :=
  match schema with
  | [] => Ret (true, None)
  | field :: rest =>
      match index tbl (name field) with
      | Raise e => Raise e
      | Ret v =>
          if negb (lua_type_eqb (type_of v) (expected_type field))
          then Ret (false, Some (name field))
          else validate_fields tbl rest
      end
  end.

Definition game_data_schema : list field_spec :=
  [ {| name := "comp_main"; expected_type := TNumber |};
    {| name := "comp_plus"; expected_type := TNumber |};
    {| name := "comp_100"; expected_type := TNumber |};
    {| name := "comp_all"; expected_type := TNumber |};
    {| name := "game_id"; expected_type := TNumber |};
    {| name := "profile_steam"; expected_type := TNumber |};
    {| name := "game_name"; expected_type := TString |} ].

(** An operand of [..]: a string, or a number converted to one. *)
Definition concat_operand (tostr : number -> string) (v : option value) : result string :=
  match v with
  | Some (VStr s) => Ret s
  | Some (VNum n) => Ret (tostr n)
  | _ => Raise (AttemptToConcatenate (type_of v))
  end.

(** The argument of a [hltb_utils] string helper. *)
Definition string_argument (fn : string) (v : option value) : result string :=
  match v with
  | Some (VStr s) => Ret s
  | _ => Raise (BadArgument fn (type_of v))
  end.

(** An operand of an arithmetic comparison. *)
Definition number_operand (v : option value) : result number :=
  match v with
  | Some (VNum n) => Ret n
  | _ => Raise (BadArgument "compare" (type_of v))
  end.

(** [v == n] for a number [n]: no coercion, a non-number is never equal. *)
Definition equals_number (v : option value) (n : number) : bool :=
  match v with
  | Some (VNum m) => num_eqb m n
  | _ => false
  end.

(** The four messages of [get_auth_token]. *)
Inductive token_error :=
| RequestFailed (err : option string)
| HttpStatus (st : Z)
| InvalidJson
| NoToken.

(** The optional second argument of [M.search]. *)
Record SearchOptions := { page : option Z; opt_modifier : option string }.

(** One entry of [possible_choices]. *)
Record choice := { distance : number; comp_all_count : number; item : value }.

(** The order function handed to [table.sort]:
    by distance, then by comp_all_count descending. *)
Definition choice_before (a b : choice) : bool :=
  if num_eqb (distance a) (distance b)
  then num_ltb (comp_all_count b) (comp_all_count a)
  else num_ltb (distance a) (distance b).

Definition max_steam_id_checks : nat := 3.

Section Client.

Variable env : Env.

(** [http.get(url, {headers, timeout})]: the headers and the timeout are the
    same constants at every call. *)
Definition http_get_m (url : string) : M http_result :=
  fun w => (Ret (http_get env (log w) url), add_event (EvGet url) w).

(** [http.request(url, {method = POST, headers, data, timeout})]: of the
    headers only [x-auth-token], which carries the token, varies. *)
Definition http_request_m (url : string) (auth_token : option value)
    (payload : SearchPayload) : M http_result :=
  fun w => (Ret (http_request env (log w) url auth_token payload),
            add_event (EvPost url auth_token payload) w).

(** [os.time()] *)
Definition os_time_m : M Z :=
  fun w => (Ret (os_time env (log w)), add_event EvTime w).

(** [pcall(json.decode, response.body)] followed by the test
    [not success or not data]: decoding a missing body raises. *)
Definition decode_body (b : option string) : option value :=
  match b with
  | None => None
  | Some s =>
      match json_decode env s with
      | Some d => if truthy (Some d) then Some d else None
      | None => None
      end
  end.

(** Fetch and cache the HLTB homepage (used by multiple extraction functions) *)
Definition get_homepage : M (option string) :=
  w <- get_world ;;
  match cached_homepage w with
  | Some h => ret (Some h)
  | None =>
      r <- http_get_m BASE_URL ;;
      match r with
      | HttpFail _ => ret None
      | HttpOk response =>
          if negb (status response =? 200) then ret None
          else put_world (set_homepage (body response)) ;;; ret (body response)
      end
  end.

(** The loop over the [/api/] literals of one script: the endpoints seen so
    far come in and go out; the result is the endpoint returned from inside
    the loop, if any. *)
Fixpoint scan_api_paths (content : string) (api_paths : list string)
    (endpoints_found : list string) : option string * list string :=
  match api_paths with
  | [] => (None, endpoints_found)
  | api_path :: rest =>
      match str_match endpoint_pattern api_path with
      | Some endpoint =>
          if negb (mem endpoint endpoints_found) then
            let endpoints_found := endpoint :: endpoints_found in
            if mem endpoint SKIP_ENDPOINTS then
              scan_api_paths content rest endpoints_found
            else if str_find (post_pattern api_path) content then
              (Some ("api/" ++ endpoint), endpoints_found)
            else scan_api_paths content rest endpoints_found
          else scan_api_paths content rest endpoints_found
      | None => scan_api_paths content rest endpoints_found
      end
  end.

(** The URL of a chunk script: the base URL and the path without its
    leading slash. *)
Definition script_url (script_src : string) : string :=
  BASE_URL ++ sub2 script_src.

(** The loop over the chunk scripts. *)
Fixpoint scan_scripts (script_urls : list string) (endpoints_found : list string)
  : M (option string) :=
  match script_urls with
  | [] => ret None
  | script_src :: rest =>
      script_resp <- http_get_m (script_url script_src) ;;
      match script_resp with
      | HttpOk {| status := st; body := Some content |} =>
          if st =? 200 then
            match scan_api_paths content (gmatch api_path_pattern content) endpoints_found with
            | (Some url, _) => ret (Some url)
            | (None, endpoints_found) => scan_scripts rest endpoints_found
            end
          else scan_scripts rest endpoints_found
      | _ => scan_scripts rest endpoints_found
      end
  end.

(** Extract search endpoint from website JavaScript.
    Searches all NextJS chunk scripts for fetch POST calls to /api/* *)
Definition extract_search_url : M (option string) :=
  homepage <- get_homepage ;;
  match homepage with
  | None => ret None
  | Some homepage =>
      let script_urls := gmatch chunk_pattern homepage in
      scan_scripts script_urls []
  end.

(** Extract NextJS build ID from homepage (for game data requests) *)
Definition extract_build_id : M (option string) :=
  w <- get_world ;;
  match cached_build_id w with
  | Some b => ret (Some b)
  | None =>
      homepage <- get_homepage ;;
      match homepage with
      | None => ret None
      | Some homepage =>
          let build_id :=
            match str_match ssg_manifest_pattern homepage with
            | Some b => Some b
            | None => str_match build_manifest_pattern homepage
            end in
          match build_id with
          | Some b => put_world (set_build_id (Some b)) ;;; ret (Some b)
          | None => ret None
          end
      end
  end.

(** The checks of [fetch_game_data] on the decoded response:
    [pageProps.game.data.game] must be an array with exactly one element, and
    that element must have all required fields. *)
Definition check_game_response (data : value) : result (option value) :=
  pageProps <~ index data "pageProps" ;;
  match pageProps with
  | Some (VTable _ _ as pageProps) =>
      game <~ index pageProps "game" ;;
      match game with
      | Some (VTable _ _ as game) =>
          gdata <~ index game "data" ;;
          match gdata with
          | Some (VTable _ _ as gdata) =>
              game_array <~ index gdata "game" ;;
              match game_array with
              | Some (VTable arr _) =>
                  match arr with
                  | [game_data] =>
                      vf <~ validate_fields game_data game_data_schema ;;
                      if fst vf then Ret (Some game_data) else Ret None
                  | _ => Ret None
                  end
              | _ => Ret None
              end
          | _ => Ret None
          end
      | _ => Ret None
      end
  | _ => Ret None
  end.

(** The URL of the detail page of a game. *)
Definition game_url (build_id id : string) : string :=
  BASE_URL ++ "_next/data/" ++ build_id ++ "/game/" ++ id ++ ".json".

(** Fetch game data by game ID (returns completion times) *)
Definition fetch_game_data (game_id : option value) : M (option value) :=
  put_world (add_event (EvFetchGameData game_id)) ;;;
  build_id <- extract_build_id ;;
  match build_id with
  | None => ret None
  | Some build_id =>
      id <- lift (concat_operand (tostring_number env) game_id) ;;
      r <- http_get_m (game_url build_id id) ;;
      match r with
      | HttpFail _ => ret None
      | HttpOk response =>
          if negb (status response =? 200) then ret None else
          match decode_body (body response) with
          | None => ret None
          | Some data => lift (check_game_response data)
          end
      end
  end.

(** Get search URL with fallback logic *)
Definition get_search_url : M string :=
  w <- get_world ;;
  match cached_search_url w with
  | Some u => ret u
  | None =>
      search_url <- extract_search_url ;;
      match search_url with
      | Some search_url =>
          put_world (set_search_url (Some (BASE_URL ++ search_url))) ;;;
          ret (BASE_URL ++ search_url)
      | None =>
          put_world (set_search_url (Some SEARCH_URL)) ;;; ret SEARCH_URL
      end
  end.

(** The URL of the token request made at time [now]. *)
Definition token_url (now : Z) : string :=
  BASE_URL ++ "api/search/init?t=" ++ tostring_number env (Z2num (now * 1000)).

(** Get auth token: the token and [nil], or [nil] and a message. *)
Definition get_auth_token (force_refresh : bool)
  : M (option value * option token_error) :=
  now <- os_time_m ;;
  w <- get_world ;;
  if negb force_refresh && truthy (cached_token w) && (now <? token_expires_at w)
  then ret (cached_token w, None)
  else
    r <- http_get_m (token_url now) ;;
    match r with
    | HttpFail err => ret (None, Some (RequestFailed err))
    | HttpOk response =>
        if negb (status response =? 200)
        then ret (None, Some (HttpStatus (status response)))
        else
          match decode_body (body response) with
          | None => ret (None, Some InvalidJson)
          | Some data =>
              token <- lift (index data "token") ;;
              if negb (truthy token) then ret (None, Some NoToken)
              else
                put_world (set_token token (now + TOKEN_TTL)) ;;;
                ret (token, None)
          end
    end.

(** Build search payload: the game name is split into search terms. *)
Definition get_search_request_data (game_name : string) (modifier : string) (page : Z)
  : SearchPayload :=
  {| searchTerms := gmatch term_pattern game_name;
     searchPage := page;
     size := SEARCH_SIZE;
     modifier := modifier |}.

(** [options.page or 1] and [options.modifier or ""], then the payload. *)
Definition search_payload (query : string) (options : option SearchOptions)
  : SearchPayload :=
  let page :=
    match options with
    | Some {| page := Some p |} => p
    | _ => 1
    end in
  let modifier :=
    match options with
    | Some {| opt_modifier := Some m |} => m
    | _ => ""
    end in
  get_search_request_data query modifier page.

(** [pairs(first)], from the block that logs the fields of the first result:
    building the log line cannot fail once [pairs] has accepted its argument. *)
Definition pairs_argument (v : value) : result unit :=
  match v with
  | VTable _ _ => Ret tt
  | _ => Raise (BadArgument "pairs" (type_of (Some v)))
  end.

(** Validate each item has required fields: [false] at the first item with a
    wrong type. *)
Fixpoint validate_items (items : list value) : result bool :=
  match items with
  | [] => Ret true
  | item :: rest =>
      match index item "game_id" with
      | Raise e => Raise e
      | Ret game_id =>
          if negb (lua_type_eqb (type_of game_id) TNumber) then Ret false else
          match index item "game_name" with
          | Raise e => Raise e
          | Ret game_name =>
              if negb (lua_type_eqb (type_of game_name) TString) then Ret false else
              match index item "comp_all_count" with
              | Raise e => Raise e
              | Ret count =>
                  if negb (lua_type_eqb (type_of count) TNumber) then Ret false
                  else validate_items rest
              end
          end
      end
  end.

(** The checks of [M.search] on the decoded response: [data] must be a
    table; the fields of the first result are logged; every item must have the
    required fields. *)
Definition check_search_response (data : value) : result (option value) :=
  results <~ index data "data" ;;
  match results with
  | Some (VTable items _) =>
      _ <~ match items with
           | first :: _ => pairs_argument first
           | [] => Ret tt
           end ;;
      valid <~ validate_items items ;;
      if valid then Ret (Some data) else Ret None
  | _ => Ret None
  end.

(** Search HLTB: the decoded response, or [nil]. *)
Definition search (query : string) (options : option SearchOptions) : M (option value) :=
  tok <- get_auth_token false ;;
  let auth_token := fst tok in
  if negb (truthy auth_token) then ret None else
  search_url <- get_search_url ;;
  let payload := search_payload query options in
  r <- http_request_m search_url auth_token payload ;;
  match r with
  | HttpFail _ => ret None
  | HttpOk response =>
      if negb (status response =? 200) then ret None else
      match decode_body (body response) with
      | None => ret None
      | Some data => lift (check_search_response data)
      end
  end.

(** The normalized form of a name: sanitized, then lower case. *)
Definition normalize (s : string) : string :=
  lower (sanitize_game_name env s).

(** [utils.sanitize_game_name(item.game_name):lower()] *)
Definition normalized_name (item : value) : result string :=
  match index item "game_name" with
  | Raise e => Raise e
  | Ret game_name =>
      match string_argument "sanitize_game_name" game_name with
      | Raise e => Raise e
      | Ret s => Ret (normalize s)
      end
  end.

(** Check exact name match first (no HTTP needed) *)
Fixpoint find_exact_match (normalized_app_name : string) (items : list value)
  : result (option value) :=
  match items with
  | [] => Ret None
  | item :: rest =>
      match normalized_name item with
      | Raise e => Raise e
      | Ret n =>
          if String.eqb n normalized_app_name then Ret (Some item)
          else find_exact_match normalized_app_name rest
      end
  end.

(** [utils.levenshtein_distance(a, b)] *)
Definition levenshtein_distance_m (a b : string) : M number :=
  fun w => (Ret (levenshtein_distance env a b), add_event (EvLevenshtein a b) w).

(** Find closest match using Levenshtein distance: the list of choices before
    it is sorted.  The popularity count is read as the number the order
    function compares. *)
Fixpoint build_choices (normalized_app_name : string) (items : list value)
  : M (list choice) :=
  match items with
  | [] => ret []
  | item :: rest =>
      normalized_item_name <- lift (normalized_name item) ;;
      distance <- levenshtein_distance_m normalized_app_name normalized_item_name ;;
      count <- lift (index item "comp_all_count") ;;
      count <- lift (number_operand count) ;;
      choices <- build_choices normalized_app_name rest ;;
      ret ({| distance := distance; comp_all_count := count; item := item |} :: choices)
  end.

(** Try Steam ID match on top candidates (requires HTTP to get profile_steam) *)
Fixpoint steam_id_checks (steam_app_id : number) (candidates : list choice)
  : M (option value) :=
  match candidates with
  | [] => ret None
  | candidate :: rest =>
      game_id <- lift (index (item candidate) "game_id") ;;
      game_data <- fetch_game_data game_id ;;
      match game_data with
      | Some game_data =>
          profile_steam <- lift (index game_data "profile_steam") ;;
          if equals_number profile_steam steam_app_id
          then ret (Some (item candidate))
          else steam_id_checks steam_app_id rest
      | None => steam_id_checks steam_app_id rest
      end
  end.

(** Sort by distance, then by comp_all_count descending *)
Definition rank (possible_choices : list choice) : list choice :=
  table_sort env choice choice_before possible_choices.

(** The part of [search_best_match] after the exact-name loop. *)
Definition closest_match (normalized_app_name : string) (steam_app_id : option number)
    (items : list value) : M (option value) :=
  possible_choices <- build_choices normalized_app_name items ;;
  let possible_choices := rank possible_choices in
  confirmed <-
    match steam_app_id, possible_choices with
    | Some steam_app_id, _ :: _ =>
        steam_id_checks steam_app_id (firstn max_steam_id_checks possible_choices)
    | _, _ => ret None
    end ;;
  match confirmed with
  | Some item => ret (Some item)
  | None =>
      match possible_choices with
      | best :: _ => ret (Some (item best))
      | [] => ret None
      end
  end.

(** Find most compatible game data *)
Definition search_best_match (app_name : string) (steam_app_id : option number)
  : M (option value) :=
  search_results <- search app_name None ;;
  match search_results with
  | None => ret None
  | Some search_results =>
      results <- lift (index search_results "data") ;;
      match results with
      | Some (VTable items _) =>
          match items with
          | [] => ret None
          | _ :: _ =>
              let normalized_app_name := normalize app_name in
              exact <- lift (find_exact_match normalized_app_name items) ;;
              match exact with
              | Some item => ret (Some item)
              | None => closest_match normalized_app_name steam_app_id items
              end
          end
      | _ =>
          (* not reached: [search] returns a response only when its [data]
             field is a table *)
          lift (Raise (BadArgument "ipairs" (type_of results)))
      end
  end.

(** Clear cached values (for retry on 404/stale data) *)
Definition clear_cache : M unit :=
  put_world (fun w =>
    {| cached_token := None; cached_search_url := None; cached_build_id := None;
       cached_homepage := None; token_expires_at := 0; log := log w |}).

End Client.

(** ** Vocabulary of the properties *)

(** The contract of [table.sort] for an order function that is a strict weak
    order: the elements are rearranged, and afterwards no element is strictly
    before one that precedes it. *)
Definition strict_weak_order {A : Type} (lt : A -> A -> bool) : Prop :=
  (forall a, lt a a = false) /\
  (forall a b c, lt a b = true -> lt b c = true -> lt a c = true) /\
  (forall a b c, lt a b = false -> lt b c = false -> lt a c = false).

(** [a] is not strictly after [b]. *)
Definition not_after {A : Type} (lt : A -> A -> bool) (a b : A) : Prop :=
  lt b a = false.

Definition ordered_by {A : Type} (lt : A -> A -> bool) (l : list A) : Prop :=
  forall i j a b, (i < j)%nat ->
    nth_error l i = Some a -> nth_error l j = Some b -> lt b a = false.

Definition sorts (srt : forall A : Type, (A -> A -> bool) -> list A -> list A) : Prop :=
  forall (A : Type) (lt : A -> A -> bool) (l : list A),
    strict_weak_order lt -> Permutation l (srt A lt l) /\ ordered_by lt (srt A lt l).

(** The ranking formula: smaller distance, or equal distance and greater
    popularity. *)
Definition key_before (a b : choice) : Prop :=
  (distance a < distance b)%Qc \/
  (distance a = distance b /\ (comp_all_count b < comp_all_count a)%Qc).

Definition key_tie (a b : choice) : Prop :=
  distance a = distance b /\ comp_all_count a = comp_all_count b.

(** [a] stands before [b] in the ranked list. *)
Definition ranked_before (ranked : list choice) (a b : choice) : Prop :=
  exists i j, (i < j)%nat /\ nth_error ranked i = Some a /\ nth_error ranked j = Some b.

(** The ranking as a total order given by the formula: of any two ranked
    candidates, one stands before the other exactly when the formula holds. *)
Definition ranking_is_total_order : Prop :=
  forall env : Env, sorts (table_sort env) ->
  forall (choices : list choice) (a b : choice),
    In a (rank env choices) -> In b (rank env choices) ->
    (ranked_before (rank env choices) a b <-> key_before a b).

(** A search result element with a number as catalog id, a string as display
    name and a number as popularity count. *)
Definition item_well_typed (item : value) : bool :=
  match item with
  | VTable _ fields =>
      lua_type_eqb (type_of (assoc "game_id" fields)) TNumber
      && lua_type_eqb (type_of (assoc "game_name" fields)) TString
      && lua_type_eqb (type_of (assoc "comp_all_count" fields)) TNumber
  | _ => false
  end.

(** A search result element whose catalog id is an integer. *)
Definition has_integer_id (item : value) : bool :=
  match item with
  | VTable _ fields =>
      match assoc "game_id" fields with
      | Some (VNum n) => is_integer n
      | _ => false
      end
  | _ => false
  end.

(** A detail record with the seven required fields of the expected types. *)
Definition game_well_typed (game_data : value) : bool :=
  match game_data with
  | VTable _ fields =>
      forallb (fun f => lua_type_eqb (type_of (assoc (name f) fields)) (expected_type f))
        game_data_schema
  | _ => false
  end.

(** The array found at [pageProps.game.data.game] of a decoded detail
    response, when every level of the path is a table. *)
Definition nested_game_array (data : value) : option (list value) :=
  match data with
  | VTable _ f0 =>
      match assoc "pageProps" f0 with
      | Some (VTable _ f1) =>
          match assoc "game" f1 with
          | Some (VTable _ f2) =>
              match assoc "data" f2 with
              | Some (VTable _ f3) =>
                  match assoc "game" f3 with
                  | Some (VTable arr _) => Some arr
                  | _ => None
                  end
              | _ => None
              end
          | _ => None
          end
      | _ => None
      end
  | _ => None
  end.

(** A value that is a table. *)
Definition is_table (v : value) : bool :=
  match v with
  | VTable _ _ => true
  | _ => false
  end.

(** A value that can be indexed without a runtime error: a table or a
    string. *)
Definition indexable (v : value) : bool :=
  match v with
  | VTable _ _ | VStr _ => true
  | _ => false
  end.

(** A candidate path of a bundle that is not on the skip list and is the
    target of a POST fetch in the same bundle. *)
Definition verified_in (content : string) (endpoint : string) : bool :=
  mem ("/api/" ++ endpoint) (gmatch api_path_pattern content)
  && negb (mem endpoint SKIP_ENDPOINTS)
  && str_find (post_pattern ("/api/" ++ endpoint)) content.

(** Events of the log, by kind. *)
Definition is_detail_fetch (e : Event) : bool :=
  match e with
  | EvFetchGameData _ => true
  | _ => false
  end.

Definition is_get (e : Event) : bool :=
  match e with
  | EvGet _ => true
  | _ => false
  end.

Definition is_network (e : Event) : bool :=
  match e with
  | EvGet _ | EvPost _ _ _ => true
  | _ => false
  end.

Definition detail_fetches (l : list Event) : nat :=
  List.length (filter is_detail_fetch l).

(** ** An environment to run the client on examples *)

Fixpoint insert_by {A : Type} (lt : A -> A -> bool) (x : A) (l : list A) : list A :=
  match l with
  | [] => [x]
  | y :: l' => if lt y x then y :: insert_by lt x l' else x :: l
  end.

(** A stable sort that meets the contract of [table.sort]. *)
Fixpoint insertion_sort (A : Type) (lt : A -> A -> bool) (l : list A) : list A :=
  match l with
  | [] => []
  | x :: l' => insert_by lt x (insertion_sort A lt l')
  end.

(** One row of the edit-distance table from the row above it. *)
Fixpoint lev_row (a : ascii) (t : string) (above : list nat) (left : nat) : list nat :=
  match t, above with
  | String b t', diag :: ((up :: _) as above') =>
      let cost := if Ascii.eqb a b then 0%nat else 1%nat in
      let x := Nat.min (Nat.min (up + 1) (left + 1)) (diag + cost) in
      x :: lev_row a t' above' x
  | _, _ => []
  end.

Fixpoint lev_rows (s t : string) (above : list nat) : list nat :=
  match s with
  | EmptyString => above
  | String a s' =>
      let first := (hd 0%nat above + 1)%nat in
      lev_rows s' t (first :: lev_row a t above first)
  end.

(** Modelled from the spec: [hltb_utils.levenshtein_distance] is not among the
    sources; the spec names it as the Levenshtein edit distance. *)
Definition levenshtein (s t : string) : number :=
  Z2num (Z.of_nat (last (lev_rows s t (seq 0 (S (String.length t)))) 0%nat)).

Fixpoint lookup {A : Type} (k : string) (l : list (string * A)) : option A :=
  match l with
  | [] => None
  | (k', v) :: rest => if String.eqb k k' then Some v else lookup k rest
  end.

(** An integer prints in decimal; the examples use no other numbers in URLs. *)
Definition show_number (n : number) : string :=
  if is_integer n then NilZero.string_of_int (Z.to_int (Qnum n))
  else NilZero.string_of_int (Z.to_int (Qnum n)) ++ "/"
       ++ NilZero.string_of_uint (Pos.to_uint (Qden n)).

(** The example environment: GET answers from a table of pages, POST with one
    fixed answer, the decoder from a table of bodies; the name sanitizer
    leaves the example names unchanged. *)
Definition example_env (pages : list (string * Response)) (post : http_result)
    (bodies : list (string * value)) (clock : list Event -> Z) : Env :=
  {| http_get := fun _ url =>
       match lookup url pages with
       | Some r => HttpOk r
       | None => HttpFail None
       end;
     http_request := fun _ _ _ _ => post;
     os_time := clock;
     json_decode := fun s => lookup s bodies;
     sanitize_game_name := fun s => s;
     levenshtein_distance := levenshtein;
     table_sort := insertion_sort;
     tostring_number := show_number |}.

Definition ok (b : string) : Response := {| status := 200; body := Some b |}.

Definition num (z : Z) : value := VNum (Z2num z).

(** A search result element. *)
Definition result_item (id : Z) (game_name : string) (count : Z) : value :=
  VTable [] [("game_id", num id); ("game_name", VStr game_name);
             ("comp_all_count", num count)].

(** A GET of the homepage or of a path under [_next/] (the chunk bundles). *)
Definition is_discovery_get (e : Event) : bool :=
  match e with
  | EvGet url => String.eqb url BASE_URL || String.prefix (BASE_URL ++ "_next/") url
  | _ => false
  end.

(** The events a search may log once the search URL [u] is cached: reading
    the clock, requesting a token, and the search request itself, sent to
    [u]. *)
Definition search_event (env : Env) (u : string) (e : Event) : Prop :=
  e = EvTime \/ (exists now, e = EvGet (token_url env now)) \/
  (exists tok payload, e = EvPost u tok payload).

(** A computation that keeps the cached search URL [u] and logs search events
    only. *)
Definition keeps_url (env : Env) {A : Type} (u : string) (m : M A) : Prop :=
  forall w r w',
    cached_search_url w = Some u -> m w = (r, w') ->
    cached_search_url w' = Some u /\
    exists evs, log w' = (evs ++ log w)%list /\ Forall (search_event env u) evs.

(** The search request of [search query options], started in world [w], was
    answered with status 200 and a body that decodes to [data]; [w'] is the
    world right after the request. *)
Definition search_receives (env : Env) (query : string) (options : option SearchOptions)
    (w : World) (data : value) (w' : World) : Prop :=
  exists tok err w1 u w2 response,
    get_auth_token env false w = (Ret (tok, err), w1) /\
    truthy tok = true /\
    get_search_url env w1 = (Ret u, w2) /\
    http_request env (log w2) u tok (search_payload query options) = HttpOk response /\
    status response = 200 /\
    decode_body env (body response) = Some data /\
    w' = add_event (EvPost u tok (search_payload query options)) w2.

(** The detail request of [fetch_game_data game_id], started in world [w],
    was answered with status 200 and a body that decodes to [data]; [w'] is
    the world right after the request. *)
Definition fetch_receives (env : Env) (game_id : option value)
    (w : World) (data : value) (w' : World) : Prop :=
  exists build_id w1 id response,
    extract_build_id env (add_event (EvFetchGameData game_id) w)
      = (Ret (Some build_id), w1) /\
    concat_operand (tostring_number env) game_id = Ret id /\
    http_get env (log w1) (game_url build_id id) = HttpOk response /\
    status response = 200 /\
    decode_body env (body response) = Some data /\
    w' = add_event (EvGet (game_url build_id id)) w1.

(** The entry of [possible_choices] built for a search result element: its
    distance is the edit distance between the normalized title and the
    normalized name of the element, its popularity the element's
    [comp_all_count]. *)
Definition choice_of (env : Env) (normalized_app_name : string)
    (element : value) (c : choice) : Prop :=
  item c = element /\
  (exists game_name,
     index element "game_name" = Ret (Some (VStr game_name)) /\
     distance c = levenshtein_distance env normalized_app_name (normalize env game_name)) /\
  index element "comp_all_count" = Ret (Some (VNum (comp_all_count c))).

(** Two candidates at the same distance and with the same popularity. *)
Definition tie_a : choice :=
  {| distance := Z2num 2; comp_all_count := Z2num 100;
     item := result_item 1 "Dark Souls II" 100 |}.

Definition tie_b : choice :=
  {| distance := Z2num 2; comp_all_count := Z2num 100;
     item := result_item 2 "Dark Souls 33" 100 |}.

(** *** Endpoint discovery as a search among candidates *)

(** A quoted [/api/] path found in a bundle, with its endpoint name. *)
Record candidate := { bundle : string; path : string; endpoint : string }.

Definition candidates_of (content : string) : list candidate :=
  flat_map
    (fun api_path =>
       match str_match endpoint_pattern api_path with
       | Some e => [{| bundle := content; path := api_path; endpoint := e |}]
       | None => []
       end)
    (gmatch api_path_pattern content).

(** The candidates of all bundles, in scan order; a bundle that could not be
    fetched contributes none. *)
Definition all_candidates (bundles : list (option string)) : list candidate :=
  flat_map (fun b => match b with Some c => candidates_of c | None => [] end) bundles.

(** The candidates whose endpoint name has not occurred before them. *)
Fixpoint first_occurrences (found : list string) (cs : list candidate) : list candidate :=
  match cs with
  | [] => []
  | c :: rest =>
      if mem (endpoint c) found then first_occurrences found rest
      else c :: first_occurrences (endpoint c :: found) rest
  end.

(** Not on the skip list, and the target of a POST fetch in its own bundle. *)
Definition accepted (c : candidate) : bool :=
  negb (mem (endpoint c) SKIP_ENDPOINTS) && str_find (post_pattern (path c)) (bundle c).

Definition api_of (c : candidate) : string := "api/" ++ endpoint c.

(** What the scan returns: the first accepted candidate among the first
    occurrences of the endpoint names. *)
Definition discovered (found : list string) (bundles : list (option string))
  : option candidate :=
  find accepted (first_occurrences found (all_candidates bundles)).

(** The first verified match in the words of the spec: the first candidate,
    in scan order, that is not on the skip list and is the target of a POST
    fetch in its own bundle. *)
Definition first_verified (bundles : list (option string)) : option candidate :=
  find accepted (all_candidates bundles).

(** The body of a bundle, when its request succeeded with status 200. *)
Definition bundle_body (r : http_result) : option string :=
  match r with
  | HttpOk {| status := st; body := Some content |} =>
      if st =? 200 then Some content else None
  | _ => None
  end.

(** The bodies the transport delivers when the scripts are requested one
    after the other, starting with log [lg]. *)
Fixpoint fetched_bundles (env : Env) (script_urls : list string) (lg : list Event)
  : list (option string) :=
  match script_urls with
  | [] => []
  | src :: rest =>
      bundle_body (http_get env lg (script_url src))
      :: fetched_bundles env rest (EvGet (script_url src) :: lg)
  end.

(** The GET events of the first [k] scripts, newest first. *)
Definition script_gets (k : nat) (script_urls : list string) : list Event :=
  rev (map (fun src => EvGet (script_url src)) (firstn k script_urls)).

(** A homepage with two bundles: the first mentions an endpoint without
    using it, the second posts to it. *)
Definition two_bundle_homepage : string :=
  "<script src='/_next/static/chunks/a.js'></script><script src='/_next/static/chunks/b.js'></script>".

Definition bundle_a : string := "var u='/api/lookup';".
Definition bundle_b : string := "fetch('/api/lookup',{method:'POST',body:q})".

Definition two_bundle_env : Env :=
  example_env
    [(BASE_URL, ok two_bundle_homepage);
     (BASE_URL ++ "_next/static/chunks/a.js", ok bundle_a);
     (BASE_URL ++ "_next/static/chunks/b.js", ok bundle_b)]
    (HttpFail None) [] (fun _ => 0).

(** *** A resolution with a Steam id and no exact name match

    The title is [Dark Souls 3]; the search returns two candidates, the
    closer one first in the ranking.  The detail page of the second candidate
    carries the Steam id asked for. *)
Definition steam_id_example : number := Z2num 374320.

Definition candidate_1 : value := result_item 1 "Dark Souls II" 300.
Definition candidate_2 : value := result_item 2 "Dark Souls III" 200.

Definition detail_record (id : Z) (game_name : string) (steam : Z) : value :=
  VTable [] [("comp_main", num 1000); ("comp_plus", num 2000); ("comp_100", num 3000);
             ("comp_all", num 1500); ("game_id", num id); ("profile_steam", num steam);
             ("game_name", VStr game_name)].

(** A decoded detail response with the given game array. *)
Definition detail_page (game_array : list value) : value :=
  VTable [] [("pageProps",
    VTable [] [("game",
      VTable [] [("data",
        VTable [] [("game", VTable game_array [])])])])].

(** The environment of the example, for a given decoding of the first
    candidate's detail page. *)
Definition detail_env (first_detail : value) : Env :=
  example_env
    [(BASE_URL ++ "api/search/init?t=0", ok "TOKEN");
     (BASE_URL, ok "<script src='/_next/static/BUILD1/_ssgManifest.js'></script>");
     (BASE_URL ++ "_next/data/BUILD1/game/1.json", ok "DETAIL1");
     (BASE_URL ++ "_next/data/BUILD1/game/2.json", ok "DETAIL2")]
    (HttpOk (ok "RESULTS"))
    [("TOKEN", VTable [] [("token", VStr "t0")]);
     ("RESULTS", VTable [] [("data", VTable [candidate_1; candidate_2] [])]);
     ("DETAIL1", first_detail);
     ("DETAIL2", detail_page [detail_record 2 "Dark Souls III" 374320])]
    (fun _ => 0).

(** A computation that logs exactly [n] calls of [fetch_game_data]. *)
Definition adds_detail_fetches (n : nat) {A : Type} (m : M A) : Prop :=
  forall w r w', m w = (r, w') ->
    detail_fetches (log w') = (detail_fetches (log w) + n)%nat.

(** *** Searches with a given decoded response *)

Definition results_of (items : list value) : value :=
  VTable [] [("data", VTable items [])].

(** The token request succeeds, the homepage is not reachable (the search URL
    is the fallback), and the search response decodes to [results]. *)
Definition search_env (results : value) : Env :=
  example_env
    [(BASE_URL ++ "api/search/init?t=0", ok "TOKEN")]
    (HttpOk (ok "RESULTS"))
    [("TOKEN", VTable [] [("token", VStr "t0")]); ("RESULTS", results)]
    (fun _ => 0).

Definition dark_souls : value := result_item 1001 "Dark Souls" 500.
Definition dark_souls_2 : value := result_item 1002 "Dark Souls II" 300.

(** A search result element whose catalog id is the number 3/2. *)
Definition fractional_item : value :=
  VTable [] [("game_id", VNum (Q2Qc (3 # 2))); ("game_name", VStr "Half");
             ("comp_all_count", num 7)].

(** A search result element whose display name is a number. *)
Definition unnamed_item : value :=
  VTable [] [("game_id", num 7); ("game_name", num 0); ("comp_all_count", num 7)].

(** A world with a cached token that expires at time 300, and a cached
    search URL. *)
Definition warm_world : World :=
  {| cached_token := Some (VStr "t0"); cached_search_url := Some SEARCH_URL;
     cached_build_id := None; cached_homepage := None;
     token_expires_at := 300; log := [] |}.

(** Environments that differ in what the clock reads. *)
Definition clock_env (now : Z) : Env :=
  example_env
    [(BASE_URL ++ "api/search/init?t=0", ok "TOKEN");
     (BASE_URL ++ "api/search/init?t=300000", ok "TOKEN")]
    (HttpOk (ok "RESULTS"))
    [("TOKEN", VTable [] [("token", VStr "t1")]); ("RESULTS", results_of [])]
    (fun _ => now).

(** A computation that leaves a cached search URL [u] in place. *)
Definition keeps_cached_url (u : string) {A : Type} (m : M A) : Prop :=
  forall w r w',
    cached_search_url w = Some u -> m w = (r, w') -> cached_search_url w' = Some u.

(** ** Vocabulary of the further properties *)

(** *** The two repetitions of the pattern matcher, on their own

    [max_expand c k] is the greedy repetition of the class [c] followed by the
    rest of the pattern [k], [min_expand c k] the lazy one: the very loops
    inside [LuaPattern.pmatch]. *)
Section Expand.

Variable c : LuaPattern.cclass.
Variable k : bool -> string -> string -> option (string * string).

Fixpoint max_expand (ic : bool) (cap s : string) {struct s} : option (string * string) :=
  match s with
  | String a s' =>
      if LuaPattern.single c a then
        match max_expand ic (LuaPattern.push ic cap a) s' with
        | Some res => Some res
        | None => k ic cap s
        end
      else k ic cap s
  | EmptyString => k ic cap s
  end.

Fixpoint min_expand (ic : bool) (cap s : string) {struct s} : option (string * string) :=
  match k ic cap s with
  | Some res => Some res
  | None =>
      match s with
      | String a s' =>
          if LuaPattern.single c a then min_expand ic (LuaPattern.push ic cap a) s' else None
      | EmptyString => None
      end
  end.

End Expand.

(** Every character of [s] passes the test [f]. *)
Fixpoint all_chars (f : ascii -> bool) (s : string) : bool :=
  match s with
  | EmptyString => true
  | String a s' => f a && all_chars f s'
  end.

(** The characters of [s] that pass the test [f]. *)
Fixpoint keep_chars (f : ascii -> bool) (s : string) : string :=
  match s with
  | EmptyString => EmptyString
  | String a s' => if f a then String a (keep_chars f s') else keep_chars f s'
  end.

(** The capture after the characters [run] were consumed. *)
Definition pushes (ic : bool) (cap run : string) : string :=
  if ic then cap ++ run else cap.

Definition is_word_char (a : ascii) : bool := LuaPattern.single LuaPattern.word a.
Definition is_quote (a : ascii) : bool := LuaPattern.single LuaPattern.quote a.
Definition is_slash (a : ascii) : bool := Ascii.eqb a "/"%char.

Definition is_blank (a : ascii) : bool := LuaPattern.isspace a.

(** The strings of a list, one after the other. *)
Fixpoint flatten (l : list string) : string :=
  match l with
  | [] => EmptyString
  | s :: rest => s ++ flatten rest
  end.

(** The field [f] of a schema has the expected type in a table with the
    string keyed fields [fields]. *)
Definition field_ok (fields : list (string * value)) (f : field_spec) : bool :=
  lua_type_eqb (type_of (assoc (name f) fields)) (expected_type f).

(** The cache variables other than the token and its expiry. *)
Definition same_discovery_cache (w w' : World) : Prop :=
  cached_search_url w' = cached_search_url w /\
  cached_build_id w' = cached_build_id w /\
  cached_homepage w' = cached_homepage w.

Definition is_post (e : Event) : bool :=
  match e with
  | EvPost _ _ _ => true
  | _ => false
  end.

(** *** Requests that stay on the site *)

(** A request event goes to a URL below [BASE_URL]. *)
Definition on_site (e : Event) : bool :=
  match e with
  | EvGet url => String.prefix BASE_URL url
  | EvPost url _ _ => String.prefix BASE_URL url
  | _ => true
  end.

(** A search endpoint of the site: [BASE_URL], [api/] and a non-empty name
    of letters, digits and underscores that is not on the skip list. *)
Definition site_endpoint (u : string) : Prop :=
  exists e, u = BASE_URL ++ "api/" ++ e /\ e <> "" /\
            all_chars is_word_char e = true /\ mem e SKIP_ENDPOINTS = false.

(** The cached search URL, if any, is below [BASE_URL]. *)
Definition search_url_on_site (w : World) : Prop :=
  forall u, cached_search_url w = Some u -> String.prefix BASE_URL u = true.

(** A computation that sends requests to the site only and keeps the cached
    search URL on the site. *)
Definition stays_on_site {A : Type} (m : M A) : Prop :=
  forall w r w',
    search_url_on_site w -> m w = (r, w') ->
    search_url_on_site w' /\
    exists evs, log w' = (evs ++ log w)%list /\ forallb on_site evs = true.

(** *** The request budget *)

(** The number of HTTP requests in a log. *)
Definition requests (l : list Event) : nat :=
  List.length (filter is_network l).

(** One while the build id is not cached: the homepage request that finding
    it may still take. *)
Definition build_id_missing (w : World) : nat :=
  match cached_build_id w with
  | Some _ => 0%nat
  | None => 1%nat
  end.

(** A computation that sends at most [cost r] requests when it ends with [r],
    up to what the [potential] of the world before has paid for: with
    [build_id_missing] as potential, a homepage request that leaves the build
    id cached counts as paid for. *)
Definition costs {A : Type} (potential : World -> nat) (cost : result A -> nat)
    (m : M A) : Prop :=
  forall w r w', m w = (r, w') ->
    (requests (log w') + potential w' <= requests (log w) + potential w + cost r)%nat.

(** *** The requests of the endpoint discovery *)

(** A request of a chunk script: [BASE_URL], the chunk directory, a non-empty
    name without a quote, and [.js]. *)
Definition chunk_script_request (e : Event) : Prop :=
  exists x, e = EvGet (BASE_URL ++ "_next/static/chunks/" ++ x ++ ".js") /\
            x <> "" /\ all_chars (fun a => negb (is_quote a)) x = true.

(** * The game page detector of the frontend ([detector.ts])

    The page, the elements and the pattern object belong to the browser:
    they are kept abstract.  Every call into the browser takes the state of
    the page and returns the state it leaves, together with a value or the
    exception thrown.  The file holds two versions of [detectGamePage]: one
    with the helper [tryExtractGamePage], one with the two attempts written
    out; the second is [detectGamePage_inlined] here. *)
Module Detector.

Inductive EUIMode := Unknown | GamePad | Desktop.

Section Browser.

Variable Dom : Type.
Variable Element : Type.
Variable RegExp : Type.
Variable JsNumber : Type.
Variable Exception : Type.

Inductive outcome (A : Type) : Type :=
| Returns (a : A)
| Throws (e : Exception).

Arguments Returns {A} a.
Arguments Throws {A} e.

Definition D (A : Type) : Type := Dom -> outcome A * Dom.

Definition dret {A} (a : A) : D A := fun s => (Returns a, s).

Definition dbind {A B} (m : D A) (f : A -> D B) : D B :=
  fun s =>
    match m s with
    | (Returns a, s') => f a s'
    | (Throws e, s') => (Throws e, s')
    end.

(** [doc.querySelector(selector)]: the element or [null]. *)
Record Document := { querySelector : string -> D (option Element) }.

(** Selector configuration for each UI mode *)
Record UIModeConfig := {
  mode : EUIMode;
  modeName : string;
  headerImageSelector : string;
  fallbackImageSelector : string;
  containerSelector : string;
  appIdPattern : RegExp }.

(** Detected game page info *)
Record GamePageInfo := { appId : JsNumber; container : Element }.

(** [img.src || ''] *)
Variable image_src : Element -> D string.
(** [src.match(pattern)]: [None] for [null], else the entry [match[1]], which
    is [undefined] when the match has no such entry. *)
Variable string_match : string -> RegExp -> D (option (option string)).
(** [img.closest(selector)]: the element or [null]. *)
Variable closest : Element -> string -> D (option Element).
(** [parseInt(s, 10)] *)
Variable parseInt : option string -> JsNumber.

Definition tryExtractGamePage (doc : Document) (imageSelector containerSelector : string)
    (pattern : RegExp) : D (option GamePageInfo) :=
  dbind (querySelector doc imageSelector) (fun img =>
  match img with
  | None => dret None
  | Some img =>
      dbind (image_src img) (fun src =>
      dbind (string_match src pattern) (fun matched =>
      match matched with
      | None => dret None
      | Some group =>
          let appId := parseInt group in
          dbind (closest img containerSelector) (fun container =>
          match container with
          | None => dret None
          | Some container => dret (Some {| appId := appId; container := container |})
          end)
      end))
  end).

(** Try primary selector first (logo.png), then fallback (library_hero.jpg):
    [a || b] on values that are objects or [null]. *)
Definition detectGamePage (doc : Document) (config : UIModeConfig)
  : D (option GamePageInfo) :=
  dbind (tryExtractGamePage doc (headerImageSelector config) (containerSelector config)
           (appIdPattern config)) (fun primary =>
  match primary with
  | Some info => dret (Some info)
  | None =>
      tryExtractGamePage doc (fallbackImageSelector config) (containerSelector config)
        (appIdPattern config)
  end).

(** The fallback attempt of the second version, and its final [return null]. *)
Definition fallback_attempt (doc : Document) (config : UIModeConfig)
  : D (option GamePageInfo) :=
  dbind (querySelector doc (fallbackImageSelector config)) (fun fallbackImg =>
  match fallbackImg with
  | Some fallbackImg =>
      dbind (image_src fallbackImg) (fun src =>
      dbind (string_match src (appIdPattern config)) (fun matched =>
      match matched with
      | Some group =>
          let appId := parseInt group in
          dbind (closest fallbackImg (containerSelector config)) (fun container =>
          match container with
          | Some container => dret (Some {| appId := appId; container := container |})
          | None => dret None
          end)
      | None => dret None
      end))
  | None => dret None
  end).

(** The second version: both attempts written out; an attempt that does not
    return falls through to what follows it. *)
Definition detectGamePage_inlined (doc : Document) (config : UIModeConfig)
  : D (option GamePageInfo) :=
  dbind (querySelector doc (headerImageSelector config)) (fun primaryImg =>
  match primaryImg with
  | Some primaryImg =>
      dbind (image_src primaryImg) (fun src =>
      dbind (string_match src (appIdPattern config)) (fun matched =>
      match matched with
      | Some group =>
          let appId := parseInt group in
          dbind (closest primaryImg (containerSelector config)) (fun container =>
          match container with
          | Some container => dret (Some {| appId := appId; container := container |})
          | None => fallback_attempt doc config
          end)
      | None => fallback_attempt doc config
      end))
  | None => fallback_attempt doc config
  end).

End Browser.

Arguments querySelector {Dom Element Exception}.
Arguments headerImageSelector {RegExp}.
Arguments fallbackImageSelector {RegExp}.
Arguments containerSelector {RegExp}.
Arguments appIdPattern {RegExp}.
Arguments tryExtractGamePage {Dom Element RegExp JsNumber Exception}.
Arguments detectGamePage {Dom Element RegExp JsNumber Exception}.
Arguments fallback_attempt {Dom Element RegExp JsNumber Exception}.
Arguments detectGamePage_inlined {Dom Element RegExp JsNumber Exception}.

End Detector.

(** ** Vocabulary and examples of the defects

    *** The token request answered with a body that is not an object *)

(** The token request is answered with status 200 and a body that decodes
    to [decoded]. *)
Definition token_env (decoded : value) : Env :=
  example_env
    [(BASE_URL ++ "api/search/init?t=0", ok "TOKEN")]
    (HttpOk (ok "RESULTS"))
    [("TOKEN", decoded); ("RESULTS", results_of [])]
    (fun _ => 0).

(** *** The mention and the POST fetch of an endpoint in one bundle *)

Definition one_bundle_homepage : string :=
  "<script src='/_next/static/chunks/a.js'></script>".

(** The two bundles of [two_bundle_env] as one script. *)
Definition one_bundle_env : Env :=
  example_env
    [(BASE_URL, ok one_bundle_homepage);
     (BASE_URL ++ "_next/static/chunks/a.js", ok (bundle_a ++ bundle_b))]
    (HttpFail None) [] (fun _ => 0).

(** The two bundles of [two_bundle_env] in the other order. *)
Definition swapped_bundle_env : Env :=
  example_env
    [(BASE_URL, ok two_bundle_homepage);
     (BASE_URL ++ "_next/static/chunks/a.js", ok bundle_b);
     (BASE_URL ++ "_next/static/chunks/b.js", ok bundle_a)]
    (HttpFail None) [] (fun _ => 0).

(** *** A detail record with a field of the wrong type *)

Definition untimed_record : value :=
  VTable [] [("comp_main", VStr "n/a"); ("comp_plus", num 2000); ("comp_100", num 3000);
             ("comp_all", num 1500); ("game_id", num 1); ("profile_steam", num 1);
             ("game_name", VStr "Dark Souls II")].

(** ** The split of a game name at its blanks

    [split_at_blanks s terms]: [s] is made of the [terms], in order, each a
    non-empty run of non-blank characters that ends at a blank or at the end
    of [s], with nothing but blanks before, between and after them. *)
Inductive split_at_blanks : string -> list string -> Prop :=
| split_blanks (s : string) :
    all_chars is_blank s = true -> split_at_blanks s []
| split_term (blanks term rest : string) (terms : list string) :
    all_chars is_blank blanks = true ->
    term <> "" ->
    all_chars (fun a => negb (is_blank a)) term = true ->
    match rest with
    | String b _ => is_blank b = true
    | EmptyString => True
    end ->
    split_at_blanks rest terms ->
    split_at_blanks (blanks ++ term ++ rest) (term :: terms).

(** * Properties *)

Local Open Scope lua_scope.

(** ** Stepping through monadic code *)

Ltac break_hyp H :=
  match type of H with
  | context [match ?x with _ => _ end] =>
      let E := fresh "E" in destruct x eqn:E
  | context [if ?x then _ else _] =>
      let E := fresh "E" in destruct x eqn:E
  end.

Ltac unfold_monad_in H :=
  unfold bind, ret, lift, get_world, put_world in H; cbn beta iota in H.

Ltac unfold_monad :=
  unfold bind, ret, lift, get_world, put_world; cbn beta iota.

Lemma bind_ret_run {A B} (m : M A) (f : A -> M B) (w w' : World) (a : A) :
  m w = (Ret a, w') -> bind m f w = f a w'.
Proof. unfold bind; intros ->; reflexivity. Qed.

(** ** What [search] guarantees about the response it returns *)

Lemma validate_items_well_typed (items : list value) :
  validate_items items = Ret true -> forallb item_well_typed items = true.
Proof.
  induction items as [|item rest IH]; simpl; [reflexivity|].
  intros H.
  destruct item as [b|n|s|arr fields|]; simpl in H; try discriminate.
  (* a string has none of the fields; only a table can pass *)
  unfold item_well_typed at 1.
  destruct (lua_type_eqb (type_of (assoc "game_id" fields)) TNumber); simpl in *; [|discriminate].
  destruct (lua_type_eqb (type_of (assoc "game_name" fields)) TString); simpl in *; [|discriminate].
  destruct (lua_type_eqb (type_of (assoc "comp_all_count" fields)) TNumber); simpl in *; [|discriminate].
  auto.
Qed.

Lemma well_typed_validate_items (items : list value) :
  forallb item_well_typed items = true -> validate_items items = Ret true.
Proof.
  induction items as [|item rest IH]; simpl; [reflexivity|].
  intros H. apply andb_true_iff in H as [Hi Hr].
  destruct item as [b|n|s|arr fields|]; simpl in Hi; try discriminate.
  apply andb_true_iff in Hi as [Hi H3]. apply andb_true_iff in Hi as [H1 H2].
  simpl. rewrite H1, H2, H3. simpl. auto.
Qed.

(** The response check passes a response on unchanged, and only when its
    [data] field is a table whose elements all passed validation. *)
Lemma check_search_response_some (data d : value) :
  check_search_response data = Ret (Some d) ->
  d = data /\
  exists items fields,
    index data "data" = Ret (Some (VTable items fields)) /\
    validate_items items = Ret true.
Proof.
  unfold check_search_response, and_then. intros H.
  destruct (index data "data") as [[[b|n|s|items fields|]|]|e]; try discriminate.
  destruct (match items with [] => Ret tt | first :: _ => pairs_argument first end);
    try discriminate.
  destruct (validate_items items) as [[|]|e] eqn:Hv; try discriminate.
  inversion H; subst. eauto.
Qed.

Section SearchFacts.

Variable env : Env.

Lemma search_returns_checked (query : string) (options : option SearchOptions)
    (w w' : World) (r : option value) :
  search env query options w = (Ret r, w') ->
  r = None \/ exists data, r = Some data /\ check_search_response data = Ret (Some data).
Proof.
  unfold search. intros H. unfold_monad_in H.
  repeat (break_hyp H; try discriminate); inversion H; subst; auto.
  destruct r as [d|]; auto. right. exists d. split; auto.
  match goal with Hc : check_search_response ?x = Ret (Some d) |- _ =>
    destruct (check_search_response_some _ _ Hc) as [-> _]; exact Hc end.
Qed.

Lemma search_returns_validated (query : string) (options : option SearchOptions)
    (w w' : World) (data : value) :
  search env query options w = (Ret (Some data), w') ->
  exists items fields,
    index data "data" = Ret (Some (VTable items fields)) /\
    validate_items items = Ret true.
Proof.
  intros H. destruct (search_returns_checked _ _ _ _ _ H) as [Hn | [d [Hd Hc]]];
    [discriminate|].
  inversion Hd; subst d.
  apply check_search_response_some in Hc. tauto.
Qed.

Lemma well_typed_normalized_name (item : value) :
  item_well_typed item = true ->
  exists s, index item "game_name" = Ret (Some (VStr s)) /\
            normalized_name env item = Ret (normalize env s).
Proof.
  destruct item as [b|n|s|arr fields|]; simpl; try discriminate.
  intros H. apply andb_true_iff in H as [H _]. apply andb_true_iff in H as [_ H].
  unfold normalized_name; simpl.
  destruct (assoc "game_name" fields) as [[b|n|s|a f|]|]; simpl in H; try discriminate.
  exists s; auto.
Qed.

Lemma well_typed_count (item : value) :
  item_well_typed item = true ->
  exists n, index item "comp_all_count" = Ret (Some (VNum n)).
Proof.
  destruct item as [b|n|s|arr fields|]; simpl; try discriminate.
  intros H. apply andb_true_iff in H as [_ H].
  destruct (assoc "comp_all_count" fields) as [[b|n|s|a f|]|]; simpl in H; try discriminate.
  exists n; auto.
Qed.

(** The exact-name loop returns the first element whose normalized name is
    the normalized title. *)
Lemma find_exact_match_first (n : string) (pre post : list value) (item : value) :
  forallb item_well_typed pre = true ->
  (forall x, In x pre -> normalized_name env x <> Ret n) ->
  normalized_name env item = Ret n ->
  find_exact_match env n (pre ++ item :: post) = Ret (Some item).
Proof.
  induction pre as [|x pre IH]; simpl; intros Hty Hne Hit.
  - rewrite Hit, String.eqb_refl. reflexivity.
  - apply andb_true_iff in Hty as [Hx Hpre].
    destruct (well_typed_normalized_name x Hx) as [s [_ Hn]].
    rewrite Hn.
    destruct (String.eqb (normalize env s) n) eqn:E.
    + apply String.eqb_eq in E. exfalso. apply (Hne x); auto. congruence.
    + apply IH; auto.
Qed.

(** Without an exact match the loop runs to its end. *)
Lemma find_exact_match_none (n : string) (items : list value) :
  forallb item_well_typed items = true ->
  (forall x, In x items -> normalized_name env x <> Ret n) ->
  find_exact_match env n items = Ret None.
Proof.
  induction items as [|x items IH]; simpl; intros Hty Hne; [reflexivity|].
  apply andb_true_iff in Hty as [Hx Hrest].
  destruct (well_typed_normalized_name x Hx) as [s [_ Hn]].
  rewrite Hn.
  destruct (String.eqb (normalize env s) n) eqn:E.
  - apply String.eqb_eq in E. exfalso. apply (Hne x); auto. congruence.
  - apply IH; auto.
Qed.

End SearchFacts.

(** ** Match resolution *)

Section MatchResolution.

Variable env : Env.

(** C9: when the search succeeds with zero results, [search_best_match]
    returns nil (not found), and the world it leaves is the world [search]
    left: nothing was logged after the search, so there was no detail fetch
    and no further request. *)
Theorem zero_results_not_found (app_name : string) (steam_app_id : option number)
    (w w' : World) (data : value) (fields : list (string * value)) :
  search env app_name None w = (Ret (Some data), w') ->
  index data "data" = Ret (Some (VTable [] fields)) ->
  search_best_match env app_name steam_app_id w = (Ret None, w').
Proof.
  intros Hs Hd. unfold search_best_match.
  rewrite (bind_ret_run _ _ _ _ _ Hs).
  unfold bind, lift, ret. rewrite Hd. reflexivity.
Qed.

(** C1: when some candidate's normalized display name equals the normalized
    title, [search_best_match] returns the first such candidate of the result
    list, whether or not a Steam id was supplied, and the world it leaves is
    the world [search] left: no edit distance was computed and no detail
    fetch was made. *)
Theorem exact_match_first (app_name : string) (steam_app_id : option number)
    (w w' : World) (data : value) (fields : list (string * value))
    (pre post : list value) (item : value) :
  search env app_name None w = (Ret (Some data), w') ->
  index data "data" = Ret (Some (VTable (pre ++ item :: post) fields)) ->
  (forall x, In x pre -> normalized_name env x <> Ret (normalize env app_name)) ->
  normalized_name env item = Ret (normalize env app_name) ->
  search_best_match env app_name steam_app_id w = (Ret (Some item), w').
Proof.
  intros Hs Hd Hpre Hit.
  destruct (search_returns_validated env _ _ _ _ _ Hs) as [items [fields' [Hd' Hv]]].
  rewrite Hd in Hd'. inversion Hd'; subst items fields'; clear Hd'.
  apply validate_items_well_typed in Hv.
  rewrite forallb_app in Hv. apply andb_true_iff in Hv as [Hv _].
  unfold search_best_match.
  rewrite (bind_ret_run _ _ _ _ _ Hs).
  unfold bind, lift, ret. rewrite Hd.
  rewrite (find_exact_match_first env _ pre post item Hv Hpre Hit).
  destruct pre; reflexivity.
Qed.

End MatchResolution.

(** ** The auth token *)

Section AuthToken.

Variable env : Env.

(** C5: without a forced refresh, while a token is cached and the clock reads
    less than its expiry, the cached token is returned and the only event is
    the clock read: no request is made.  With a forced refresh, or once the
    clock has reached the expiry (or with nothing cached), exactly one request
    is made, to the token URL, whatever its outcome; a token obtained this way
    is cached with expiry 300 seconds after the clock reading of that call. *)
Theorem token_cache_and_refresh (force_refresh : bool) (w : World) :
  let now := os_time env (log w) in
  (force_refresh = false -> truthy (cached_token w) = true ->
   now < token_expires_at w ->
     get_auth_token env force_refresh w
       = (Ret (cached_token w, None), add_event EvTime w)) /\
  (force_refresh = true \/ token_expires_at w <= now \/ truthy (cached_token w) = false ->
     exists r w',
       get_auth_token env force_refresh w = (r, w') /\
       log w' = EvGet (token_url env now) :: EvTime :: log w /\
       (forall tok err, r = Ret (Some tok, err) ->
          cached_token w' = Some tok /\ token_expires_at w' = now + 300)).
Proof.
  intros now. split.
  - intros -> Htok Hlt.
    unfold get_auth_token, os_time_m. unfold_monad. simpl.
    rewrite Htok. fold now. apply Z.ltb_lt in Hlt. rewrite Hlt. reflexivity.
  - intros Hcase.
    assert (Hcond : negb force_refresh && truthy (cached_token w)
                    && (now <? token_expires_at w) = false).
    { destruct Hcase as [-> | [Hexp | Hnone]].
      - reflexivity.
      - apply Z.ltb_ge in Hexp. rewrite Hexp. apply andb_false_r.
      - rewrite Hnone. rewrite andb_false_r. reflexivity. }
    unfold get_auth_token, os_time_m, http_get_m. unfold_monad.
    simpl. fold now. rewrite Hcond. unfold add_event; simpl.
    destruct (http_get env (EvTime :: log w) (token_url env now)) as [response|err];
      [|eexists; eexists; split; [reflexivity|]; split; [reflexivity|]; intros; discriminate].
    destruct (negb (status response =? 200));
      [eexists; eexists; split; [reflexivity|]; split; [reflexivity|]; intros; discriminate|].
    destruct (decode_body env (body response)) as [data|];
      [|eexists; eexists; split; [reflexivity|]; split; [reflexivity|]; intros; discriminate].
    destruct (index data "token") as [token|e];
      [|eexists; eexists; split; [reflexivity|]; split; [reflexivity|]; intros; discriminate].
    destruct (negb (truthy token)) eqn:Ht;
      [eexists; eexists; split; [reflexivity|]; split; [reflexivity|]; intros; discriminate|].
    eexists; eexists; split; [reflexivity|]; split; [reflexivity|].
    intros tok err Heq. inversion Heq; subst. simpl. auto.
Qed.

(** The three outcomes of [get_auth_token].  A token is returned with the
    clock reading of the call strictly before the expiry recorded for it; nil
    is returned with a message; and the call is aborted exactly when the
    token request was answered with status 200 and a body that decodes to a
    value on which [data.token] is a runtime error, and then the cached token
    is left as it was. *)
Lemma get_auth_token_outcomes (force_refresh : bool) (w w' : World)
    (r : result (option value * option token_error)) :
  get_auth_token env force_refresh w = (r, w') ->
  match r with
  | Ret (Some tok, err) =>
      err = None /\ truthy (Some tok) = true /\ cached_token w' = Some tok /\
      os_time env (log w) < token_expires_at w'
  | Ret (None, err) => err <> None
  | Raise e =>
      (exists response data,
         http_get env (EvTime :: log w) (token_url env (os_time env (log w)))
         = HttpOk response /\
         status response = 200 /\
         decode_body env (body response) = Some data /\
         index data "token" = Raise e) /\
      cached_token w' = cached_token w /\ token_expires_at w' = token_expires_at w
  end.
Proof.
  unfold get_auth_token, os_time_m, http_get_m. unfold_monad.
  simpl.
  set (now := os_time env (log w)).
  destruct (negb force_refresh && truthy (cached_token w)
            && (now <? token_expires_at w)) eqn:Hcond; unfold add_event; simpl.
  - intros H. inversion H; subst; clear H.
    apply andb_true_iff in Hcond as [Hcond Hlt].
    apply andb_true_iff in Hcond as [_ Htok].
    apply Z.ltb_lt in Hlt.
    destruct (cached_token w) as [tok|] eqn:Ec; [|discriminate].
    simpl. auto.
  - destruct (http_get env (EvTime :: log w) (token_url env now)) as [response|err].
    2: { intros H; inversion H; subst; discriminate. }
    destruct (negb (status response =? 200)) eqn:Hst.
    { intros H; inversion H; subst; discriminate. }
    apply negb_false_iff, Z.eqb_eq in Hst.
    destruct (decode_body env (body response)) as [data|] eqn:Hdec.
    2: { intros H; inversion H; subst; discriminate. }
    destruct (index data "token") as [token|e] eqn:Hidx.
    2: { intros H; inversion H; subst; simpl. split; [|auto].
         exists response, data. auto. }
    destruct (negb (truthy token)) eqn:Ht.
    { intros H; inversion H; subst; discriminate. }
    intros H; inversion H; subst; clear H.
    apply negb_false_iff in Ht.
    destruct token as [tok|]; [|discriminate].
    simpl. repeat split; auto. unfold TOKEN_TTL. lia.
Qed.

End AuthToken.

(** C6 fails on the code.  A token that is returned is never expired: the
    clock reading of the call is strictly before the expiry recorded for it;
    and nil is returned with a message.  But not every call yields one of
    the two: when the token request is answered with status 200 and a body
    that decodes to a number or a boolean, the test [data.token] indexes that
    value, a runtime error that aborts [get_auth_token] and the resolution
    that called it, where a body that decodes to an object without a token, or
    to a string, gives nil and the message.  A call is aborted in no other
    way. *)
Theorem token_request_aborts_on_unindexable_body :
  (forall env force_refresh w w' r,
     get_auth_token env force_refresh w = (r, w') ->
     match r with
     | Ret (Some tok, err) =>
         err = None /\ truthy (Some tok) = true /\ cached_token w' = Some tok /\
         os_time env (log w) < token_expires_at w'
     | Ret (None, err) => err <> None
     | Raise e =>
         exists response data,
           http_get env (EvTime :: log w) (token_url env (os_time env (log w)))
           = HttpOk response /\
           status response = 200 /\
           decode_body env (body response) = Some data /\
           index data "token" = Raise e
     end) /\
  (let call decoded := fst (get_auth_token (token_env decoded) false initial_world) in
   call (num 5) = Raise (AttemptToIndex TNumber) /\
   call (VBool true) = Raise (AttemptToIndex TBoolean) /\
   call (VTable [] []) = Ret (None, Some NoToken) /\
   call (VStr "token") = Ret (None, Some NoToken) /\
   call (VTable [] [("token", VStr "t0")]) = Ret (Some (VStr "t0"), None)) /\
  fst (search_best_match (token_env (num 5)) "Dark Souls" None initial_world)
  = Raise (AttemptToIndex TNumber) /\
  fst (search_best_match (token_env (VTable [] [])) "Dark Souls" None initial_world)
  = Ret None.
Proof.
  split; [|cbn zeta; repeat split; vm_compute; reflexivity].
  intros env force_refresh w w' r H.
  pose proof (get_auth_token_outcomes env force_refresh w w' r H) as Hr.
  destruct r as [[[tok|] err]|e]; [exact Hr|exact Hr|apply Hr].
Qed.

(** ** The search URL *)

Section SearchUrl.

Variable env : Env.

Lemma keeps_url_ret {A} u (a : A) : keeps_url env u (ret a).
Proof.
  intros w r w' Hc H. inversion H; subst. split; auto. exists []. auto.
Qed.

Lemma keeps_url_lift {A} u (x : result A) : keeps_url env u (lift x).
Proof.
  intros w r w' Hc H. inversion H; subst. split; auto. exists []. auto.
Qed.

Lemma keeps_url_bind {A B} u (m : M A) (f : A -> M B) :
  keeps_url env u m -> (forall a, keeps_url env u (f a)) -> keeps_url env u (bind m f).
Proof.
  intros Hm Hf w r w' Hc H. unfold bind in H.
  destruct (m w) as [[a|e] w1] eqn:Em.
  - destruct (Hm _ _ _ Hc Em) as [Hc1 [evs1 [Hl1 Hall1]]].
    destruct (Hf a _ _ _ Hc1 H) as [Hc2 [evs2 [Hl2 Hall2]]].
    split; auto. exists (evs2 ++ evs1)%list. split.
    + rewrite Hl2, Hl1. apply app_assoc.
    + apply Forall_app; auto.
  - inversion H; subst. apply (Hm _ _ _ Hc Em).
Qed.

Lemma keeps_url_get_auth_token u force_refresh :
  keeps_url env u (get_auth_token env force_refresh).
Proof.
  intros w r w' Hc. unfold get_auth_token, os_time_m, http_get_m. unfold_monad. simpl.
  set (now := os_time env (log w)).
  assert (Hev : Forall (search_event env u) [EvTime]).
  { constructor; [left; reflexivity|constructor]. }
  assert (Hev2 : Forall (search_event env u) [EvGet (token_url env now); EvTime]).
  { constructor; [right; left; eauto|]. constructor; [left; reflexivity|constructor]. }
  destruct (negb force_refresh && truthy (cached_token w) && (now <? token_expires_at w));
    unfold add_event; simpl.
  { intros H; inversion H; subst; simpl. split; auto. exists [EvTime]; auto. }
  destruct (http_get env (EvTime :: log w) (token_url env now)) as [response|err].
  2: { intros H; inversion H; subst; simpl. split; auto. eexists; split; [|exact Hev2]; reflexivity. }
  destruct (negb (status response =? 200)).
  { intros H; inversion H; subst; simpl. split; auto. eexists; split; [|exact Hev2]; reflexivity. }
  destruct (decode_body env (body response)) as [data|].
  2: { intros H; inversion H; subst; simpl. split; auto. eexists; split; [|exact Hev2]; reflexivity. }
  destruct (index data "token") as [token|e].
  2: { intros H; inversion H; subst; simpl. split; auto. eexists; split; [|exact Hev2]; reflexivity. }
  destruct (negb (truthy token)).
  { intros H; inversion H; subst; simpl. split; auto. eexists; split; [|exact Hev2]; reflexivity. }
  intros H; inversion H; subst; simpl. split; auto. eexists; split; [|exact Hev2]; reflexivity.
Qed.

Lemma get_search_url_cached u w :
  cached_search_url w = Some u -> get_search_url env w = (Ret u, w).
Proof.
  intros Hc. unfold get_search_url. unfold_monad. rewrite Hc. reflexivity.
Qed.

Lemma keeps_url_search u query options : keeps_url env u (search env query options).
Proof.
  unfold search.
  apply keeps_url_bind; [apply keeps_url_get_auth_token|]. intros tok.
  destruct (negb (truthy (fst tok))); [apply keeps_url_ret|].
  intros w r w' Hc H.
  rewrite (bind_ret_run _ _ _ _ _ (get_search_url_cached u w Hc)) in H.
  revert w r w' Hc H.
  apply keeps_url_bind.
  - intros w r w' Hc H. unfold http_request_m in H. inversion H; subst; simpl.
    split; auto. eexists (_ :: nil); split; [reflexivity|].
    constructor; [right; right; eauto|constructor].
  - intros [response|err]; [|apply keeps_url_ret].
    destruct (negb (status response =? 200)); [apply keeps_url_ret|].
    destruct (decode_body env (body response)) as [data|]; [|apply keeps_url_ret].
    apply keeps_url_lift.
Qed.

Lemma search_event_not_discovery u e :
  search_event env u e -> is_discovery_get e = false.
Proof.
  (* the token URL continues with [api/], the homepage URL ends and a
     bundle URL continues with [_next/] *)
  intros [-> | [[now ->] | [tok [p ->]]]]; reflexivity.
Qed.

(** [extract_search_url] is never aborted. *)
Lemma scan_scripts_returns (script_urls found : list string) (w : World) :
  exists o w', scan_scripts env script_urls found w = (Ret o, w').
Proof.
  revert found w. induction script_urls as [|src rest IH]; intros found w;
    cbn [scan_scripts].
  - eexists; eexists; reflexivity.
  - unfold bind, http_get_m.
    destruct (http_get env (log w) (script_url src)) as [[st [content|]]|err];
      try apply IH.
    destruct (st =? 200); [|apply IH].
    destruct (scan_api_paths content (gmatch api_path_pattern content) found) as [[url|] found'].
    + eexists; eexists; reflexivity.
    + apply IH.
Qed.

Lemma get_homepage_returns (w : World) :
  exists o w', get_homepage env w = (Ret o, w').
Proof.
  unfold get_homepage, http_get_m. unfold_monad.
  destruct (cached_homepage w); [eauto|].
  destruct (http_get env (log w) BASE_URL) as [response|err]; [|eauto].
  destruct (negb (status response =? 200)); eauto.
Qed.

Lemma extract_search_url_returns (w : World) :
  exists o w', extract_search_url env w = (Ret o, w').
Proof.
  unfold extract_search_url.
  destruct (get_homepage_returns w) as [o [w1 H]].
  rewrite (bind_ret_run _ _ _ _ _ H).
  destruct o as [homepage|]; [apply scan_scripts_returns|].
  eexists; eexists; reflexivity.
Qed.

Lemma get_search_url_uncached (w w1 : World) (o : option string) :
  cached_search_url w = None ->
  extract_search_url env w = (Ret o, w1) ->
  let u := match o with Some path => BASE_URL ++ path | None => SEARCH_URL end in
  get_search_url env w = (Ret u, set_search_url (Some u) w1).
Proof.
  intros Hc H. unfold get_search_url. unfold_monad. rewrite Hc, H.
  destruct o; reflexivity.
Qed.

(** *** Nothing but [clear_cache] drops a cached search URL *)

Lemma stays_ret {A} u (a : A) : keeps_cached_url u (ret a).
Proof. intros w r w' Hc H. inversion H; subst. exact Hc. Qed.

Lemma stays_lift {A} u (x : result A) : keeps_cached_url u (lift x).
Proof. intros w r w' Hc H. inversion H; subst. exact Hc. Qed.

Lemma stays_bind {A B} u (m : M A) (f : A -> M B) :
  keeps_cached_url u m -> (forall a, keeps_cached_url u (f a)) ->
  keeps_cached_url u (bind m f).
Proof.
  intros Hm Hf w r w' Hc H. unfold bind in H.
  destruct (m w) as [[a|e] w1] eqn:Em.
  - eapply Hf; [|exact H]. eapply Hm; eauto.
  - inversion H; subst. eapply Hm; eauto.
Qed.

Lemma stays_put u (f : World -> World) :
  (forall w, cached_search_url (f w) = cached_search_url w) ->
  keeps_cached_url u (put_world f).
Proof. intros Hf w r w' Hc H. inversion H; subst. rewrite Hf. exact Hc. Qed.

Lemma stays_weaken {A} u (m : M A) : keeps_url env u m -> keeps_cached_url u m.
Proof. intros Hm w r w' Hc H. apply (Hm w r w' Hc H). Qed.

Lemma stays_get_world u : keeps_cached_url u get_world.
Proof. intros w r w' Hc H. inversion H; subst. exact Hc. Qed.

Lemma stays_http_get u url : keeps_cached_url u (http_get_m env url).
Proof. intros w r w' Hc H. inversion H; subst. exact Hc. Qed.

Lemma stays_get_homepage u : keeps_cached_url u (get_homepage env).
Proof.
  unfold get_homepage. apply stays_bind; [apply stays_get_world|]. intros w.
  destruct (cached_homepage w); [apply stays_ret|].
  apply stays_bind; [apply stays_http_get|]. intros [response|err]; [|apply stays_ret].
  destruct (negb (status response =? 200)); [apply stays_ret|].
  apply stays_bind; [apply stays_put; reflexivity|]. intros; apply stays_ret.
Qed.

Lemma stays_extract_build_id u : keeps_cached_url u (extract_build_id env).
Proof.
  unfold extract_build_id. apply stays_bind; [apply stays_get_world|]. intros w.
  destruct (cached_build_id w); [apply stays_ret|].
  apply stays_bind; [apply stays_get_homepage|]. intros [homepage|]; [|apply stays_ret].
  destruct (match str_match ssg_manifest_pattern homepage with
            | Some b => Some b
            | None => str_match build_manifest_pattern homepage
            end); [|apply stays_ret].
  apply stays_bind; [apply stays_put; reflexivity|]. intros; apply stays_ret.
Qed.

Lemma stays_fetch_game_data u game_id : keeps_cached_url u (fetch_game_data env game_id).
Proof.
  unfold fetch_game_data.
  apply stays_bind; [apply stays_put; reflexivity|]. intros _.
  apply stays_bind; [apply stays_extract_build_id|]. intros [build_id|]; [|apply stays_ret].
  apply stays_bind; [apply stays_lift|]. intros id.
  apply stays_bind; [apply stays_http_get|]. intros [response|err]; [|apply stays_ret].
  destruct (negb (status response =? 200)); [apply stays_ret|].
  destruct (decode_body env (body response)); [apply stays_lift|apply stays_ret].
Qed.

Lemma stays_build_choices u norm items : keeps_cached_url u (build_choices env norm items).
Proof.
  induction items as [|element rest IH]; cbn [build_choices]; [apply stays_ret|].
  apply stays_bind; [apply stays_lift|]. intros n.
  apply stays_bind. { intros w r w' Hc H. inversion H; subst. exact Hc. }
  intros d. apply stays_bind; [apply stays_lift|]. intros c.
  apply stays_bind; [apply stays_lift|]. intros c'.
  apply stays_bind; [exact IH|]. intros; apply stays_ret.
Qed.

Lemma stays_steam_id_checks u sid candidates :
  keeps_cached_url u (steam_id_checks env sid candidates).
Proof.
  induction candidates as [|candidate rest IH]; cbn [steam_id_checks]; [apply stays_ret|].
  apply stays_bind; [apply stays_lift|]. intros game_id.
  apply stays_bind; [apply stays_fetch_game_data|]. intros [game_data|]; [|exact IH].
  apply stays_bind; [apply stays_lift|]. intros ps.
  destruct (equals_number ps sid); [apply stays_ret|exact IH].
Qed.

Lemma stays_closest_match u norm steam_app_id items :
  keeps_cached_url u (closest_match env norm steam_app_id items).
Proof.
  unfold closest_match.
  apply stays_bind; [apply stays_build_choices|]. intros choices.
  apply stays_bind.
  - destruct steam_app_id as [sid|]; [|apply stays_ret].
    destruct (rank env choices); [apply stays_ret|apply stays_steam_id_checks].
  - intros [confirmed|]; [apply stays_ret|].
    destruct (rank env choices); apply stays_ret.
Qed.

Lemma stays_search_best_match u app_name steam_app_id :
  keeps_cached_url u (search_best_match env app_name steam_app_id).
Proof.
  unfold search_best_match.
  apply stays_bind; [apply stays_weaken, keeps_url_search|].
  intros [search_results|]; [|apply stays_ret].
  apply stays_bind; [apply stays_lift|]. intros results.
  destruct results as [[b|n|s|items fields|]|]; try apply stays_lift.
  destruct items as [|first others]; [apply stays_ret|].
  apply stays_bind; [apply stays_lift|].
  intros [exact|]; [apply stays_ret|apply stays_closest_match].
Qed.

(** C10: a first use populates the cached search URL, with the static
    fallback when discovery finds nothing; once it holds [u], the URL is
    returned from the cache without any event, every search keeps it and logs
    nothing but a clock read, a token request and the search request sent to
    [u] (no GET of the homepage or of a bundle); [get_auth_token] and
    [search_best_match] keep it as well, and [clear_cache] empties it. *)
Theorem search_url_pinned :
  (forall w, cached_search_url w = None ->
     exists o w1, extract_search_url env w = (Ret o, w1) /\
       let u := match o with Some path => BASE_URL ++ path | None => SEARCH_URL end in
       get_search_url env w = (Ret u, set_search_url (Some u) w1)) /\
  (forall u w, cached_search_url w = Some u ->
     get_search_url env w = (Ret u, w) /\
     forall query options r w',
       search env query options w = (r, w') ->
       cached_search_url w' = Some u /\
       exists evs, log w' = (evs ++ log w)%list /\
         Forall (search_event env u) evs /\
         Forall (fun e => is_discovery_get e = false) evs) /\
  (forall u w, cached_search_url w = Some u ->
     (forall force_refresh, cached_search_url (snd (get_auth_token env force_refresh w)) = Some u) /\
     (forall app_name steam_app_id,
        cached_search_url (snd (search_best_match env app_name steam_app_id w)) = Some u)) /\
  (forall w, cached_search_url (snd (clear_cache w)) = None).
Proof.
  split; [|split; [|split]].
  - intros w Hc.
    destruct (extract_search_url_returns w) as [o [w1 H]].
    exists o, w1. split; [exact H|].
    apply get_search_url_uncached; assumption.
  - intros u w Hc. split; [apply get_search_url_cached; exact Hc|].
    intros query options r w' H.
    destruct (keeps_url_search u query options w r w' Hc H) as [Hc' [evs [Hl Hall]]].
    split; [exact Hc'|]. exists evs. repeat split; auto.
    eapply Forall_impl; [|exact Hall]. apply search_event_not_discovery.
  - intros u w Hc. split.
    + intros force_refresh.
      apply (stays_weaken u _ (keeps_url_get_auth_token u force_refresh) w
               (fst (get_auth_token env force_refresh w)) _ Hc).
      apply surjective_pairing.
    + intros app_name steam_app_id.
      apply (stays_search_best_match u app_name steam_app_id w
               (fst (search_best_match env app_name steam_app_id w)) _ Hc).
      apply surjective_pairing.
  - reflexivity.
Qed.

End SearchUrl.

(** ** Validation of the two decoded responses *)

Lemma validate_fields_table (arr : list value) (fields : list (string * value))
    (schema : list field_spec) :
  exists failing,
    validate_fields (VTable arr fields) schema
    = Ret (forallb (fun f => lua_type_eqb (type_of (assoc (name f) fields))
                                          (expected_type f)) schema,
           failing).
Proof.
  induction schema as [|f rest IH]; simpl.
  - eexists; reflexivity.
  - destruct (lua_type_eqb (type_of (assoc (name f) fields)) (expected_type f)); simpl.
    + exact IH.
    + eexists; reflexivity.
Qed.

Lemma validate_fields_game (game_data : value) (failing : option string) :
  validate_fields game_data game_data_schema = Ret (true, failing) ->
  game_well_typed game_data = true.
Proof.
  destruct game_data as [b|n|s|arr fields|]; try discriminate.
  intros H. destruct (validate_fields_table arr fields game_data_schema) as [f Hf].
  rewrite Hf in H. inversion H. unfold game_well_typed. auto.
Qed.

(** A detail response passes the checks exactly when the array at
    [pageProps.game.data.game] has one element and that element has the seven
    fields with the expected types. *)
Lemma check_game_response_iff (data game_data : value) :
  check_game_response data = Ret (Some game_data) <->
  nested_game_array data = Some [game_data] /\ game_well_typed game_data = true.
Proof.
  unfold check_game_response, nested_game_array, and_then. split.
  - intros H.
    destruct data as [b|n|s|a0 f0|]; try discriminate. cbn [index] in H.
    destruct (assoc "pageProps" f0) as [[b|n|s|a1 f1|]|]; try discriminate.
    cbn [index] in H.
    destruct (assoc "game" f1) as [[b|n|s|a2 f2|]|]; try discriminate.
    cbn [index] in H.
    destruct (assoc "data" f2) as [[b|n|s|a3 f3|]|]; try discriminate.
    cbn [index] in H.
    destruct (assoc "game" f3) as [[b|n|s|arr f4|]|]; try discriminate.
    destruct arr as [|gd [|x rest]]; try discriminate.
    destruct (validate_fields gd game_data_schema) as [[[|] failing]|e] eqn:Hv;
      try discriminate.
    cbn [fst] in H. inversion H; subst gd.
    split; [reflexivity|]. eapply validate_fields_game; eauto.
  - intros [Hn Hty].
    destruct data as [b|n|s|a0 f0|]; try discriminate. cbn [index].
    destruct (assoc "pageProps" f0) as [[b|n|s|a1 f1|]|]; try discriminate.
    cbn [index].
    destruct (assoc "game" f1) as [[b|n|s|a2 f2|]|]; try discriminate.
    cbn [index].
    destruct (assoc "data" f2) as [[b|n|s|a3 f3|]|]; try discriminate.
    cbn [index].
    destruct (assoc "game" f3) as [[b|n|s|arr f4|]|]; try discriminate.
    inversion Hn; subst arr.
    destruct game_data as [b|n|s|arr fields|]; try discriminate.
    destruct (validate_fields_table arr fields game_data_schema) as [f Hf].
    rewrite Hf. unfold game_well_typed in Hty. rewrite Hty. reflexivity.
Qed.

(** Once the array at [pageProps.game.data.game] is found, the outcome is
    decided by its length and by the field validation of its one element. *)
Lemma check_game_response_nested (data : value) (arr : list value) :
  nested_game_array data = Some arr ->
  check_game_response data
  = match arr with
    | [game_data] =>
        match validate_fields game_data game_data_schema with
        | Ret vf => if fst vf then Ret (Some game_data) else Ret None
        | Raise e => Raise e
        end
    | _ => Ret None
    end.
Proof.
  unfold check_game_response, nested_game_array, and_then. intros H.
  destruct data as [b|n|s|a0 f0|]; try discriminate. cbn [index].
  destruct (assoc "pageProps" f0) as [[b|n|s|a1 f1|]|]; try discriminate.
  cbn [index].
  destruct (assoc "game" f1) as [[b|n|s|a2 f2|]|]; try discriminate.
  cbn [index].
  destruct (assoc "data" f2) as [[b|n|s|a3 f3|]|]; try discriminate.
  cbn [index].
  destruct (assoc "game" f3) as [[b|n|s|arr' f4|]|]; try discriminate.
  inversion H; subst arr'. reflexivity.
Qed.

(** A response that can be indexed and does not hold the array is answered
    with nil. *)
Lemma check_game_response_no_array (data : value) :
  indexable data = true -> nested_game_array data = None ->
  check_game_response data = Ret None.
Proof.
  unfold check_game_response, nested_game_array, and_then. intros Hi H.
  destruct data as [b|n|s|a0 f0|]; try discriminate; [reflexivity|]. cbn [index].
  destruct (assoc "pageProps" f0) as [[b|n|s|a1 f1|]|]; try reflexivity.
  cbn [index].
  destruct (assoc "game" f1) as [[b|n|s|a2 f2|]|]; try reflexivity.
  cbn [index].
  destruct (assoc "data" f2) as [[b|n|s|a3 f3|]|]; try reflexivity.
  cbn [index].
  destruct (assoc "game" f3) as [[b|n|s|arr' f4|]|]; try reflexivity.
  discriminate.
Qed.

(** On a table or a string the field validation answers; on anything else
    its first lookup is a runtime error. *)
Lemma validate_fields_game_indexable (game_data : value) :
  indexable game_data = true ->
  exists failing,
    validate_fields game_data game_data_schema = Ret (game_well_typed game_data, failing).
Proof.
  destruct game_data as [b|n|s|arr fields|]; try discriminate; intros _.
  - eexists. reflexivity.
  - apply validate_fields_table.
Qed.

Lemma validate_fields_game_unindexable (game_data : value) :
  indexable game_data = false ->
  validate_fields game_data game_data_schema
  = Raise (AttemptToIndex (type_of (Some game_data))).
Proof. destruct game_data; try discriminate; reflexivity. Qed.

Section DetailFetch.

Variable env : Env.

Lemma fetch_game_data_on_response (game_id : option value) (w w' : World) (data : value) :
  fetch_receives env game_id w data w' ->
  fetch_game_data env game_id w = (check_game_response data, w').
Proof.
  intros [build_id [w1 [id [response [Hb [Hid [Hget [Hst [Hdec ->]]]]]]]]].
  unfold fetch_game_data. unfold bind at 1. unfold put_world at 1.
  rewrite (bind_ret_run _ _ _ _ _ Hb).
  unfold bind, lift, http_get_m. rewrite Hid, Hget, Hst, Hdec. reflexivity.
Qed.

Lemma fetch_game_data_some (game_id : option value) (w w' : World) (game_data : value) :
  fetch_game_data env game_id w = (Ret (Some game_data), w') ->
  exists data, fetch_receives env game_id w data w' /\
               check_game_response data = Ret (Some game_data).
Proof.
  unfold fetch_game_data. unfold bind at 1. unfold put_world at 1.
  unfold bind at 1.
  destruct (extract_build_id env (add_event (EvFetchGameData game_id) w))
    as [[[build_id|]|e] w1] eqn:Hb; try (unfold ret; discriminate).
  unfold bind, lift, http_get_m.
  destruct (concat_operand (tostring_number env) game_id) as [id|e] eqn:Hid;
    try discriminate.
  destruct (http_get env (log w1) (game_url build_id id)) as [response|err] eqn:Hget;
    try (unfold ret; discriminate).
  destruct (negb (status response =? 200)) eqn:Hst; try (unfold ret; discriminate).
  destruct (decode_body env (body response)) as [data|] eqn:Hdec;
    try (unfold ret; discriminate).
  intros H. inversion H; subst. exists data. split; auto.
  apply negb_false_iff, Z.eqb_eq in Hst.
  exists build_id, w1, id, response. repeat split; auto.
Qed.

(** Build-id discovery sends at most one request: the GET of the homepage,
    when the homepage is not cached. *)
Lemma extract_build_id_log (w w1 : World) (r : result (option string)) :
  extract_build_id env w = (r, w1) ->
  log w1 = log w \/ log w1 = EvGet BASE_URL :: log w.
Proof.
  unfold extract_build_id, get_homepage, http_get_m. unfold_monad.
  destruct (cached_build_id w); [intros H; inversion H; auto|].
  destruct (cached_homepage w) as [h|].
  - destruct (match str_match ssg_manifest_pattern h with
              | Some b => Some b
              | None => str_match build_manifest_pattern h
              end); intros H; inversion H; auto.
  - destruct (http_get env (log w) BASE_URL) as [response|err];
      [|intros H; inversion H; auto].
    destruct (negb (status response =? 200)); [intros H; inversion H; auto|].
    destruct (body response) as [h|]; [|intros H; inversion H; auto].
    destruct (match str_match ssg_manifest_pattern h with
              | Some b => Some b
              | None => str_match build_manifest_pattern h
              end); intros H; inversion H; auto.
Qed.

End DetailFetch.

(** C8 fails on the code.  When build-id discovery returns nothing,
    [fetch_game_data] returns nil in the world discovery left, so it sends no
    request of its own.  When its request is answered, it returns nil if the
    response holds no game array, if the array has no element or more than
    one, or if its one element is a table (or a string) without the seven
    fields of the expected types, and it returns the element if it has them;
    a record is only ever returned from such a response.  But when the one
    element is a number, a boolean or userdata, the field validation indexes
    it, a runtime error that aborts the call instead of making it return nil;
    so does a response that is itself a number. *)
Theorem detail_validation_aborts_on_unindexable_element :
  (forall env game_id w w1,
     extract_build_id env (add_event (EvFetchGameData game_id) w) = (Ret None, w1) ->
     fetch_game_data env game_id w = (Ret None, w1) /\
     (log w1 = EvFetchGameData game_id :: log w \/
      log w1 = EvGet BASE_URL :: EvFetchGameData game_id :: log w)) /\
  (forall env game_id w data w',
     fetch_receives env game_id w data w' ->
     (indexable data = true -> nested_game_array data = None ->
        fetch_game_data env game_id w = (Ret None, w')) /\
     (forall arr, nested_game_array data = Some arr -> List.length arr <> 1%nat ->
        fetch_game_data env game_id w = (Ret None, w')) /\
     (forall game_data, nested_game_array data = Some [game_data] ->
        (game_well_typed game_data = true ->
           fetch_game_data env game_id w = (Ret (Some game_data), w')) /\
        (indexable game_data = true -> game_well_typed game_data = false ->
           fetch_game_data env game_id w = (Ret None, w')) /\
        (indexable game_data = false ->
           fetch_game_data env game_id w
           = (Raise (AttemptToIndex (type_of (Some game_data))), w')))) /\
  (forall env game_id w w' game_data,
     fetch_game_data env game_id w = (Ret (Some game_data), w') ->
     exists data,
       fetch_receives env game_id w data w' /\
       nested_game_array data = Some [game_data] /\
       game_well_typed game_data = true) /\
  (let fetch decoded :=
     fst (fetch_game_data (detail_env decoded) (Some (num 1)) initial_world) in
   fetch (detail_page [num 5]) = Raise (AttemptToIndex TNumber) /\
   fetch (detail_page [VBool true]) = Raise (AttemptToIndex TBoolean) /\
   fetch (num 5) = Raise (AttemptToIndex TNumber) /\
   fetch (detail_page []) = Ret None /\
   fetch (detail_page [detail_record 1 "Dark Souls II" 1;
                       detail_record 1 "Dark Souls II" 1]) = Ret None /\
   fetch (detail_page [untimed_record]) = Ret None /\
   fetch (detail_page [VStr "Dark Souls II"]) = Ret None /\
   fetch (detail_page [detail_record 1 "Dark Souls II" 1])
   = Ret (Some (detail_record 1 "Dark Souls II" 1))).
Proof.
  split; [|split; [|split]].
  - intros env game_id w w1 Hb. split.
    + unfold fetch_game_data. unfold bind at 1. unfold put_world at 1.
      rewrite (bind_ret_run _ _ _ _ _ Hb). reflexivity.
    + apply extract_build_id_log in Hb. exact Hb.
  - intros env game_id w data w' Hr.
    rewrite (fetch_game_data_on_response env _ _ _ _ Hr).
    split; [|split].
    + intros Hi Hn. rewrite (check_game_response_no_array _ Hi Hn). reflexivity.
    + intros arr Hn Hlen. rewrite (check_game_response_nested _ _ Hn).
      destruct arr as [|x [|y rest]]; try reflexivity. cbn in Hlen. congruence.
    + intros game_data Hn. rewrite (check_game_response_nested _ _ Hn).
      split; [|split].
      * intros Hty.
        assert (Hi : indexable game_data = true) by (destruct game_data; auto; discriminate).
        destruct (validate_fields_game_indexable _ Hi) as [failing ->].
        rewrite Hty. reflexivity.
      * intros Hi Hty. destruct (validate_fields_game_indexable _ Hi) as [failing ->].
        rewrite Hty. reflexivity.
      * intros Hi. rewrite (validate_fields_game_unindexable _ Hi). reflexivity.
  - intros env game_id w w' game_data H.
    destruct (fetch_game_data_some env _ _ _ _ H) as [data [Hr Hc]].
    exists data. split; auto. apply check_game_response_iff. exact Hc.
  - cbn zeta. repeat split; vm_compute; reflexivity.
Qed.

(** ** Validation of the search response *)

(** On an array of tables the item validation answers, and it answers true
    exactly when every element is well typed. *)
Lemma validate_items_tables (items : list value) :
  forallb is_table items = true ->
  validate_items items = Ret (forallb item_well_typed items).
Proof.
  induction items as [|item rest IH]; cbn [forallb validate_items]; [reflexivity|].
  intros H. apply andb_true_iff in H as [Ht Hrest].
  destruct item as [b|n|s|arr fields|]; try discriminate.
  cbn [index item_well_typed].
  destruct (lua_type_eqb (type_of (assoc "game_id" fields)) TNumber); [|reflexivity].
  destruct (lua_type_eqb (type_of (assoc "game_name" fields)) TString); [|reflexivity].
  destruct (lua_type_eqb (type_of (assoc "comp_all_count" fields)) TNumber); [|reflexivity].
  exact (IH Hrest).
Qed.

(** The checks return nil as soon as one element of an array of tables is
    not well typed. *)
Lemma check_search_response_ill_typed (data : value) (items : list value)
    (fields : list (string * value)) :
  index data "data" = Ret (Some (VTable items fields)) ->
  forallb is_table items = true ->
  forallb item_well_typed items = false ->
  check_search_response data = Ret None.
Proof.
  intros Hd Ht Hty. unfold check_search_response, and_then. rewrite Hd.
  rewrite (validate_items_tables _ Ht), Hty.
  destruct items as [|[b|n|s|arr fs|] rest]; try discriminate; reflexivity.
Qed.

(** The block that logs the fields of the first result is a runtime error
    when the first element is not a table. *)
Lemma check_search_response_first_not_table (data first : value) (rest : list value)
    (fields : list (string * value)) :
  index data "data" = Ret (Some (VTable (first :: rest) fields)) ->
  is_table first = false ->
  check_search_response data = Raise (BadArgument "pairs" (type_of (Some first))).
Proof.
  intros Hd Ht. unfold check_search_response, and_then. rewrite Hd.
  destruct first; try discriminate; reflexivity.
Qed.

Lemma check_search_response_well_typed (data : value) (items : list value)
    (fields : list (string * value)) :
  index data "data" = Ret (Some (VTable items fields)) ->
  forallb item_well_typed items = true ->
  check_search_response data = Ret (Some data).
Proof.
  intros Hd Hty. unfold check_search_response, and_then. rewrite Hd.
  rewrite (well_typed_validate_items items Hty).
  destruct items as [|first rest]; [reflexivity|].
  simpl in Hty. apply andb_true_iff in Hty as [Hf _].
  destruct first; try discriminate. reflexivity.
Qed.

Section SearchValidation.

Variable env : Env.

Lemma search_on_response (query : string) (options : option SearchOptions)
    (w w' : World) (data : value) :
  search_receives env query options w data w' ->
  search env query options w = (check_search_response data, w').
Proof.
  intros [tok [err [w1 [u [w2 [response [Ht [Htr [Hu [Hp [Hst [Hdec ->]]]]]]]]]]]].
  unfold search.
  rewrite (bind_ret_run _ _ _ _ _ Ht). cbn [fst]. rewrite Htr. cbn [negb].
  rewrite (bind_ret_run _ _ _ _ _ Hu).
  unfold bind, http_request_m, lift. rewrite Hp, Hst, Hdec. reflexivity.
Qed.

End SearchValidation.

(** C7 fails on the code.  When the search response decodes to an object
    whose [data] field is an array, [search] returns the whole response if
    every element is a table with a number as [game_id], a string as
    [game_name] and a number as [comp_all_count], in particular for an empty
    array, and it returns nil for the whole response as soon as one element of
    an array of tables is not.  But an element that is not a table at all is
    not answered with nil: as first element it is passed to [pairs], as later
    element it is indexed by the type checks ([item.game_id] on a number),
    both runtime errors that abort [search].  Besides, the checks ask for
    numbers, not integers: the id 3/2 passes. *)
Theorem search_validation_aborts_on_unindexable_element :
  (forall env query options w w' data items fields,
     search_receives env query options w data w' ->
     index data "data" = Ret (Some (VTable items fields)) ->
     (forallb item_well_typed items = true ->
        search env query options w = (Ret (Some data), w')) /\
     (items = [] -> search env query options w = (Ret (Some data), w')) /\
     (forallb is_table items = true -> forallb item_well_typed items = false ->
        search env query options w = (Ret None, w')) /\
     (forall first rest, items = first :: rest -> is_table first = false ->
        search env query options w
        = (Raise (BadArgument "pairs" (type_of (Some first))), w'))) /\
  (let run items :=
     fst (search (search_env (results_of items)) "Dark" None initial_world) in
   run [dark_souls; num 5] = Raise (AttemptToIndex TNumber) /\
   run [num 5] = Raise (BadArgument "pairs" TNumber) /\
   run [dark_souls; unnamed_item] = Ret None /\
   run [dark_souls; VStr "Dark Souls II"] = Ret None /\
   run [] = Ret (Some (results_of [])) /\
   run [dark_souls; dark_souls_2] = Ret (Some (results_of [dark_souls; dark_souls_2])) /\
   has_integer_id fractional_item = false /\
   run [fractional_item] = Ret (Some (results_of [fractional_item]))).
Proof.
  split; [|cbn zeta; repeat split; vm_compute; reflexivity].
  intros env query options w w' data items fields Hr Hd.
  rewrite (search_on_response env _ _ _ _ _ Hr).
  split; [|split; [|split]].
  - intros Hty. rewrite (check_search_response_well_typed _ _ _ Hd Hty). reflexivity.
  - intros ->. rewrite (check_search_response_well_typed _ _ _ Hd eq_refl). reflexivity.
  - intros Ht Hty. rewrite (check_search_response_ill_typed _ _ _ Hd Ht Hty). reflexivity.
  - intros first rest -> Ht.
    rewrite (check_search_response_first_not_table _ _ _ _ Hd Ht). reflexivity.
Qed.

(** ** Ranking *)

Lemma num_eqb_eq (a b : number) : num_eqb a b = true <-> a = b.
Proof.
  unfold num_eqb. rewrite Qeq_bool_iff. split.
  - apply Qc_is_canon.
  - intros ->. reflexivity.
Qed.

Lemma num_ltb_lt (a b : number) : num_ltb a b = true <-> (a < b)%Qc.
Proof.
  unfold num_ltb, Qclt. rewrite negb_true_iff.
  split.
  - intros H. apply Qnot_le_lt. intros Hle. apply Qle_bool_iff in Hle. congruence.
  - intros H. destruct (Qle_bool b a) eqn:E; [|reflexivity].
    apply Qle_bool_iff in E. exfalso. apply (Qlt_not_le _ _ H E).
Qed.

(** The order function in terms of the rationals behind the two keys. *)
Lemma choice_before_Q (a b : choice) :
  choice_before a b = true <->
  (distance a < distance b)%Q \/
  (distance a == distance b /\ comp_all_count b < comp_all_count a)%Q.
Proof.
  unfold choice_before.
  destruct (num_eqb (distance a) (distance b)) eqn:E.
  - apply num_eqb_eq in E. rewrite num_ltb_lt. unfold Qclt. rewrite E.
    split; [intros H; right; split; [reflexivity|exact H]|].
    intros [H|[_ H]]; [exfalso; apply (Qlt_irrefl _ H)|exact H].
  - rewrite num_ltb_lt. unfold Qclt.
    split; [intros H; left; exact H|].
    intros [H|[H _]]; [exact H|].
    apply Qc_is_canon in H. apply num_eqb_eq in H. congruence.
Qed.

Lemma choice_before_false_Q (a b : choice) :
  choice_before a b = false <->
  ~ ((distance a < distance b)%Q \/
     (distance a == distance b /\ comp_all_count b < comp_all_count a)%Q).
Proof.
  rewrite <- choice_before_Q. destruct (choice_before a b); split; congruence.
Qed.

Lemma key_before_Q (a b : choice) :
  key_before a b <->
  (distance a < distance b)%Q \/
  (distance a == distance b /\ comp_all_count b < comp_all_count a)%Q.
Proof.
  unfold key_before, Qclt. split.
  - intros [H|[H1 H2]]; [left; exact H|right; split; [rewrite H1; reflexivity|exact H2]].
  - intros [H|[H1 H2]]; [left; exact H|right; split; [apply Qc_is_canon; exact H1|exact H2]].
Qed.

Lemma choice_before_key (a b : choice) :
  choice_before a b = true <-> key_before a b.
Proof. rewrite choice_before_Q, key_before_Q. reflexivity. Qed.

(** The order function is a strict weak order: [table.sort] accepts it. *)
Lemma choice_before_strict_weak_order : strict_weak_order choice_before.
Proof.
  split; [|split].
  - intros a. apply choice_before_false_Q. lra.
  - intros a b c. rewrite !choice_before_Q. lra.
  - intros a b c. rewrite !choice_before_false_Q. lra.
Qed.

(** Two candidates are ordered by the formula one way or the other, or tie. *)
Lemma key_trichotomy (a b : choice) :
  key_before a b \/ key_before b a \/ key_tie a b.
Proof.
  unfold key_before, key_tie.
  destruct (Qc_dec (distance a) (distance b)) as [[H|H]|H]; auto.
  destruct (Qc_dec (comp_all_count a) (comp_all_count b)) as [[H'|H']|H']; auto.
Qed.

(** *** Insertion sort meets the contract of [table.sort] *)

Section InsertionSort.

Variable A : Type.
Variable lt : A -> A -> bool.
Hypothesis lt_swo : strict_weak_order lt.

Lemma lt_asym (a b : A) : lt a b = true -> lt b a = false.
Proof.
  destruct lt_swo as [Hirr [Htr _]]. intros H.
  destruct (lt b a) eqn:E; [|reflexivity].
  rewrite <- (Hirr a). symmetry. eapply Htr; eauto.
Qed.

Lemma insert_by_perm (x : A) (l : list A) : Permutation (x :: l) (insert_by lt x l).
Proof.
  induction l as [|y l IH]; simpl; [reflexivity|].
  destruct (lt y x); [|reflexivity].
  rewrite perm_swap. constructor. exact IH.
Qed.

Lemma insertion_sort_perm (l : list A) : Permutation l (insertion_sort A lt l).
Proof.
  induction l as [|x l IH]; simpl; [constructor|].
  rewrite <- insert_by_perm. constructor. exact IH.
Qed.

Lemma insert_by_sorted (x : A) (l : list A) :
  StronglySorted (not_after lt) l -> StronglySorted (not_after lt) (insert_by lt x l).
Proof.
  destruct lt_swo as [Hirr [Htr Hneg]].
  induction 1 as [|y l Hs IH Hall]; simpl.
  - repeat constructor.
  - destruct (lt y x) eqn:E.
    + constructor; [exact IH|].
      apply (Permutation_Forall (insert_by_perm x l)).
      constructor; [apply lt_asym; exact E|exact Hall].
    + constructor; [constructor; assumption|].
      constructor; [exact E|].
      eapply Forall_impl; [|exact Hall].
      intros z Hz. unfold not_after in *. eapply Hneg; eauto.
Qed.

Lemma insertion_sort_sorted (l : list A) :
  StronglySorted (not_after lt) (insertion_sort A lt l).
Proof.
  induction l as [|x l IH]; simpl; [constructor|].
  apply insert_by_sorted. exact IH.
Qed.

Lemma sorted_ordered_by (l : list A) :
  StronglySorted (not_after lt) l -> ordered_by lt l.
Proof.
  induction 1 as [|y l Hs IH Hall]; intros i j a b Hij Ha Hb.
  - destruct i; discriminate.
  - destruct j as [|j]; [lia|]. simpl in Hb.
    destruct i as [|i]; simpl in Ha.
    + inversion Ha; subst y.
      apply nth_error_In in Hb.
      rewrite Forall_forall in Hall. apply Hall. exact Hb.
    + apply (IH i j); auto. lia.
Qed.

End InsertionSort.

Lemma insertion_sort_sorts : sorts insertion_sort.
Proof.
  intros A lt l Hswo. split.
  - apply insertion_sort_perm.
  - apply (sorted_ordered_by A lt). apply insertion_sort_sorted. exact Hswo.
Qed.

Section Ranking.

Variable env : Env.

(** The choices are built from the search results in order, one for each. *)
Lemma build_choices_spec (norm : string) (items : list value) (w w' : World)
    (choices : list choice) :
  build_choices env norm items w = (Ret choices, w') ->
  Forall2 (choice_of env norm) items choices.
Proof.
  revert w w' choices. induction items as [|element rest IH]; intros w w' choices H.
  - inversion H; subst. constructor.
  - cbn [build_choices] in H. unfold bind at 1 in H. unfold lift at 1 in H.
    unfold normalized_name in H.
    destruct (index element "game_name") as [game_name|e] eqn:Hn; [|discriminate].
    destruct game_name as [[b|n|s|a f|]|]; try discriminate.
    cbn [string_argument] in H.
    unfold bind at 1 in H. unfold levenshtein_distance_m at 1 in H.
    unfold bind at 1 in H. unfold lift at 1 in H.
    destruct (index element "comp_all_count") as [count|e] eqn:Hc; [|discriminate].
    unfold bind at 1 in H. unfold lift at 1 in H.
    destruct count as [[b|n|s'|a f|]|]; try discriminate.
    cbn [number_operand] in H.
    unfold bind at 1 in H.
    destruct (build_choices env norm rest
                (add_event (EvLevenshtein norm (normalize env s)) w))
      as [[choices'|e] w1] eqn:Hrest; [|discriminate].
    unfold ret in H. inversion H; subst.
    constructor.
    + repeat split; eauto.
    + eapply IH; eauto.
Qed.

(** C2, amended: the ranking is a strict weak order on the pair (distance,
    popularity).  The order function holds of (a, b) exactly when a has the
    smaller distance, or the same distance and the greater popularity; the
    ranked list is a rearrangement of the choices in which such an a stands
    before b, and a candidate standing before another either satisfies the
    formula or ties with it on both keys: the order among tied candidates is
    left open.  Each choice carries the edit distance between the normalized
    names and the [comp_all_count] of its search result. *)
Theorem ranking_respects_keys (choices : list choice) :
  sorts (table_sort env) ->
  (forall a b, choice_before a b = true <-> key_before a b) /\
  Permutation choices (rank env choices) /\
  (forall i j a b,
     nth_error (rank env choices) i = Some a ->
     nth_error (rank env choices) j = Some b ->
     (key_before a b -> (i < j)%nat) /\
     ((i < j)%nat -> key_before a b \/ key_tie a b)) /\
  (forall norm items w w',
     build_choices env norm items w = (Ret choices, w') ->
     Forall2 (choice_of env norm) items choices).
Proof.
  intros Hsort.
  destruct (Hsort choice choice_before choices choice_before_strict_weak_order)
    as [Hperm Hord].
  split; [apply choice_before_key|]. split; [exact Hperm|].
  split; [|intros norm items w w'; apply build_choices_spec].
  intros i j a b Ha Hb. fold (rank env choices) in Hord. split.
  - intros Hk. apply choice_before_key in Hk.
    destruct (Nat.lt_trichotomy i j) as [Hlt|[Heq|Hgt]]; [exact Hlt| |].
    + subst j. rewrite Ha in Hb. inversion Hb; subst b.
      destruct choice_before_strict_weak_order as [Hirr _].
      rewrite Hirr in Hk. discriminate.
    + rewrite (Hord j i b a Hgt Hb Ha) in Hk. discriminate.
  - intros Hlt.
    destruct (key_trichotomy a b) as [H|[H|H]]; auto.
    apply choice_before_key in H.
    rewrite (Hord i j a b Hlt Ha Hb) in H. discriminate.
Qed.

End Ranking.

(** C2 as stated fails: two distinct candidates at the same distance and
    with the same popularity are ranked one before the other, although the
    formula holds in neither direction. *)
Lemma tied_candidates_not_ordered : ~ ranking_is_total_order.
Proof.
  intros Hclaim.
  specialize (Hclaim (example_env [] (HttpFail None) [] (fun _ => 0))
                insertion_sort_sorts [tie_a; tie_b] tie_a tie_b).
  assert (Hr : rank (example_env [] (HttpFail None) [] (fun _ => 0)) [tie_a; tie_b]
               = [tie_a; tie_b]) by reflexivity.
  rewrite Hr in Hclaim.
  destruct Hclaim as [Hclaim _]; [left; reflexivity|right; left; reflexivity|].
  assert (Hk : key_before tie_a tie_b).
  { apply Hclaim. exists 0%nat, 1%nat. repeat split. lia. }
  apply key_before_Q in Hk. simpl in Hk. lra.
Qed.

(** ** Endpoint discovery *)

(** The loop over the paths of one bundle examines the first occurrences of
    the endpoint names among its candidates.  If it returns an endpoint, that
    is the first accepted one, whatever candidates come after the bundle; if
    not, none of them is accepted and the search goes on among the later
    candidates with the names seen so far. *)
Lemma scan_api_paths_spec (content : string) (api_paths found : list string)
    (more : list candidate) :
  let cs := flat_map
              (fun api_path =>
                 match str_match endpoint_pattern api_path with
                 | Some e => [{| bundle := content; path := api_path; endpoint := e |}]
                 | None => []
                 end) api_paths in
  match scan_api_paths content api_paths found with
  | (Some url, _) =>
      exists c, find accepted (first_occurrences found (cs ++ more)%list) = Some c /\
                bundle c = content /\ url = api_of c
  | (None, found') =>
      find accepted (first_occurrences found (cs ++ more)%list)
      = find accepted (first_occurrences found' more)
  end.
Proof.
  revert found. induction api_paths as [|api_path rest IH]; intros found; cbn zeta.
  - reflexivity.
  - cbn [scan_api_paths flat_map].
    destruct (str_match endpoint_pattern api_path) as [e|] eqn:He.
    2: { cbn [app]. apply IH. }
    cbn [app first_occurrences endpoint].
    destruct (mem e found) eqn:Hm; cbn [negb].
    { apply IH. }
    cbn [find].
    change (accepted {| bundle := content; path := api_path; endpoint := e |})
      with (negb (mem e SKIP_ENDPOINTS) && str_find (post_pattern api_path) content).
    destruct (mem e SKIP_ENDPOINTS) eqn:Hs; cbn [negb andb].
    { apply IH. }
    destruct (str_find (post_pattern api_path) content) eqn:Hp.
    + eexists. split; [reflexivity|]. split; reflexivity.
    + apply IH.
Qed.

Section Discovery.

Variable env : Env.

(** The loop over the scripts requests a prefix of them, in order, and
    returns the first accepted candidate among the first occurrences of the
    endpoint names in the bundles delivered; the last bundle requested is the
    one that holds that candidate, or the last of all when there is none. *)
Lemma scan_scripts_spec (script_urls found : list string) (w : World) :
  let bundles := fetched_bundles env script_urls (log w) in
  exists k w',
    scan_scripts env script_urls found w
      = (Ret (option_map api_of (discovered found bundles)), w') /\
    w' = prepend_events (script_gets k script_urls) w /\
    match discovered found bundles with
    | Some c => exists i, k = S i /\ nth_error bundles i = Some (Some (bundle c))
    | None => k = List.length script_urls
    end.
Proof.
  revert found w. induction script_urls as [|src rest IH]; intros found w; cbn zeta.
  - exists 0%nat, w. split; [reflexivity|]. split; [destruct w; reflexivity|reflexivity].
  - cbn [scan_scripts fetched_bundles]. unfold bind at 1. unfold http_get_m at 1.
    unfold discovered. cbn [all_candidates flat_map].
    (* the continuation on a bundle that yields nothing *)
    assert (Hskip : forall found',
      find accepted (first_occurrences found
        ((match bundle_body (http_get env (log w) (script_url src)) with
          | Some c => candidates_of c | None => [] end)
         ++ all_candidates (fetched_bundles env rest (EvGet (script_url src) :: log w)))%list)
      = find accepted (first_occurrences found'
          (all_candidates (fetched_bundles env rest (EvGet (script_url src) :: log w)))) ->
      exists k w',
        scan_scripts env rest found' (add_event (EvGet (script_url src)) w)
          = (Ret (option_map api_of
               (find accepted (first_occurrences found
                  ((match bundle_body (http_get env (log w) (script_url src)) with
                    | Some c => candidates_of c | None => [] end)
                   ++ all_candidates
                        (fetched_bundles env rest (EvGet (script_url src) :: log w)))%list))),
             w') /\
        w' = prepend_events (script_gets k (src :: rest)) w /\
        match find accepted (first_occurrences found
                 ((match bundle_body (http_get env (log w) (script_url src)) with
                   | Some c => candidates_of c | None => [] end)
                  ++ all_candidates
                       (fetched_bundles env rest (EvGet (script_url src) :: log w)))%list) with
        | Some c =>
            exists i, k = S i /\
              nth_error (bundle_body (http_get env (log w) (script_url src))
                         :: fetched_bundles env rest (EvGet (script_url src) :: log w)) i
              = Some (Some (bundle c))
        | None => k = List.length (src :: rest)
        end).
    { intros found' Heq. rewrite Heq. clear Heq.
      destruct (IH found' (add_event (EvGet (script_url src)) w)) as [k [w' [Hrun [Hw Hk]]]].
      cbn [log add_event] in Hrun, Hk. unfold discovered in Hrun, Hk.
      exists (S k), w'. split; [exact Hrun|]. split.
      - rewrite Hw. unfold script_gets, prepend_events.
        cbn [firstn map rev add_event log
          cached_token cached_search_url cached_build_id cached_homepage token_expires_at].
        rewrite <- app_assoc. reflexivity.
      - destruct (find accepted _) as [c|].
        + destruct Hk as [i [-> Hi]]. exists (S i). split; [reflexivity|exact Hi].
        + cbn [List.length]. congruence. }
    destruct (http_get env (log w) (script_url src)) as [[st [content|]]|err];
      cbn [bundle_body] in Hskip |- *; try (apply Hskip; reflexivity).
    destruct (st =? 200); [|apply Hskip; reflexivity].
    pose proof (scan_api_paths_spec content (gmatch api_path_pattern content) found
                  (all_candidates (fetched_bundles env rest (EvGet (script_url src) :: log w))))
      as Hscan.
    cbn zeta in Hscan. fold (candidates_of content) in Hscan.
    unfold all_candidates in Hscan.
    destruct (scan_api_paths content (gmatch api_path_pattern content) found)
      as [[url|] found'].
    + destruct Hscan as [c [Hfind [Hb ->]]]. rewrite Hfind.
      exists 1%nat. eexists. split; [reflexivity|]. split.
      * reflexivity.
      * exists 0%nat. split; [reflexivity|]. cbn [nth_error]. rewrite Hb. reflexivity.
    + apply Hskip. exact Hscan.
Qed.

Lemma first_occurrences_incl (found : list string) (cs : list candidate) (c : candidate) :
  In c (first_occurrences found cs) -> In c cs.
Proof.
  revert found. induction cs as [|x cs IH]; intros found; cbn [first_occurrences].
  - auto.
  - destruct (mem (endpoint x) found).
    + intros H. right. eapply IH; eauto.
    + intros [H|H]; [left; exact H|right; eapply IH; eauto].
Qed.

Lemma candidates_of_path (content : string) (c : candidate) :
  In c (candidates_of content) ->
  bundle c = content /\ In (path c) (gmatch api_path_pattern content) /\
  str_match endpoint_pattern (path c) = Some (endpoint c).
Proof.
  unfold candidates_of. rewrite in_flat_map. intros [api_path [Hin Hc]].
  destruct (str_match endpoint_pattern api_path) as [e|] eqn:He; [|destruct Hc].
  destruct Hc as [<-|[]]. cbn. auto.
Qed.

Lemma all_candidates_bundle (bundles : list (option string)) (c : candidate) :
  In c (all_candidates bundles) ->
  In (Some (bundle c)) bundles /\ In c (candidates_of (bundle c)).
Proof.
  unfold all_candidates. rewrite in_flat_map. intros [[content|] [Hin Hc]]; [|destruct Hc].
  destruct (candidates_of_path content c Hc) as [Hb _]. rewrite Hb. auto.
Qed.

(** The endpoint the scan returns was found acceptable in its own bundle. *)
Lemma discovered_accepted (found : list string) (bundles : list (option string))
    (c : candidate) :
  discovered found bundles = Some c ->
  In (Some (bundle c)) bundles /\
  In (path c) (gmatch api_path_pattern (bundle c)) /\
  str_match endpoint_pattern (path c) = Some (endpoint c) /\
  mem (endpoint c) SKIP_ENDPOINTS = false /\
  str_find (post_pattern (path c)) (bundle c) = true.
Proof.
  unfold discovered. intros H. apply find_some in H as [Hin Hacc].
  apply first_occurrences_incl in Hin. apply all_candidates_bundle in Hin as [Hb Hc].
  apply candidates_of_path in Hc as [_ [Hp He]].
  unfold accepted in Hacc. apply andb_true_iff in Hacc as [Hs Hpost].
  apply negb_true_iff in Hs. auto.
Qed.

(** What the discovery computes.  With no cached search URL,
    [get_search_url] fetches the homepage; if that fails it settles on the
    static fallback.  Otherwise it
    requests the chunk bundles in homepage order; a bundle whose request fails
    contributes no candidate and the scan goes on.  Every quoted [/api/] path
    is a candidate; a candidate is examined only if its endpoint name has not
    occurred earlier in the scan, in this bundle or a previous one, and is
    accepted only if it is not on the skip list and its own bundle contains a
    POST fetch of its path.  The first candidate accepted is returned and its
    bundle is the last one requested; if none is accepted, every bundle has
    been requested and the static fallback is used. *)
Lemma discovery_scans_first_occurrences (w : World) :
  cached_search_url w = None ->
  exists homepage w1,
    get_homepage env w = (Ret homepage, w1) /\
    match homepage with
    | None =>
        get_search_url env w = (Ret SEARCH_URL, set_search_url (Some SEARCH_URL) w1)
    | Some h =>
        let script_urls := gmatch chunk_pattern h in
        let bundles := fetched_bundles env script_urls (log w1) in
        exists k,
          let w2 := prepend_events (script_gets k script_urls) w1 in
          match discovered [] bundles with
          | Some c =>
              get_search_url env w
                = (Ret (BASE_URL ++ api_of c),
                   set_search_url (Some (BASE_URL ++ api_of c)) w2) /\
              (exists i, k = S i /\ nth_error bundles i = Some (Some (bundle c))) /\
              In (path c) (gmatch api_path_pattern (bundle c)) /\
              mem (endpoint c) SKIP_ENDPOINTS = false /\
              str_find (post_pattern (path c)) (bundle c) = true
          | None =>
              get_search_url env w
                = (Ret SEARCH_URL, set_search_url (Some SEARCH_URL) w2) /\
              k = List.length script_urls
          end
    end.
Proof.
  intros Hc.
  destruct (get_homepage_returns env w) as [homepage [w1 Hh]].
  exists homepage, w1. split; [exact Hh|].
  destruct homepage as [h|].
  2: { apply (get_search_url_uncached env w w1 None Hc).
       unfold extract_search_url. rewrite (bind_ret_run _ _ _ _ _ Hh). reflexivity. }
  cbn zeta.
  destruct (scan_scripts_spec (gmatch chunk_pattern h) [] w1) as [k [w2 [Hrun [Hw Hk]]]].
  cbn zeta in Hrun, Hk. exists k. subst w2.
  assert (Hex : extract_search_url env w
                = (Ret (option_map api_of
                     (discovered [] (fetched_bundles env (gmatch chunk_pattern h) (log w1)))),
                   prepend_events (script_gets k (gmatch chunk_pattern h)) w1)).
  { unfold extract_search_url. rewrite (bind_ret_run _ _ _ _ _ Hh). exact Hrun. }
  pose proof (get_search_url_uncached env w _ _ Hc Hex) as Hgs. cbn zeta in Hgs.
  destruct (discovered [] (fetched_bundles env (gmatch chunk_pattern h) (log w1)))
    as [c|] eqn:Hd.
  - destruct (discovered_accepted _ _ _ Hd) as [_ [Hp [_ [Hs Hpost]]]].
    split; [exact Hgs|]. auto.
  - split; [exact Hgs|exact Hk].
Qed.

End Discovery.

(** C4 fails on the code.  The homepage names two bundles and both are
    received.  The second posts to [/api/lookup], a path that is not on the
    skip list: it passes the check the discovery makes on each script, and it
    is the first verified match of the scan.  Yet the discovery settles on
    the static fallback, because the first bundle had mentioned the same
    endpoint without posting to it and the set of endpoints seen is kept from
    one script to the next.  The same mention and the same POST fetch are
    found when they stand in one bundle, and when the bundles come in the
    other order, where the scan stops after the first. *)
Theorem endpoint_posted_in_later_bundle_missed :
  let discovery env := get_search_url env initial_world in
  let bundles := fetched_bundles two_bundle_env
                   (gmatch chunk_pattern two_bundle_homepage)
                   [EvGet BASE_URL] in
  bundles = [Some bundle_a; Some bundle_b] /\
  log (snd (discovery two_bundle_env))
  = [EvGet (BASE_URL ++ "_next/static/chunks/b.js");
     EvGet (BASE_URL ++ "_next/static/chunks/a.js"); EvGet BASE_URL] /\
  gmatch api_path_pattern bundle_b = ["/api/lookup"] /\
  verified_in bundle_b "lookup" = true /\
  option_map api_of (first_verified bundles) = Some "api/lookup" /\
  fst (discovery two_bundle_env) = Ret SEARCH_URL /\
  SEARCH_URL <> BASE_URL ++ "api/lookup" /\
  fst (discovery one_bundle_env) = Ret (BASE_URL ++ "api/lookup") /\
  fst (discovery swapped_bundle_env) = Ret (BASE_URL ++ "api/lookup") /\
  log (snd (discovery swapped_bundle_env))
  = [EvGet (BASE_URL ++ "_next/static/chunks/a.js"); EvGet BASE_URL].
Proof.
  cbn zeta. repeat split; try (vm_compute; reflexivity).
  intros H. discriminate H.
Qed.

(** ** Confirmation by Steam id *)

Ltac count_events :=
  unfold detail_fetches, add_event, set_homepage, set_build_id; cbn; lia.

Lemma adds_ret {A} (a : A) : adds_detail_fetches 0 (ret a).
Proof. intros w r w' H. inversion H; subst. lia. Qed.

Lemma adds_lift {A} (x : result A) : adds_detail_fetches 0 (lift x).
Proof. intros w r w' H. inversion H; subst. lia. Qed.

Lemma adds_get_world : adds_detail_fetches 0 get_world.
Proof. intros w r w' H. inversion H; subst. lia. Qed.

Lemma adds_bind {A B} (n k : nat) (m : M A) (f : A -> M B) :
  adds_detail_fetches n m -> (forall a, adds_detail_fetches k (f a)) ->
  (k = 0%nat \/ forall w e w', m w <> (Raise e, w')) ->
  adds_detail_fetches (n + k) (bind m f).
Proof.
  intros Hm Hf Hr w r w' H. unfold bind in H.
  destruct (m w) as [[a|e] w1] eqn:Em.
  - rewrite (Hf a _ _ _ H), (Hm _ _ _ Em). lia.
  - inversion H; subst. rewrite (Hm _ _ _ Em).
    destruct Hr as [-> | Hr]; [lia|]. exfalso. eapply Hr; eauto.
Qed.

Lemma adds_bind0 {A B} (n : nat) (m : M A) (f : A -> M B) :
  adds_detail_fetches n m -> (forall a, adds_detail_fetches 0 (f a)) ->
  adds_detail_fetches n (bind m f).
Proof.
  intros Hm Hf. replace n with (n + 0)%nat by lia.
  apply adds_bind; auto.
Qed.

Section Confirmation.

Variable env : Env.

Lemma adds_http_get (url : string) : adds_detail_fetches 0 (http_get_m env url).
Proof. intros w r w' H. inversion H; subst. count_events. Qed.

Lemma adds_get_homepage : adds_detail_fetches 0 (get_homepage env).
Proof.
  unfold get_homepage. apply adds_bind0; [apply adds_get_world|]. intros w.
  destruct (cached_homepage w); [apply adds_ret|].
  apply adds_bind0; [apply adds_http_get|]. intros [response|err]; [|apply adds_ret].
  destruct (negb (status response =? 200)); [apply adds_ret|].
  apply adds_bind0; [|intros; apply adds_ret].
  intros w0 r w' H. inversion H; subst. count_events.
Qed.

Lemma adds_extract_build_id : adds_detail_fetches 0 (extract_build_id env).
Proof.
  unfold extract_build_id. apply adds_bind0; [apply adds_get_world|]. intros w.
  destruct (cached_build_id w); [apply adds_ret|].
  apply adds_bind0; [apply adds_get_homepage|]. intros [homepage|]; [|apply adds_ret].
  destruct (match str_match ssg_manifest_pattern homepage with
            | Some b => Some b
            | None => str_match build_manifest_pattern homepage
            end); [|apply adds_ret].
  apply adds_bind0; [|intros; apply adds_ret].
  intros w0 r w' H. inversion H; subst. count_events.
Qed.

(** Every call of [fetch_game_data] is logged once, whatever its outcome. *)
Lemma adds_fetch_game_data (game_id : option value) :
  adds_detail_fetches 1 (fetch_game_data env game_id).
Proof.
  unfold fetch_game_data.
  change 1%nat with (1 + 0)%nat. apply adds_bind; [| |left; reflexivity].
  { intros w r w' H. inversion H; subst. count_events. }
  intros _. apply adds_bind0; [apply adds_extract_build_id|].
  intros [build_id|]; [|apply adds_ret].
  apply adds_bind0; [apply adds_lift|]. intros id.
  apply adds_bind0; [apply adds_http_get|]. intros [response|err]; [|apply adds_ret].
  destruct (negb (status response =? 200)); [apply adds_ret|].
  destruct (decode_body env (body response)); [apply adds_lift|apply adds_ret].
Qed.

Lemma adds_build_choices (norm : string) (items : list value) :
  adds_detail_fetches 0 (build_choices env norm items).
Proof.
  induction items as [|element rest IH]; cbn [build_choices]; [apply adds_ret|].
  apply adds_bind0; [apply adds_lift|]. intros n.
  apply adds_bind0. { intros w r w' H. inversion H; subst. count_events. }
  intros d. apply adds_bind0; [apply adds_lift|]. intros c.
  apply adds_bind0; [apply adds_lift|]. intros c'.
  apply adds_bind0; [exact IH|]. intros; apply adds_ret.
Qed.

(** One step of the confirmation loop: a detail fetch that returns nil, or a
    record with another Steam id, passes on to the next candidate; a record
    with the Steam id asked for ends the loop with this candidate's search
    item, in the world the fetch left; a detail fetch aborted by a runtime
    error aborts the loop. *)
Lemma steam_id_checks_step (steam_app_id : number) (candidate : choice)
    (rest : list choice) (w : World) (game_id : option value) :
  index (item candidate) "game_id" = Ret game_id ->
  match fetch_game_data env game_id w with
  | (Ret None, w1) =>
      steam_id_checks env steam_app_id (candidate :: rest) w
      = steam_id_checks env steam_app_id rest w1
  | (Ret (Some game_data), w1) =>
      match index game_data "profile_steam" with
      | Ret profile_steam =>
          if equals_number profile_steam steam_app_id
          then steam_id_checks env steam_app_id (candidate :: rest) w
               = (Ret (Some (item candidate)), w1)
          else steam_id_checks env steam_app_id (candidate :: rest) w
               = steam_id_checks env steam_app_id rest w1
      | Raise e =>
          steam_id_checks env steam_app_id (candidate :: rest) w = (Raise e, w1)
      end
  | (Raise e, w1) =>
      steam_id_checks env steam_app_id (candidate :: rest) w = (Raise e, w1)
  end.
Proof.
  intros Hid.
  assert (Heq : steam_id_checks env steam_app_id (candidate :: rest) w =
    match fetch_game_data env game_id w with
    | (Ret (Some game_data), w1) =>
        match index game_data "profile_steam" with
        | Ret profile_steam =>
            if equals_number profile_steam steam_app_id
            then (Ret (Some (item candidate)), w1)
            else steam_id_checks env steam_app_id rest w1
        | Raise e => (Raise e, w1)
        end
    | (Ret None, w1) => steam_id_checks env steam_app_id rest w1
    | (Raise e, w1) => (Raise e, w1)
    end).
  { cbn [steam_id_checks]. unfold bind, lift, ret. rewrite Hid.
    destruct (fetch_game_data env game_id w) as [[[game_data|]|e] w1]; try reflexivity.
    destruct (index game_data "profile_steam") as [ps|e]; [|reflexivity].
    destruct (equals_number ps steam_app_id); reflexivity. }
  rewrite Heq.
  destruct (fetch_game_data env game_id w) as [[[game_data|]|e] w1]; try reflexivity.
  destruct (index game_data "profile_steam") as [ps|e]; [|reflexivity].
  destruct (equals_number ps steam_app_id); reflexivity.
Qed.

(** The loop calls [fetch_game_data] at most once for each candidate. *)
Lemma steam_id_checks_bound (steam_app_id : number) (candidates : list choice)
    (w w' : World) (r : result (option value)) :
  steam_id_checks env steam_app_id candidates w = (r, w') ->
  (detail_fetches (log w') <= detail_fetches (log w) + List.length candidates)%nat.
Proof.
  revert w. induction candidates as [|candidate rest IH]; intros w H.
  - inversion H; subst. count_events.
  - cbn [steam_id_checks] in H. unfold bind at 1 in H. unfold lift at 1 in H.
    destruct (index (item candidate) "game_id") as [game_id|e].
    2: { inversion H; subst. count_events. }
    unfold bind at 1 in H.
    destruct (fetch_game_data env game_id w) as [[[game_data|]|e] w1] eqn:Hf;
      pose proof (adds_fetch_game_data game_id _ _ _ Hf) as Hn; cbn [List.length].
    + unfold bind at 1 in H. unfold lift at 1 in H.
      destruct (index game_data "profile_steam") as [ps|e].
      2: { inversion H; subst. lia. }
      destruct (equals_number ps steam_app_id).
      * inversion H; subst. lia.
      * apply IH in H. lia.
    + apply IH in H. lia.
    + inversion H; subst. lia.
Qed.

(** The part of [search_best_match] after the exact-name loop calls
    [fetch_game_data] at most three times, and not at all without a Steam
    id. *)
Lemma closest_match_bound (norm : string) (steam_app_id : option number)
    (items : list value) (w w' : World) (r : result (option value)) :
  closest_match env norm steam_app_id items w = (r, w') ->
  (detail_fetches (log w') <= detail_fetches (log w) + 3)%nat /\
  (steam_app_id = None -> detail_fetches (log w') = detail_fetches (log w)).
Proof.
  unfold closest_match. intros H. unfold bind at 1 in H.
  destruct (build_choices env norm items w) as [[choices|e] w1] eqn:Hb;
    pose proof (adds_build_choices norm items _ _ _ Hb) as Hn.
  2: { inversion H; subst. split; [lia|intros; lia]. }
  unfold bind at 1 in H.
  destruct steam_app_id as [sid|].
  - split; [|discriminate].
    destruct (rank env choices) as [|best others] eqn:Hr.
    + cbn in H. inversion H; subst. lia.
    + destruct (steam_id_checks env sid (firstn max_steam_id_checks (best :: others)) w1)
        as [[confirmed|e] w2] eqn:Hs;
        pose proof (steam_id_checks_bound _ _ _ _ _ Hs) as Hk;
        pose proof (firstn_le_length max_steam_id_checks (best :: others)) as Hl;
        unfold max_steam_id_checks in *.
      * destruct confirmed; inversion H; subst; lia.
      * inversion H; subst; lia.
  - split; [|intros _].
    all: destruct (rank env choices); cbn in H; inversion H; subst; lia.
Qed.

Lemma adds_get_auth_token (force_refresh : bool) :
  adds_detail_fetches 0 (get_auth_token env force_refresh).
Proof.
  unfold get_auth_token.
  apply adds_bind0. { intros w r w' H. inversion H; subst. count_events. }
  intros now. apply adds_bind0; [apply adds_get_world|]. intros w.
  destruct (negb force_refresh && truthy (cached_token w) && (now <? token_expires_at w));
    [apply adds_ret|].
  apply adds_bind0; [apply adds_http_get|]. intros [response|err]; [|apply adds_ret].
  destruct (negb (status response =? 200)); [apply adds_ret|].
  destruct (decode_body env (body response)) as [data|]; [|apply adds_ret].
  apply adds_bind0; [apply adds_lift|]. intros token.
  destruct (negb (truthy token)); [apply adds_ret|].
  apply adds_bind0; [|intros; apply adds_ret].
  intros w0 r w' H. inversion H; subst. unfold detail_fetches, set_token; cbn; lia.
Qed.

Lemma adds_scan_scripts (script_urls found : list string) :
  adds_detail_fetches 0 (scan_scripts env script_urls found).
Proof.
  revert found. induction script_urls as [|src rest IH]; intros found;
    cbn [scan_scripts]; [apply adds_ret|].
  apply adds_bind0; [apply adds_http_get|].
  intros [[st [content|]]|err]; try apply IH.
  destruct (st =? 200); [|apply IH].
  destruct (scan_api_paths content (gmatch api_path_pattern content) found) as [[url|] found'];
    [apply adds_ret|apply IH].
Qed.

Lemma adds_get_search_url : adds_detail_fetches 0 (get_search_url env).
Proof.
  unfold get_search_url. apply adds_bind0; [apply adds_get_world|]. intros w.
  destruct (cached_search_url w); [apply adds_ret|].
  apply adds_bind0.
  - unfold extract_search_url. apply adds_bind0; [apply adds_get_homepage|].
    intros [homepage|]; [apply adds_scan_scripts|apply adds_ret].
  - intros [search_url|]; (apply adds_bind0; [|intros; apply adds_ret]);
      intros w0 r w' H; inversion H; subst; unfold detail_fetches, set_search_url; cbn; lia.
Qed.

Lemma adds_search (query : string) (options : option SearchOptions) :
  adds_detail_fetches 0 (search env query options).
Proof.
  unfold search. apply adds_bind0; [apply adds_get_auth_token|]. intros tok.
  destruct (negb (truthy (fst tok))); [apply adds_ret|].
  apply adds_bind0; [apply adds_get_search_url|]. intros search_url.
  apply adds_bind0. { intros w r w' H. inversion H; subst. count_events. }
  intros [response|err]; [|apply adds_ret].
  destruct (negb (status response =? 200)); [apply adds_ret|].
  destruct (decode_body env (body response)); [apply adds_lift|apply adds_ret].
Qed.

(** A whole resolution calls [fetch_game_data] at most three times, and not
    at all without a Steam id. *)
Lemma search_best_match_bound (app_name : string) (steam_app_id : option number)
    (w w' : World) (r : result (option value)) :
  search_best_match env app_name steam_app_id w = (r, w') ->
  (detail_fetches (log w') <= detail_fetches (log w) + 3)%nat /\
  (steam_app_id = None -> detail_fetches (log w') = detail_fetches (log w)).
Proof.
  unfold search_best_match. intros H. unfold bind at 1 in H.
  destruct (search env app_name None w) as [[search_results|e] w1] eqn:Hs;
    pose proof (adds_search _ _ _ _ _ Hs) as Hn.
  2: { inversion H; subst. split; [lia|intros; lia]. }
  destruct search_results as [search_results|].
  2: { inversion H; subst. split; [lia|intros; lia]. }
  unfold bind at 1 in H. unfold lift at 1 in H.
  destruct (index search_results "data") as [results|e].
  2: { inversion H; subst. split; [lia|intros; lia]. }
  destruct results as [[b|n|s|items fields|]|];
    try (inversion H; subst; split; [lia|intros; lia]).
  destruct items as [|first others].
  { inversion H; subst. split; [lia|intros; lia]. }
  unfold bind at 1 in H. unfold lift at 1 in H.
  destruct (find_exact_match env (normalize env app_name) (first :: others)) as [[exact|]|e].
  - inversion H; subst. split; [lia|intros; lia].
  - apply closest_match_bound in H. destruct H as [H1 H2].
    split; [lia|]. intros Hnone. rewrite (H2 Hnone). lia.
  - inversion H; subst. split; [lia|intros; lia].
Qed.

(** Without an exact name match a resolution continues with the ranking of
    all search results. *)
Lemma search_best_match_without_exact_match (app_name : string)
    (steam_app_id : option number) (w w1 : World) (data : value)
    (first : value) (others : list value) (fields : list (string * value)) :
  search env app_name None w = (Ret (Some data), w1) ->
  index data "data" = Ret (Some (VTable (first :: others) fields)) ->
  (forall x, In x (first :: others) ->
     normalized_name env x <> Ret (normalize env app_name)) ->
  search_best_match env app_name steam_app_id w
  = closest_match env (normalize env app_name) steam_app_id (first :: others) w1.
Proof.
  intros Hs Hd Hne.
  destruct (search_returns_validated env _ _ _ _ _ Hs) as [items [fields' [Hd' Hv]]].
  rewrite Hd in Hd'. inversion Hd'; subst items fields'; clear Hd'.
  apply validate_items_well_typed in Hv.
  unfold search_best_match.
  rewrite (bind_ret_run _ _ _ _ _ Hs).
  unfold bind at 1. unfold lift at 1. rewrite Hd.
  unfold bind at 1. unfold lift at 1.
  rewrite (find_exact_match_none env _ _ Hv Hne). reflexivity.
Qed.

(** For validated search results the choices are built without error. *)
Lemma build_choices_returns (norm : string) (items : list value) (w : World) :
  forallb item_well_typed items = true ->
  exists choices w',
    build_choices env norm items w = (Ret choices, w') /\
    List.length choices = List.length items.
Proof.
  revert w. induction items as [|element rest IH]; intros w Hty.
  - exists [], w. split; reflexivity.
  - cbn [forallb] in Hty. apply andb_true_iff in Hty as [He Hrest].
    destruct (well_typed_normalized_name env element He) as [s [_ Hn]].
    destruct (well_typed_count element He) as [n Hc].
    cbn [build_choices]. unfold bind at 1. unfold lift at 1. rewrite Hn.
    unfold bind at 1. unfold levenshtein_distance_m at 1.
    unfold bind at 1. unfold lift at 1. rewrite Hc.
    unfold bind at 1. unfold lift at 1. cbn [number_operand].
    destruct (IH (add_event (EvLevenshtein norm (normalize env s)) w) Hrest)
      as [choices [w' [Hb Hl]]].
    unfold bind. rewrite Hb. eexists; eexists. split; [reflexivity|].
    cbn [List.length]. rewrite Hl. reflexivity.
Qed.

End Confirmation.

(** C3 fails on the code: the first candidate's detail page decodes to a
    game array whose single element is the number 5, not a table.  The field
    validation of [fetch_game_data] indexes that number, which is a runtime
    error; it aborts the whole resolution after one detail fetch.  The second
    candidate, whose detail page carries the Steam id asked for, is never
    tried, whereas it is returned when the first detail fetch fails by
    returning nil (an empty game array). *)
Lemma malformed_detail_aborts_resolution :
  let run first_detail :=
    search_best_match (detail_env first_detail) "Dark Souls 3"
      (Some steam_id_example) initial_world in
  fst (run (detail_page [num 5])) = Raise (AttemptToIndex TNumber) /\
  detail_fetches (log (snd (run (detail_page [num 5])))) = 1%nat /\
  fst (run (detail_page [])) = Ret (Some candidate_2) /\
  detail_fetches (log (snd (run (detail_page [])))) = 2%nat.
Proof.
  cbn zeta. repeat split; vm_compute; reflexivity.
Qed.

(** ** The theorems at work on examples *)

Lemma zero_results_not_found_witness :
  search_best_match (search_env (results_of [])) "No Such Game"
    (Some steam_id_example) initial_world
  = (Ret None, snd (search (search_env (results_of [])) "No Such Game" None initial_world)).
Proof.
  apply (zero_results_not_found (search_env (results_of [])) "No Such Game"
           (Some steam_id_example) initial_world _ (results_of []) []).
  - vm_compute. reflexivity.
  - reflexivity.
Defined.

Lemma exact_match_first_witness :
  search_best_match (search_env (results_of [dark_souls_2; dark_souls])) "dark souls"
    (Some steam_id_example) initial_world
  = (Ret (Some dark_souls),
     snd (search (search_env (results_of [dark_souls_2; dark_souls])) "dark souls"
            None initial_world)).
Proof.
  apply (exact_match_first (search_env (results_of [dark_souls_2; dark_souls]))
           "dark souls" (Some steam_id_example) initial_world _
           (results_of [dark_souls_2; dark_souls]) [] [dark_souls_2] [] dark_souls).
  - vm_compute. reflexivity.
  - reflexivity.
  - intros x [<-|[]]. vm_compute. discriminate.
  - vm_compute. reflexivity.
Defined.

Lemma token_cache_and_refresh_witness :
  get_auth_token (clock_env 299) false warm_world
    = (Ret (Some (VStr "t0"), None), add_event EvTime warm_world) /\
  (exists r w',
     get_auth_token (clock_env 300) false warm_world = (r, w') /\
     log w' = [EvGet (token_url (clock_env 300) 300); EvTime] /\
     (forall tok err, r = Ret (Some tok, err) ->
        cached_token w' = Some tok /\ token_expires_at w' = 300 + 300)).
Proof.
  split.
  - apply (proj1 (token_cache_and_refresh (clock_env 299) false warm_world));
      [reflexivity|reflexivity|vm_compute; reflexivity].
  - apply (proj2 (token_cache_and_refresh (clock_env 300) false warm_world)).
    right; left. vm_compute. discriminate.
Defined.

(** In [search_env], the search request is answered with the response the
    environment was built with. *)
Ltac search_env_receives results :=
  unfold search_receives;
  exists (Some (VStr "t0")), None;
  exists (snd (get_auth_token (search_env results) false initial_world));
  exists SEARCH_URL;
  exists (snd (get_search_url (search_env results)
                 (snd (get_auth_token (search_env results) false initial_world))));
  exists (ok "RESULTS");
  repeat split; vm_compute; reflexivity.

Lemma search_validation_aborts_on_unindexable_element_witness :
  search (search_env (results_of [dark_souls; unnamed_item])) "Dark" None initial_world
  = (Ret None,
     snd (search (search_env (results_of [dark_souls; unnamed_item])) "Dark" None
            initial_world)) /\
  search (search_env (results_of [num 5; dark_souls])) "Dark" None initial_world
  = (Raise (BadArgument "pairs" TNumber),
     snd (search (search_env (results_of [num 5; dark_souls])) "Dark" None
            initial_world)).
Proof.
  split.
  - apply (proj1 search_validation_aborts_on_unindexable_element
             (search_env (results_of [dark_souls; unnamed_item])) "Dark" None
             initial_world _ (results_of [dark_souls; unnamed_item])
             [dark_souls; unnamed_item] []).
    + search_env_receives (results_of [dark_souls; unnamed_item]).
    + reflexivity.
    + reflexivity.
    + reflexivity.
  - assert (Hr : search_receives (search_env (results_of [num 5; dark_souls])) "Dark"
                   None initial_world (results_of [num 5; dark_souls])
                   (snd (search (search_env (results_of [num 5; dark_souls])) "Dark"
                           None initial_world))).
    { search_env_receives (results_of [num 5; dark_souls]). }
    apply (proj2 (proj2 (proj2
             (proj1 search_validation_aborts_on_unindexable_element
                _ _ _ _ _ _ [num 5; dark_souls] [] Hr eq_refl))) (num 5) [dark_souls]);
      reflexivity.
Defined.

Lemma detail_validation_aborts_on_unindexable_element_witness :
  fetch_game_data (detail_env (detail_page [untimed_record])) (Some (num 1)) initial_world
  = (Ret None,
     snd (fetch_game_data (detail_env (detail_page [untimed_record])) (Some (num 1))
            initial_world)) /\
  fetch_game_data (search_env (results_of [])) (Some (num 1)) initial_world
  = (Ret None,
     snd (extract_build_id (search_env (results_of []))
            (add_event (EvFetchGameData (Some (num 1))) initial_world))).
Proof.
  split.
  - assert (Hr : fetch_receives (detail_env (detail_page [untimed_record]))
                   (Some (num 1)) initial_world (detail_page [untimed_record])
                   (snd (fetch_game_data (detail_env (detail_page [untimed_record]))
                           (Some (num 1)) initial_world))).
    { exists "BUILD1".
      exists (snd (extract_build_id (detail_env (detail_page [untimed_record]))
                     (add_event (EvFetchGameData (Some (num 1))) initial_world))).
      exists "1", (ok "DETAIL1").
      repeat split; vm_compute; reflexivity. }
    apply (proj1 (proj2 (proj2 (proj2
             (proj1 (proj2 detail_validation_aborts_on_unindexable_element)
                _ _ _ _ _ Hr)) untimed_record eq_refl))); reflexivity.
  - apply (proj1 detail_validation_aborts_on_unindexable_element
             (search_env (results_of [])) (Some (num 1)) initial_world).
    vm_compute. reflexivity.
Defined.

Lemma ranking_respects_keys_witness :
  sorts insertion_sort /\
  Permutation [tie_a; tie_b]
    (rank (search_env (results_of [])) [tie_a; tie_b]).
Proof.
  split.
  - exact insertion_sort_sorts.
  - exact (proj1 (proj2
      (ranking_respects_keys (search_env (results_of [])) [tie_a; tie_b]
         insertion_sort_sorts))).
Defined.

Lemma discovery_scans_first_occurrences_witness :
  cached_search_url initial_world = None /\
  exists homepage w1,
    get_homepage two_bundle_env initial_world = (Ret homepage, w1) /\
    match homepage with
    | None =>
        get_search_url two_bundle_env initial_world
        = (Ret SEARCH_URL, set_search_url (Some SEARCH_URL) w1)
    | Some h =>
        let script_urls := gmatch chunk_pattern h in
        let bundles := fetched_bundles two_bundle_env script_urls (log w1) in
        exists k,
          let w2 := prepend_events (script_gets k script_urls) w1 in
          match discovered [] bundles with
          | Some c =>
              get_search_url two_bundle_env initial_world
                = (Ret (BASE_URL ++ api_of c),
                   set_search_url (Some (BASE_URL ++ api_of c)) w2) /\
              (exists i, k = S i /\ nth_error bundles i = Some (Some (bundle c))) /\
              In (path c) (gmatch api_path_pattern (bundle c)) /\
              mem (endpoint c) SKIP_ENDPOINTS = false /\
              str_find (post_pattern (path c)) (bundle c) = true
          | None =>
              get_search_url two_bundle_env initial_world
                = (Ret SEARCH_URL, set_search_url (Some SEARCH_URL) w2) /\
              k = List.length script_urls
          end
    end.
Proof.
  split.
  - reflexivity.
  - apply (discovery_scans_first_occurrences two_bundle_env initial_world).
    reflexivity.
Defined.

Lemma search_url_pinned_witness :
  get_search_url (clock_env 0) warm_world = (Ret SEARCH_URL, warm_world) /\
  cached_search_url (snd (search (clock_env 0) "Dark Souls" None warm_world))
  = Some SEARCH_URL.
Proof.
  destruct (proj1 (proj2 (search_url_pinned (clock_env 0))) SEARCH_URL warm_world eq_refl)
    as [Hget Hsearch].
  split; [exact Hget|].
  exact (proj1 (Hsearch "Dark Souls" None _ _
                  (surjective_pairing (search (clock_env 0) "Dark Souls" None warm_world)))).
Defined.

(** ** The scenarios of the specification *)

(** The title matches the first result exactly: it is returned, and the log
    holds no detail fetch. *)
Example scenario_exact_match :
  let run := search_best_match (search_env (results_of [dark_souls; dark_souls_2]))
               "Dark Souls" (Some steam_id_example) initial_world in
  fst run = Ret (Some dark_souls) /\ detail_fetches (log (snd run)) = 0%nat.
Proof. cbn zeta. split; vm_compute; reflexivity. Qed.

(** No exact match and no Steam id: of two candidates at distance 2 the one
    with the greater popularity is returned. *)
Example scenario_popularity_breaks_tie :
  let a := result_item 1 "Dark Souls II" 100 in
  let b := result_item 2 "Dark Souls" 400 in
  levenshtein "dark souls 3" "dark souls ii" = Z2num 2 /\
  levenshtein "dark souls 3" "dark souls" = Z2num 2 /\
  fst (search_best_match (search_env (results_of [a; b])) "Dark Souls 3" None initial_world)
  = Ret (Some b).
Proof. cbn zeta. repeat split; vm_compute; reflexivity. Qed.

(** The result field of the response is a string: the search fails and the
    resolution finds nothing. *)
Example scenario_result_field_is_string :
  let env := search_env (VTable [] [("data", VStr "none")]) in
  fst (search env "Dark Souls" None initial_world) = Ret None /\
  fst (search_best_match env "Dark Souls" None initial_world) = Ret None.
Proof. cbn zeta. split; vm_compute; reflexivity. Qed.

(** [clear_cache] empties every cache variable. *)
Example clear_cache_clears_all (w : World) :
  let w' := snd (clear_cache w) in
  cached_token w' = None /\ cached_search_url w' = None /\
  cached_build_id w' = None /\ cached_homepage w' = None /\
  token_expires_at w' = 0 /\ log w' = log w.
Proof. cbn zeta. repeat split. Qed.

(** * Further properties of the client *)

(** ** The pattern matcher *)

Import LuaPattern.

Lemma pmatch_star (c : cclass) (p : pattern) (ic : bool) (cap s : string) :
  pmatch (PC c Star :: p) ic cap s = max_expand c (pmatch p) ic cap s.
Proof. reflexivity. Qed.

Lemma pmatch_minus (c : cclass) (p : pattern) (ic : bool) (cap s : string) :
  pmatch (PC c Minus :: p) ic cap s = min_expand c (pmatch p) ic cap s.
Proof. reflexivity. Qed.

Lemma pmatch_plus (c : cclass) (p : pattern) (ic : bool) (cap s : string) :
  pmatch (PC c Plus :: p) ic cap s =
  match s with
  | String a s' =>
      if single c a then max_expand c (pmatch p) ic (push ic cap a) s' else None
  | EmptyString => None
  end.
Proof. destruct s; reflexivity. Qed.

Lemma pmatch_once (c : cclass) (p : pattern) (ic : bool) (cap s : string) :
  pmatch (PC c Once :: p) ic cap s =
  match s with
  | String a s' => if single c a then pmatch p ic (push ic cap a) s' else None
  | EmptyString => None
  end.
Proof. destruct s; reflexivity. Qed.

Lemma sapp_assoc (a b c : string) : ((a ++ b) ++ c = a ++ (b ++ c))%string.
Proof. induction a as [|x a IH]; simpl; [reflexivity|]. rewrite IH. reflexivity. Qed.

Lemma sapp_nil_r (a : string) : (a ++ "" = a)%string.
Proof. induction a as [|x a IH]; simpl; [reflexivity|]. rewrite IH. reflexivity. Qed.

Lemma prefix_sapp (a b : string) : String.prefix a (a ++ b) = true.
Proof.
  induction a as [|x a IH]; simpl.
  - destruct b; reflexivity.
  - destruct (ascii_dec x x) as [_|N]; [exact IH|congruence].
Qed.

Lemma all_chars_app (f : ascii -> bool) (a b : string) :
  all_chars f (a ++ b) = all_chars f a && all_chars f b.
Proof.
  induction a as [|x a IH]; simpl; [reflexivity|].
  rewrite IH. apply andb_assoc.
Qed.

Lemma all_chars_ext (f g : ascii -> bool) (s : string) :
  (forall a, f a = g a) -> all_chars f s = all_chars g s.
Proof.
  intros H. induction s as [|a s IH]; cbn; [reflexivity|]. rewrite H, IH. reflexivity.
Qed.

Lemma pushes_nil (ic : bool) (cap : string) : pushes ic cap "" = cap.
Proof. destruct ic; simpl; [apply sapp_nil_r|reflexivity]. Qed.

Lemma pushes_push (ic : bool) (cap : string) (a : ascii) (run : string) :
  pushes ic (push ic cap a) run = pushes ic cap (String a run).
Proof. destruct ic; simpl; [apply sapp_assoc|reflexivity]. Qed.

Lemma pushes_pushes (ic : bool) (cap r1 r2 : string) :
  pushes ic (pushes ic cap r1) r2 = pushes ic cap (r1 ++ r2).
Proof. destruct ic; simpl; [apply sapp_assoc|reflexivity]. Qed.

(** What a greedy repetition consumed: a run of characters of the class,
    after which the rest of the pattern matched. *)
Lemma max_expand_inv (c : cclass) (k : bool -> string -> string -> option (string * string))
    (ic : bool) (cap s : string) (res : string * string) :
  max_expand c k ic cap s = Some res ->
  exists run s', s = (run ++ s')%string /\ all_chars (single c) run = true /\
                 k ic (pushes ic cap run) s' = Some res.
Proof.
  revert cap. induction s as [|a s IH]; intros cap H; cbn [max_expand] in H.
  - exists "", "". rewrite pushes_nil. auto.
  - destruct (single c a) eqn:Ha.
    + destruct (max_expand c k ic (push ic cap a) s) as [res'|] eqn:Hm.
      * inversion H; subst res'. destruct (IH _ Hm) as [run [s' [-> [Hall Hk]]]].
        exists (String a run), s'. rewrite pushes_push in Hk.
        cbn [all_chars]. rewrite Ha, Hall. auto.
      * exists "", (String a s). rewrite pushes_nil. auto.
    + exists "", (String a s). rewrite pushes_nil. auto.
Qed.

(** A greedy repetition takes a whole run when the rest of the pattern
    accepts what follows it. *)
Lemma max_expand_all (c : cclass) (k : bool -> string -> string -> option (string * string))
    (ic : bool) (cap run s' : string) (res : string * string) :
  all_chars (single c) run = true ->
  match s' with String b _ => single c b = false | EmptyString => True end ->
  k ic (pushes ic cap run) s' = Some res ->
  max_expand c k ic cap (run ++ s') = Some res.
Proof.
  revert cap. induction run as [|a run IH]; intros cap Hall Hend Hk.
  - rewrite pushes_nil in Hk. cbn [append].
    destruct s' as [|b s']; cbn [max_expand]; [exact Hk|]. rewrite Hend. exact Hk.
  - cbn [all_chars] in Hall. apply andb_true_iff in Hall as [Ha Hall].
    cbn [append max_expand]. rewrite Ha.
    rewrite (IH (push ic cap a) Hall Hend); [reflexivity|].
    rewrite pushes_push. exact Hk.
Qed.

(** A run of literal characters matches exactly itself. *)
Lemma pmatch_lits_inv (l : string) (p : pattern) (ic : bool) (cap s : string)
    (res : string * string) :
  pmatch (lits l ++ p)%list ic cap s = Some res ->
  exists s', s = (l ++ s')%string /\ pmatch p ic (pushes ic cap l) s' = Some res.
Proof.
  revert cap s. induction l as [|a l IH]; intros cap s H.
  - exists s. rewrite pushes_nil. auto.
  - cbn [lits app] in H. rewrite pmatch_once in H.
    destruct s as [|b s]; [discriminate|].
    cbn [single] in H. destruct (Ascii.eqb b a) eqn:E; [|discriminate].
    apply Ascii.eqb_eq in E. subst b.
    destruct (IH _ _ H) as [s' [-> Hp]].
    exists s'. rewrite pushes_push in Hp. auto.
Qed.

Lemma pmatch_lits_app (l : string) (p : pattern) (ic : bool) (cap s' : string) :
  pmatch (lits l ++ p)%list ic cap (l ++ s') = pmatch p ic (pushes ic cap l) s'.
Proof.
  revert cap. induction l as [|a l IH]; intros cap.
  - rewrite pushes_nil. reflexivity.
  - cbn [lits app append]. rewrite pmatch_once. cbn [single].
    rewrite Ascii.eqb_refl, IH, pushes_push. reflexivity.
Qed.

(** A captured, greedy repetition of a class captures a non-empty run of
    characters of the class. *)
Lemma pmatch_capture_plus (c : cclass) (p : pattern) (ic : bool) (cap s : string)
    (res : string * string) :
  pmatch (POpen :: PC c Plus :: p) ic cap s = Some res ->
  exists run s', run <> "" /\ all_chars (single c) run = true /\
                 s = (run ++ s')%string /\ pmatch p true (cap ++ run) s' = Some res.
Proof.
  cbn [pmatch]. intros H. change (pmatch (PC c Plus :: p) true cap s = Some res) in H.
  rewrite pmatch_plus in H. destruct s as [|a s]; [discriminate|].
  destruct (single c a) eqn:Ha; [|discriminate].
  apply max_expand_inv in H as [run [s' [-> [Hall Hk]]]].
  exists (String a run), s'. rewrite pushes_push in Hk. cbn [pushes] in Hk.
  cbn [all_chars]. rewrite Ha, Hall. repeat split; auto. discriminate.
Qed.

(** Every result of [string.match] and of [string.gmatch] is the capture of
    an anchored match somewhere in the subject. *)
Lemma str_match_anchored (p : pattern) (s e : string) :
  str_match p s = Some e ->
  exists pre s' rest, s = (pre ++ s')%string /\ pmatch p false "" s' = Some (e, rest).
Proof.
  induction s as [|a s IH]; cbn [str_match].
  - destruct (pmatch p false "" "") as [[cap rest]|] eqn:Hp; [|discriminate].
    intros H; inversion H; subst. exists "", "", rest. auto.
  - destruct (pmatch p false "" (String a s)) as [[cap rest]|] eqn:Hp.
    + intros H; inversion H; subst. exists "", (String a s), rest. auto.
    + intros H. destruct (IH H) as [pre [s' [rest [-> Hm]]]].
      exists (String a pre), s', rest. auto.
Qed.

Lemma gmatch_from_anchored (fuel : nat) (p : pattern) (s e : string) :
  In e (gmatch_from fuel p s) ->
  exists s' rest, pmatch p false "" s' = Some (e, rest).
Proof.
  revert s. induction fuel as [|fuel IH]; intros s; cbn [gmatch_from]; [intros []|].
  destruct (pmatch p false "" s) as [[cap rest]|] eqn:Hp.
  - intros [<-|Hin]; [eauto|].
    destruct (String.length rest <? String.length s)%nat; [eapply IH; eauto|].
    destruct s as [|a s0]; [destruct Hin|eapply IH; eauto].
  - destruct s as [|a s0]; [intros []|]. apply IH.
Qed.

Lemma gmatch_anchored (p : pattern) (s e : string) :
  In e (gmatch p s) -> exists s' rest, pmatch p false "" s' = Some (e, rest).
Proof. apply gmatch_from_anchored. Qed.

(** *** The shapes of what the client's patterns capture *)

(** An endpoint name is a non-empty run of word characters that follows
    [/api/] in the subject. *)
Lemma endpoint_pattern_shape (s e : string) :
  str_match endpoint_pattern s = Some e ->
  e <> "" /\ all_chars is_word_char e = true /\
  exists pre post, s = (pre ++ "/api/" ++ e ++ post)%string.
Proof.
  intros H. apply str_match_anchored in H as [pre [s' [rest [-> H]]]].
  unfold endpoint_pattern in H.
  apply pmatch_lits_inv in H as [s1 [-> H]].
  apply pmatch_capture_plus in H as [run [s2 [Hne [Hall [-> H]]]]].
  cbn in H. inversion H; subst.
  repeat split; auto. exists pre, rest. reflexivity.
Qed.

(** On a path made of [/api/] and a run of word characters the endpoint
    pattern captures the whole run. *)
Lemma endpoint_pattern_on_path (e : string) :
  e <> "" -> all_chars is_word_char e = true ->
  str_match endpoint_pattern ("/api/" ++ e) = Some e.
Proof.
  intros Hne Hall.
  assert (Hp : pmatch endpoint_pattern false "" ("/api/" ++ e) = Some (e, "")).
  { unfold endpoint_pattern. rewrite pmatch_lits_app. cbn [pushes].
    cbn [pmatch]. change (pmatch [PC word Plus; PClose] true "" e = Some (e, "")).
    rewrite pmatch_plus. destruct e as [|a run]; [congruence|].
    cbn [all_chars] in Hall. apply andb_true_iff in Hall as [Ha Hall].
    unfold is_word_char in Ha. rewrite Ha.
    rewrite <- (sapp_nil_r run) at 1.
    apply max_expand_all; [exact Hall|exact I|].
    rewrite pushes_push. reflexivity. }
  cbn [append str_match]. cbn [append] in Hp. rewrite Hp. reflexivity.
Qed.

(** A candidate path is [/api/] followed by a non-empty run of word
    characters. *)
Lemma api_path_pattern_shape (content api_path : string) :
  In api_path (gmatch api_path_pattern content) ->
  exists e, api_path = ("/api/" ++ e)%string /\ e <> "" /\ all_chars is_word_char e = true.
Proof.
  intros H. apply gmatch_anchored in H as [s' [rest H]].
  unfold api_path_pattern in H. cbn [app] in H. rewrite pmatch_once in H.
  destruct s' as [|q s']; [discriminate|].
  destruct (single quote q); [|discriminate].
  cbn [push pmatch] in H.
  change (pmatch (lits "/api/" ++ [PC word Plus; PClose; PC quote Once])%list true "" s'
          = Some (api_path, rest)) in H.
  apply pmatch_lits_inv in H as [s1 [-> H]]. cbn [pushes append] in H.
  rewrite pmatch_plus in H. destruct s1 as [|a s1]; [discriminate|].
  destruct (single word a) eqn:Ha; [|discriminate].
  apply max_expand_inv in H as [run [s2 [-> [Hall H]]]].
  rewrite pushes_push in H. cbn [pushes pmatch] in H.
  change (pmatch [PC quote Once] false ("/api/" ++ String a run) s2 = Some (api_path, rest)) in H.
  rewrite pmatch_once in H. destruct s2 as [|q2 s2]; [discriminate|].
  destruct (single quote q2); [|discriminate].
  cbn in H. inversion H; subst.
  exists (String a run). repeat split; [discriminate|].
  cbn [all_chars]. unfold is_word_char at 1. rewrite Ha. exact Hall.
Qed.

(** A chunk script path is [/_next/static/chunks/], a non-empty name without
    quotes, and [.js]. *)
Lemma chunk_pattern_shape (homepage src : string) :
  In src (gmatch chunk_pattern homepage) ->
  exists x, src = ("/_next/static/chunks/" ++ x ++ ".js")%string /\ x <> "" /\
            all_chars (fun a => negb (is_quote a)) x = true.
Proof.
  intros H. apply gmatch_anchored in H as [s' [rest H]].
  unfold chunk_pattern in H. cbn [app] in H. rewrite pmatch_once in H.
  destruct s' as [|q s']; [discriminate|].
  destruct (single quote q); [|discriminate].
  cbn [push pmatch] in H.
  change (pmatch (lits "/_next/static/chunks/"
                  ++ (PC not_quote Plus :: (lits ".js" ++ [PClose; PC quote Once])))%list
            true "" s' = Some (src, rest)) in H.
  apply pmatch_lits_inv in H as [s1 [-> H]]. cbn [pushes append] in H.
  rewrite pmatch_plus in H. destruct s1 as [|a s1]; [discriminate|].
  destruct (single not_quote a) eqn:Ha; [|discriminate].
  apply max_expand_inv in H as [run [s2 [-> [Hall H]]]].
  rewrite pushes_push in H.
  apply pmatch_lits_inv in H as [s3 [-> H]].
  rewrite pushes_pushes in H. cbn [pushes pmatch] in H.
  change (pmatch [PC quote Once] false
            ("/_next/static/chunks/" ++ String a run ++ ".js") s3 = Some (src, rest)) in H.
  rewrite pmatch_once in H. destruct s3 as [|q2 s3]; [discriminate|].
  destruct (single quote q2); [|discriminate].
  cbn [push pmatch] in H. inversion H; subst.
  exists (String a run). repeat split; [discriminate|].
  cbn [all_chars]. apply andb_true_iff. split.
  - unfold is_quote. exact Ha.
  - rewrite <- Hall. apply all_chars_ext. intros b. reflexivity.
Qed.

(** A build id is a non-empty run of characters without a slash. *)
Lemma build_id_pattern_shape (marker homepage b : string) :
  str_match (lits "/_next/static/"
             ++ [POpen; PC (CNotSet [SChar "/"%char]) Plus; PClose] ++ lits marker)%list
    homepage = Some b ->
  b <> "" /\ all_chars (fun a => negb (is_slash a)) b = true /\
  exists pre post, homepage = (pre ++ "/_next/static/" ++ b ++ marker ++ post)%string.
Proof.
  intros H. apply str_match_anchored in H as [pre [s' [rest [-> H]]]].
  apply pmatch_lits_inv in H as [s1 [-> H]]. cbn [pushes app] in H.
  apply pmatch_capture_plus in H as [run [s2 [Hne [Hall [-> H]]]]].
  cbn [pmatch append] in H.
  rewrite <- (List.app_nil_r (lits marker)) in H.
  apply pmatch_lits_inv in H as [s3 [-> H]]. cbn in H. inversion H; subst.
  repeat split; auto.
  - rewrite <- Hall. apply all_chars_ext. intros a.
    unfold is_slash. cbn. rewrite orb_false_r. reflexivity.
  - exists pre, rest. reflexivity.
Qed.

(** ** The search payload *)

Lemma not_blank_class (a : ascii) :
  single (CNotSet [SChar " "%char; SRange (ascii_of_nat 9) (ascii_of_nat 13)]) a
  = negb (is_blank a).
Proof. destruct a as [[] [] [] [] [] [] [] []]; reflexivity. Qed.

Lemma slength_app (a b : string) :
  String.length (a ++ b) = (String.length a + String.length b)%nat.
Proof. induction a as [|x a IH]; simpl; [reflexivity|]. rewrite IH. reflexivity. Qed.

Lemma keep_chars_app (f : ascii -> bool) (a b : string) :
  keep_chars f (a ++ b) = (keep_chars f a ++ keep_chars f b)%string.
Proof.
  induction a as [|x a IH]; simpl; [reflexivity|].
  destruct (f x); simpl; rewrite IH; reflexivity.
Qed.

Lemma keep_chars_all (f : ascii -> bool) (a : string) :
  all_chars f a = true -> keep_chars f a = a.
Proof.
  induction a as [|x a IH]; simpl; [reflexivity|].
  intros H. apply andb_true_iff in H as [Hx Ha]. rewrite Hx, (IH Ha). reflexivity.
Qed.

(** A string splits into its longest prefix of characters of a class and a
    rest that is empty or starts outside the class. *)
Lemma longest_run (c : cclass) (s : string) :
  exists run rest, s = (run ++ rest)%string /\ all_chars (single c) run = true /\
    match rest with String b _ => single c b = false | EmptyString => True end.
Proof.
  induction s as [|a s [run [rest [-> [Hall Hend]]]]].
  - exists "", "". auto.
  - destruct (single c a) eqn:Ha.
    + exists (String a run), rest. cbn [all_chars]. rewrite Ha, Hall. auto.
    + exists "", (String a (run ++ rest)). auto.
Qed.

(** One search term: the longest run of non-blank characters at the start of
    the subject, when there is one. *)
Lemma term_pattern_match (s : string) :
  match s with
  | EmptyString => pmatch term_pattern false "" s = None
  | String a s0 =>
      if is_blank a then pmatch term_pattern false "" s = None
      else exists run rest,
          s0 = (run ++ rest)%string /\
          all_chars (fun b => negb (is_blank b)) run = true /\
          match rest with String b _ => is_blank b = true | EmptyString => True end /\
          pmatch term_pattern false "" s = Some (String a run, rest)
  end.
Proof.
  destruct s as [|a s0]; [reflexivity|].
  change (pmatch term_pattern false "" (String a s0))
    with (pmatch (PC (CNotSet [SChar " "%char; SRange (ascii_of_nat 9) (ascii_of_nat 13)]) Plus
                  :: [PClose]) true "" (String a s0)).
  rewrite pmatch_plus, not_blank_class.
  destruct (is_blank a); [reflexivity|]. cbn [negb].
  destruct (longest_run (CNotSet [SChar " "%char; SRange (ascii_of_nat 9) (ascii_of_nat 13)]) s0)
    as [run [rest [-> [Hall Hend]]]].
  exists run, rest. split; [reflexivity|]. split; [|split].
  - rewrite <- Hall. apply all_chars_ext. intros b. rewrite not_blank_class. reflexivity.
  - destruct rest as [|b rest]; [exact I|]. rewrite not_blank_class in Hend.
    apply negb_false_iff in Hend. exact Hend.
  - apply max_expand_all; [exact Hall|exact Hend|].
    rewrite pushes_push. reflexivity.
Qed.

Lemma search_terms_flatten (fuel : nat) (s : string) :
  (String.length s < fuel)%nat ->
  flatten (gmatch_from fuel term_pattern s) = keep_chars (fun a => negb (is_blank a)) s.
Proof.
  revert s. induction fuel as [|fuel IH]; intros s Hlen; [lia|].
  cbn [gmatch_from]. pose proof (term_pattern_match s) as Hm.
  destruct s as [|a s0].
  - rewrite Hm. reflexivity.
  - cbn [keep_chars]. cbn [String.length] in Hlen.
    destruct (is_blank a) eqn:Ha; cbn [negb].
    + rewrite Hm. apply IH. lia.
    + destruct Hm as [run [rest [-> [Hall [Hend Hm]]]]]. rewrite Hm.
      rewrite slength_app in Hlen.
      assert (Hlt : (String.length rest <? String.length (String a (run ++ rest)))%nat = true).
      { apply Nat.ltb_lt. cbn [String.length]. rewrite slength_app. lia. }
      rewrite Hlt. cbn [flatten append]. rewrite IH by lia.
      rewrite keep_chars_app, (keep_chars_all _ _ Hall). reflexivity.
Qed.

(** A blank in front of a name does not change its split. *)
Lemma split_at_blanks_cons (a : ascii) (s : string) (terms : list string) :
  is_blank a = true -> split_at_blanks s terms -> split_at_blanks (String a s) terms.
Proof.
  intros Ha H. destruct H as [s Hs|blanks term rest terms Hb Hne Ht Hend Hrest].
  - apply split_blanks. cbn [all_chars]. rewrite Ha, Hs. reflexivity.
  - change (String a (blanks ++ term ++ rest))
      with ((String a blanks) ++ term ++ rest)%string.
    apply split_term; auto. cbn [all_chars]. rewrite Ha, Hb. reflexivity.
Qed.

Lemma search_terms_split_at_blanks (fuel : nat) (s : string) :
  (String.length s < fuel)%nat ->
  split_at_blanks s (gmatch_from fuel term_pattern s).
Proof.
  revert s. induction fuel as [|fuel IH]; intros s Hlen; [lia|].
  cbn [gmatch_from]. pose proof (term_pattern_match s) as Hm.
  destruct s as [|a s0].
  - rewrite Hm. apply split_blanks. reflexivity.
  - cbn [String.length] in Hlen.
    destruct (is_blank a) eqn:Ha.
    + rewrite Hm. apply split_at_blanks_cons; [exact Ha|]. apply IH. lia.
    + destruct Hm as [run [rest [-> [Hall [Hend Hm]]]]]. rewrite Hm.
      rewrite slength_app in Hlen.
      assert (Hlt : (String.length rest <? String.length (String a (run ++ rest)))%nat = true).
      { apply Nat.ltb_lt. cbn [String.length]. rewrite slength_app. lia. }
      rewrite Hlt.
      change (String a (run ++ rest)) with ("" ++ (String a run) ++ rest)%string.
      apply split_term.
      * reflexivity.
      * discriminate.
      * cbn [all_chars]. rewrite Ha, Hall. reflexivity.
      * exact Hend.
      * apply IH. lia.
Qed.

(** A string has one decomposition into a run of characters of a kind and a
    rest that is empty or starts with a character of another kind. *)
Lemma run_split_unique (f : ascii -> bool) (x y x' y' : string) :
  all_chars f x = true -> all_chars f x' = true ->
  match y with String b _ => f b = false | EmptyString => True end ->
  match y' with String b _ => f b = false | EmptyString => True end ->
  (x ++ y = x' ++ y')%string -> x = x' /\ y = y'.
Proof.
  revert x'. induction x as [|a x IH]; intros [|c x'] Hx Hx' Hy Hy' E; cbn in *.
  - auto.
  - subst y. apply andb_true_iff in Hx' as [Hc _]. congruence.
  - subst y'. apply andb_true_iff in Hx as [Ha _]. congruence.
  - apply andb_true_iff in Hx as [_ Hx]. apply andb_true_iff in Hx' as [_ Hx'].
    inversion E; subst c. destruct (IH x' Hx Hx' Hy Hy' H1) as [-> ->]. auto.
Qed.

(** The split of a name at its blanks is determined by the name. *)
Lemma split_at_blanks_unique (s : string) (terms terms' : list string) :
  split_at_blanks s terms -> split_at_blanks s terms' -> terms = terms'.
Proof.
  intros H. revert terms'.
  induction H as [s Hs|blanks term rest terms Hb Hne Ht Hend Hrest IH]; intros terms' H'.
  - inversion H' as [s' Hs'|blanks term rest terms0 Hb Hne Ht Hend Hrest E]; [reflexivity|].
    subst s. rewrite !all_chars_app in Hs.
    apply andb_true_iff in Hs as [_ Hs]. apply andb_true_iff in Hs as [Hs _].
    destruct term as [|c term]; [congruence|]. cbn in Hs, Ht.
    apply andb_true_iff in Hs as [Hc _]. apply andb_true_iff in Ht as [Hc' _].
    rewrite Hc in Hc'. discriminate.
  - inversion H' as [s' Hs'|blanks' term' rest' terms0 Hb' Hne' Ht' Hend' Hrest' E].
    + subst s'. rewrite !all_chars_app in Hs'.
      apply andb_true_iff in Hs' as [_ Hs']. apply andb_true_iff in Hs' as [Hs' _].
      destruct term as [|c term]; [congruence|]. cbn in Hs', Ht.
      apply andb_true_iff in Hs' as [Hc _]. apply andb_true_iff in Ht as [Hc' _].
      rewrite Hc in Hc'. discriminate.
    + subst terms'.
      assert (Hstart : forall t r, t <> "" ->
                all_chars (fun a => negb (is_blank a)) t = true ->
                match (t ++ r)%string with
                | String b _ => is_blank b = false
                | EmptyString => True
                end).
      { intros [|c t] r Hn Hall; [congruence|]. cbn in *.
        apply andb_true_iff in Hall as [Hc _]. apply negb_true_iff in Hc. exact Hc. }
      destruct (run_split_unique is_blank blanks' (term' ++ rest') blanks (term ++ rest)
                  Hb' Hb (Hstart _ _ Hne' Ht') (Hstart _ _ Hne Ht) E) as [_ E2].
      assert (Hblank : forall r, match r with
                                 | String b _ => is_blank b = true
                                 | EmptyString => True
                                 end ->
                       match r with
                       | String b _ => negb (is_blank b) = false
                       | EmptyString => True
                       end).
      { intros [|b r] Hr; [exact I|]. rewrite Hr. reflexivity. }
      destruct (run_split_unique (fun a => negb (is_blank a)) term' rest' term rest
                  Ht' Ht (Hblank _ Hend') (Hblank _ Hend) E2) as [-> ->].
      f_equal. apply IH. exact Hrest'.
Qed.

(** X1: the search payload carries the game name split at its blanks: the
    search terms are, in order, the non-empty runs of non-blank characters of
    the name, each ending at a blank or at the end of the name, with nothing
    but blanks before, between and after them, and they are the only list of
    that kind.  So every term is non-empty and without a blank, the terms
    put together are the name without its blanks, and a name of blanks only
    yields no term; page, page size and modifier are passed on. *)
Theorem search_terms_split (game_name modifier_text : string) (page_number : Z) :
  let payload := get_search_request_data game_name modifier_text page_number in
  split_at_blanks game_name (searchTerms payload) /\
  (forall terms, split_at_blanks game_name terms -> terms = searchTerms payload) /\
  Forall (fun t => t <> "" /\ all_chars (fun a => negb (is_blank a)) t = true)
    (searchTerms payload) /\
  flatten (searchTerms payload) = keep_chars (fun a => negb (is_blank a)) game_name /\
  (all_chars is_blank game_name = true -> searchTerms payload = []) /\
  searchPage payload = page_number /\ size payload = 20 /\
  modifier payload = modifier_text.
Proof.
  cbn zeta. cbn [get_search_request_data searchTerms searchPage size modifier].
  assert (Hsplit : split_at_blanks game_name (gmatch term_pattern game_name)).
  { apply search_terms_split_at_blanks. lia. }
  split; [exact Hsplit|].
  split; [intros terms Ht; exact (split_at_blanks_unique _ _ _ Ht Hsplit)|].
  assert (Hall : Forall (fun t => t <> "" /\ all_chars (fun a => negb (is_blank a)) t = true)
                   (gmatch term_pattern game_name)).
  { apply Forall_forall. intros t Hin.
    apply gmatch_anchored in Hin as [s' [rest H]].
    unfold term_pattern in H.
    apply pmatch_capture_plus in H as [run [s2 [Hne [Hrun [-> H]]]]].
    cbn in H. inversion H; subst. split; [exact Hne|].
    rewrite <- Hrun. apply all_chars_ext. intros b. rewrite not_blank_class. reflexivity. }
  assert (Hflat : flatten (gmatch term_pattern game_name)
                  = keep_chars (fun a => negb (is_blank a)) game_name).
  { apply search_terms_flatten. lia. }
  split; [exact Hall|]. split; [exact Hflat|]. split; [|auto].
  intros Hblank.
  exact (split_at_blanks_unique _ _ _ Hsplit (split_blanks _ Hblank)).
Qed.

(** ** Field validation *)

(** X2: on a table [validate_fields] answers true exactly when every field
    of the schema has the expected type, and otherwise names the first field
    of the schema, in schema order, that has not; a string has no fields, so
    it fails at the first field of the schema; on a number, a boolean or
    userdata the lookup of the first field is a runtime error; an empty
    schema accepts any value. *)
Theorem validate_fields_first_failure :
  (forall arr fields schema,
     (validate_fields (VTable arr fields) schema = Ret (true, None) <->
      forallb (field_ok fields) schema = true) /\
     (forall n, validate_fields (VTable arr fields) schema = Ret (false, Some n) <->
        exists pre f post,
          schema = (pre ++ f :: post)%list /\ forallb (field_ok fields) pre = true /\
          field_ok fields f = false /\ name f = n)) /\
  (forall s f rest, expected_type f <> TNil ->
     validate_fields (VStr s) (f :: rest) = Ret (false, Some (name f))) /\
  (forall v f rest, type_of (Some v) <> TTable -> type_of (Some v) <> TString ->
     validate_fields v (f :: rest) = Raise (AttemptToIndex (type_of (Some v)))) /\
  (forall v, validate_fields v [] = Ret (true, None)).
Proof.
  split; [|split; [|split]].
  - intros arr fields schema.
    induction schema as [|f rest [IHt IHf]]; cbn [validate_fields forallb index].
    + split; [split; auto|]. intros n. split; [discriminate|].
      intros [pre [f [post [H _]]]]. destruct pre; discriminate.
    + fold (field_ok fields f). destruct (field_ok fields f) eqn:Hf; cbn [negb andb].
      * split; [exact IHt|]. intros n. rewrite IHf. split.
        -- intros [pre [g [post [-> [Hpre [Hg Hn]]]]]].
           exists (f :: pre), g, post. cbn [forallb]. rewrite Hf, Hpre. auto.
        -- intros [pre [g [post [Hs [Hpre [Hg Hn]]]]]].
           destruct pre as [|f' pre]; cbn [app] in Hs; inversion Hs; subst.
           ++ congruence.
           ++ cbn [forallb] in Hpre. apply andb_true_iff in Hpre as [_ Hpre].
              exists pre, g, post. auto.
      * split; [split; discriminate|]. intros n. split.
        -- intros H. inversion H; subst. exists [], f, rest. auto.
        -- intros [pre [g [post [Hs [Hpre [Hg Hn]]]]]].
           destruct pre as [|f' pre]; cbn [app] in Hs; inversion Hs; subst.
           ++ reflexivity.
           ++ cbn [forallb] in Hpre. rewrite Hf in Hpre. discriminate.
  - intros s f rest Hty. cbn [validate_fields index type_of].
    destruct (expected_type f); try reflexivity. congruence.
  - intros v f rest Ht Hs. destruct v; cbn in *; congruence.
  - reflexivity.
Qed.

(** ** The homepage and the build id *)

Section DiscoveryCache.

Variable env : Env.

Lemma get_homepage_hit (w : World) (h : string) :
  cached_homepage w = Some h -> get_homepage env w = (Ret (Some h), w).
Proof. intros Hc. unfold get_homepage. unfold_monad. rewrite Hc. reflexivity. Qed.

Lemma get_homepage_run (w : World) :
  exists o w',
    get_homepage env w = (Ret o, w') /\
    cached_homepage w' = o /\
    match cached_homepage w with
    | Some h => o = Some h /\ w' = w
    | None =>
        log w' = EvGet BASE_URL :: log w /\
        o = bundle_body (http_get env (log w) BASE_URL)
    end /\
    cached_token w' = cached_token w /\ token_expires_at w' = token_expires_at w /\
    cached_search_url w' = cached_search_url w /\ cached_build_id w' = cached_build_id w.
Proof.
  unfold get_homepage, http_get_m. unfold_monad.
  destruct (cached_homepage w) as [h|] eqn:Hc.
  - exists (Some h), w. repeat split; auto.
  - destruct (http_get env (log w) BASE_URL) as [[st bd]|err]; cbn [bundle_body status body negb].
    + destruct (st =? 200) eqn:Hst; cbn [negb].
      * eexists; eexists. split; [reflexivity|]. cbn.
        repeat split; auto; destruct bd; reflexivity.
      * eexists; eexists. split; [reflexivity|]. cbn.
        repeat split; auto; destruct bd; reflexivity.
    + eexists; eexists. split; [reflexivity|]. cbn. repeat split; auto.
Qed.

(** X3: [get_homepage] always returns what the homepage cache holds
    afterwards.  A cached homepage is returned without any event; otherwise
    the homepage is requested once, a body received with status 200 is
    cached, and after a failure the cache is still empty, so the next call
    asks again.  The other cache variables are left alone. *)
Theorem homepage_cached_on_success (w : World) :
  exists o w',
    get_homepage env w = (Ret o, w') /\
    cached_homepage w' = o /\
    match cached_homepage w with
    | Some h => o = Some h /\ w' = w
    | None =>
        log w' = EvGet BASE_URL :: log w /\
        o = bundle_body (http_get env (log w) BASE_URL)
    end /\
    (forall h, o = Some h -> get_homepage env w' = (Ret (Some h), w')) /\
    cached_token w' = cached_token w /\ token_expires_at w' = token_expires_at w /\
    cached_search_url w' = cached_search_url w /\ cached_build_id w' = cached_build_id w.
Proof.
  destruct (get_homepage_run w) as [o [w' [Hrun [Hc [Hcase Hrest]]]]].
  exists o, w'. split; [exact Hrun|]. split; [exact Hc|]. split; [exact Hcase|].
  split; [|exact Hrest].
  intros h Ho. apply get_homepage_hit. congruence.
Qed.

(** X4: a cached build id is returned without any event and without the
    homepage being needed.  A build id that is found is cached, so the next
    call returns it without any event; it is a non-empty string without a
    slash that stands between [/_next/static/] and one of the two manifest
    names in the homepage just read.  When none is found nothing is cached. *)
Theorem build_id_cached_on_success (w : World) :
  (forall b, cached_build_id w = Some b -> extract_build_id env w = (Ret (Some b), w)) /\
  (cached_build_id w = None ->
   exists o w',
     extract_build_id env w = (Ret o, w') /\
     cached_build_id w' = o /\
     match o with
     | Some b =>
         extract_build_id env w' = (Ret (Some b), w') /\
         b <> "" /\ all_chars (fun a => negb (is_slash a)) b = true /\
         exists h pre marker post,
           cached_homepage w' = Some h /\
           (marker = "/_ssgManifest.js" \/ marker = "/_buildManifest.js") /\
           h = (pre ++ "/_next/static/" ++ b ++ marker ++ post)%string
     | None => True
     end).
Proof.
  assert (Hhit : forall w0 b, cached_build_id w0 = Some b ->
                   extract_build_id env w0 = (Ret (Some b), w0)).
  { intros w0 b Hc. unfold extract_build_id. unfold_monad. rewrite Hc. reflexivity. }
  split; [apply Hhit|]. intros Hc.
  destruct (get_homepage_run w) as [o [w1 [Hh [Hch [_ [_ [_ [_ Hbid]]]]]]]].
  assert (Hrun : extract_build_id env w =
    match o with
    | None => (Ret None, w1)
    | Some h =>
        match str_match ssg_manifest_pattern h with
        | Some b => (Ret (Some b), set_build_id (Some b) w1)
        | None =>
            match str_match build_manifest_pattern h with
            | Some b => (Ret (Some b), set_build_id (Some b) w1)
            | None => (Ret None, w1)
            end
        end
    end).
  { unfold extract_build_id. unfold bind at 1. unfold get_world at 1. rewrite Hc.
    rewrite (bind_ret_run _ _ _ _ _ Hh).
    destruct o as [h|]; [|reflexivity].
    destruct (str_match ssg_manifest_pattern h); [reflexivity|].
    destruct (str_match build_manifest_pattern h); reflexivity. }
  rewrite Hrun. clear Hrun.
  destruct o as [h|].
  2: { exists None, w1. split; [reflexivity|]. split; [congruence|exact I]. }
  destruct (str_match ssg_manifest_pattern h) as [b|] eqn:Hs.
  - exists (Some b), (set_build_id (Some b) w1). split; [reflexivity|].
    split; [reflexivity|]. split; [apply Hhit; reflexivity|].
    destruct (build_id_pattern_shape "/_ssgManifest.js" h b Hs) as [Hne [Hall [pre [post Heq]]]].
    repeat split; auto. exists h, pre, "/_ssgManifest.js", post. auto.
  - destruct (str_match build_manifest_pattern h) as [b|] eqn:Hm.
    + exists (Some b), (set_build_id (Some b) w1). split; [reflexivity|].
      split; [reflexivity|]. split; [apply Hhit; reflexivity|].
      destruct (build_id_pattern_shape "/_buildManifest.js" h b Hm)
        as [Hne [Hall [pre [post Heq]]]].
      repeat split; auto. exists h, pre, "/_buildManifest.js", post. auto.
    + exists None, w1. split; [reflexivity|]. split; [congruence|exact I].
Qed.

(** With nothing cached, the extraction of the build id requests the
    homepage and nothing else. *)
Lemma build_id_run_cold (w : World) :
  cached_build_id w = None -> cached_homepage w = None ->
  exists o w', extract_build_id env w = (Ret o, w') /\ log w' = EvGet BASE_URL :: log w.
Proof.
  intros Hb Hh.
  destruct (get_homepage_run w) as [o [w1 [Hrun [_ [Hcase _]]]]].
  rewrite Hh in Hcase. destruct Hcase as [Hl _].
  unfold extract_build_id. unfold bind at 1. unfold get_world at 1. rewrite Hb.
  rewrite (bind_ret_run _ _ _ _ _ Hrun).
  destruct o as [h|]; [|exists None, w1; auto].
  destruct (match str_match ssg_manifest_pattern h with
            | Some b => Some b
            | None => str_match build_manifest_pattern h
            end) as [b|]; [|exists None, w1; auto].
  eexists; eexists. split; [reflexivity|]. exact Hl.
Qed.

End DiscoveryCache.

(** ** The token cache *)

Section TokenCache.

Variable env : Env.

(** The two ways a call of [get_auth_token] can go. *)
Lemma get_auth_token_cases (force_refresh : bool) (w : World) :
  let now := os_time env (log w) in
  (force_refresh = false /\ truthy (cached_token w) = true /\ now < token_expires_at w /\
   get_auth_token env force_refresh w = (Ret (cached_token w, None), add_event EvTime w)) \/
  (negb force_refresh && truthy (cached_token w) && (now <? token_expires_at w) = false /\
   exists r w',
     get_auth_token env force_refresh w = (r, w') /\
     log w' = EvGet (token_url env now) :: EvTime :: log w /\
     same_discovery_cache w w' /\
     match r with
     | Ret (Some tok, err) =>
         err = None /\ truthy (Some tok) = true /\
         cached_token w' = Some tok /\ token_expires_at w' = now + TOKEN_TTL
     | Ret (None, err) =>
         err <> None /\ cached_token w' = cached_token w /\
         token_expires_at w' = token_expires_at w
     | Raise _ =>
         cached_token w' = cached_token w /\ token_expires_at w' = token_expires_at w
     end).
Proof.
  intros now. unfold get_auth_token, os_time_m, http_get_m. unfold_monad. simpl.
  fold now.
  destruct (negb force_refresh && truthy (cached_token w) && (now <? token_expires_at w))
    eqn:Hcond; unfold add_event; simpl.
  - left. apply andb_true_iff in Hcond as [Hcond Hlt].
    apply andb_true_iff in Hcond as [Hf Htok].
    apply negb_true_iff in Hf. apply Z.ltb_lt in Hlt. auto.
  - right. split; [reflexivity|].
    assert (Hsame : forall l,
      same_discovery_cache w
        {| cached_token := cached_token w; cached_search_url := cached_search_url w;
           cached_build_id := cached_build_id w; cached_homepage := cached_homepage w;
           token_expires_at := token_expires_at w; log := l |}).
    { intros l. repeat split. }
    destruct (http_get env (EvTime :: log w) (token_url env now)) as [response|err].
    2: { eexists; eexists. split; [reflexivity|]. cbn. repeat split; auto. discriminate. }
    destruct (negb (status response =? 200)).
    { eexists; eexists. split; [reflexivity|]. cbn. repeat split; auto. discriminate. }
    destruct (decode_body env (body response)) as [data|].
    2: { eexists; eexists. split; [reflexivity|]. cbn. repeat split; auto. discriminate. }
    destruct (index data "token") as [token|e].
    2: { eexists; eexists. split; [reflexivity|]. cbn. repeat split; auto. }
    destruct (negb (truthy token)) eqn:Ht.
    { eexists; eexists. split; [reflexivity|]. cbn. repeat split; auto. discriminate. }
    apply negb_false_iff in Ht. destruct token as [tok|]; [|discriminate].
    eexists; eexists. split; [reflexivity|]. cbn. repeat split; auto.
Qed.

(** X5: [get_auth_token] never touches the search URL, the build id or the
    homepage, and unless it returns a token it leaves the cached token and its
    expiry as they were: a refresh that fails, forced or not, does not lose a
    token that is still valid. *)
Theorem token_failure_keeps_cache (force_refresh : bool) (w : World) :
  let run := get_auth_token env force_refresh w in
  same_discovery_cache w (snd run) /\
  match fst run with
  | Ret (Some _, _) => True
  | _ =>
      cached_token (snd run) = cached_token w /\
      token_expires_at (snd run) = token_expires_at w
  end.
Proof.
  cbn zeta.
  destruct (get_auth_token_cases force_refresh w)
    as [[_ [Htok [_ Hrun]]] | [_ [r [w' [Hrun [_ [Hsame Hr]]]]]]]; rewrite Hrun; cbn [fst snd].
  - split; [repeat split|].
    destruct (cached_token w) as [tok|]; [exact I|]. discriminate.
  - split; [exact Hsame|].
    destruct r as [[[tok|] err]|e]; [exact I|tauto|exact Hr].
Qed.

(** X6: a token that [get_auth_token] returned is handed out again, without
    any request, by every later unforced call that reads the clock before the
    token's expiry, as long as the token cache is what that call left; the
    first unforced call that reads the clock at or after the expiry sends one
    token request instead. *)
Theorem token_reused_until_expiry (force_refresh : bool) (w w1 w2 : World)
    (tok : value) (err : option token_error) :
  get_auth_token env force_refresh w = (Ret (Some tok, err), w1) ->
  cached_token w2 = cached_token w1 ->
  token_expires_at w2 = token_expires_at w1 ->
  let now := os_time env (log w2) in
  (now < token_expires_at w1 ->
     get_auth_token env false w2 = (Ret (Some tok, None), add_event EvTime w2)) /\
  (token_expires_at w1 <= now ->
     exists r w3,
       get_auth_token env false w2 = (r, w3) /\
       log w3 = EvGet (token_url env now) :: EvTime :: log w2).
Proof.
  intros Hfirst Hct Hexp now.
  assert (Hc1 : cached_token w1 = Some tok /\ truthy (Some tok) = true).
  { destruct (get_auth_token_cases force_refresh w)
      as [[_ [Htok [_ Hrun]]] | [_ [r [w' [Hrun [_ [_ Hr]]]]]]];
      rewrite Hrun in Hfirst; inversion Hfirst; subst.
    - split; [reflexivity|exact Htok].
    - tauto. }
  destruct Hc1 as [Hc1 Htr].
  pose proof (get_auth_token_cases false w2) as Hcases. cbn zeta in Hcases.
  fold now in Hcases.
  destruct Hcases as [[_ [_ [Hlt Hrun]]] | [Hcond [r [w3 [Hrun [Hlog _]]]]]].
  - split.
    + intros _. rewrite Hrun, Hct, Hc1. reflexivity.
    + intros Hge. rewrite Hexp in Hlt. lia.
  - split.
    + intros Hlt. exfalso. rewrite Hct, Hc1, Htr, Hexp in Hcond. cbn in Hcond.
      apply Z.ltb_ge in Hcond. lia.
    + intros _. exists r, w3. auto.
Qed.

End TokenCache.

(** ** Invalidation, and the search request *)

Section SearchRequest.

Variable env : Env.

Lemma script_gets_are_gets (k : nat) (script_urls : list string) :
  Forall (fun e => is_get e = true) (script_gets k script_urls).
Proof.
  unfold script_gets. apply Forall_rev. apply Forall_forall.
  intros e Hin. apply in_map_iff in Hin as [src [<- _]]. reflexivity.
Qed.

(** Endpoint extraction only sends GET requests, starting with the homepage
    when it is not cached, and leaves every cache variable but the homepage
    alone. *)
Lemma extract_search_url_run (w : World) :
  exists o w' evs,
    extract_search_url env w = (Ret o, w') /\
    log w' = (evs ++ log w)%list /\
    Forall (fun e => is_get e = true) evs /\
    cached_token w' = cached_token w /\ token_expires_at w' = token_expires_at w /\
    cached_search_url w' = cached_search_url w /\
    cached_build_id w' = cached_build_id w /\
    (cached_homepage w = None -> exists evs0, evs = (evs0 ++ [EvGet BASE_URL])%list).
Proof.
  destruct (get_homepage_run env w) as [o [w1 [Hh [Hch [Hcase [Ht [He [Hu Hb]]]]]]]].
  assert (Hlog1 : exists evs1, log w1 = (evs1 ++ log w)%list /\
                    Forall (fun e => is_get e = true) evs1 /\
                    (cached_homepage w = None -> evs1 = [EvGet BASE_URL])).
  { destruct (cached_homepage w) as [h|].
    - destruct Hcase as [_ ->]. exists []. repeat split; auto. discriminate.
    - destruct Hcase as [Hl _]. exists [EvGet BASE_URL]. repeat split; auto. }
  destruct Hlog1 as [evs1 [Hl1 [Hg1 Hfirst]]].
  unfold extract_search_url. rewrite (bind_ret_run _ _ _ _ _ Hh).
  destruct o as [h|].
  - destruct (scan_scripts_spec env (gmatch chunk_pattern h) [] w1) as [k [w2 [Hrun [Hw _]]]].
    cbn zeta in Hrun. rewrite Hrun. subst w2.
    eexists; eexists; exists (script_gets k (gmatch chunk_pattern h) ++ evs1)%list.
    split; [reflexivity|]. cbn [prepend_events log cached_token token_expires_at
                                 cached_search_url cached_build_id].
    rewrite Hl1, app_assoc. repeat split; auto.
    + apply Forall_app. split; [apply script_gets_are_gets|exact Hg1].
    + intros Hnone. rewrite (Hfirst Hnone). eauto.
  - exists None, w1, evs1. repeat split; auto.
    intros Hnone. rewrite (Hfirst Hnone). exists []. reflexivity.
Qed.

(** Resolving the search URL always yields a URL and leaves it in the cache;
    it only sends GET requests and does not touch the token. *)
Lemma get_search_url_run (w : World) :
  exists u w' evs,
    get_search_url env w = (Ret u, w') /\
    cached_search_url w' = Some u /\
    log w' = (evs ++ log w)%list /\
    Forall (fun e => is_get e = true) evs /\
    cached_token w' = cached_token w /\ token_expires_at w' = token_expires_at w /\
    (cached_search_url w = None -> cached_homepage w = None ->
     exists evs0, evs = (evs0 ++ [EvGet BASE_URL])%list).
Proof.
  destruct (cached_search_url w) as [u|] eqn:Hc.
  - exists u, w, []. rewrite (get_search_url_cached env u w Hc).
    repeat split; auto. discriminate.
  - destruct (extract_search_url_run w) as [o [w1 [evs [Hex [Hl [Hg [Ht [He [_ [_ Hfirst]]]]]]]]]].
    pose proof (get_search_url_uncached env w w1 o Hc Hex) as Hrun. cbn zeta in Hrun.
    eexists; eexists; exists evs. split; [exact Hrun|].
    cbn. repeat split; auto.
Qed.

(** X7: after [clear_cache] nothing is reused: the next token call sends a
    token request even if the token had not expired, the next resolution of
    the search URL starts with a request of the homepage, and so does the next
    extraction of the build id. *)
Theorem clear_cache_forces_rediscovery (w : World) :
  let cleared := snd (clear_cache w) in
  (forall force_refresh, exists r w',
     get_auth_token env force_refresh cleared = (r, w') /\
     log w' = EvGet (token_url env (os_time env (log w))) :: EvTime :: log w) /\
  (exists u w' evs,
     get_search_url env cleared = (Ret u, w') /\
     log w' = (evs ++ EvGet BASE_URL :: log w)%list) /\
  (exists o w',
     extract_build_id env cleared = (Ret o, w') /\
     log w' = EvGet BASE_URL :: log w).
Proof.
  cbn zeta. set (cleared := snd (clear_cache w)).
  assert (Hlog : log cleared = log w) by reflexivity.
  split; [|split].
  - intros force_refresh.
    destruct (get_auth_token_cases env force_refresh cleared)
      as [[_ [Htok _]] | [_ [r [w' [Hrun [Hl _]]]]]]; [discriminate|].
    exists r, w'. rewrite <- Hlog. auto.
  - destruct (get_search_url_run cleared) as [u [w' [evs [Hrun [_ [Hl [_ [_ [_ Hfirst]]]]]]]]].
    destruct (Hfirst eq_refl eq_refl) as [evs0 ->].
    exists u, w', evs0. split; [exact Hrun|].
    rewrite Hl, Hlog, <- app_assoc. reflexivity.
  - destruct (build_id_run_cold env cleared eq_refl eq_refl) as [o [w' [Hrun Hl]]].
    exists o, w'. rewrite <- Hlog. auto.
Qed.

(** X8: a search sends at most one POST request, as its last request: it goes
    to the search URL that is in the cache afterwards, carries the token that
    is in the cache afterwards, and its payload is the one built from the
    query; everything sent before it is a GET.  When no token can be
    obtained, the token request is the only request and no result is
    returned. *)
Theorem search_sends_one_authenticated_post (query : string)
    (options : option SearchOptions) (w : World) :
  exists r w',
    search env query options w = (r, w') /\
    ((log w' = EvGet (token_url env (os_time env (log w))) :: EvTime :: log w /\
      forall data, r <> Ret (Some data)) \/
     exists tok u before,
       log w' = (EvPost u (Some tok) (search_payload query options) :: before ++ log w)%list /\
       Forall (fun e => is_post e = false) before /\
       truthy (Some tok) = true /\
       cached_token w' = Some tok /\
       cached_search_url w' = Some u).
Proof.
  assert (Htoken : exists r0 w1 tokevs,
            get_auth_token env false w = (r0, w1) /\
            log w1 = (tokevs ++ log w)%list /\
            Forall (fun e => is_post e = false) tokevs /\
            match r0 with
            | Ret (Some tok, _) => truthy (Some tok) = true /\ cached_token w1 = Some tok
            | _ => log w1 = EvGet (token_url env (os_time env (log w))) :: EvTime :: log w
            end).
  { destruct (get_auth_token_cases env false w)
      as [[_ [Htr [_ Hrun]]] | [_ [r0 [w1 [Hrun [Hl [_ Hr]]]]]]].
    - exists (Ret (cached_token w, None)), (add_event EvTime w), [EvTime].
      split; [exact Hrun|]. split; [reflexivity|]. split; [repeat constructor|].
      destruct (cached_token w) as [tok|] eqn:Hc; [|discriminate].
      split; [exact Htr|exact Hc].
    - exists r0, w1, [EvGet (token_url env (os_time env (log w))); EvTime].
      split; [exact Hrun|]. split; [exact Hl|]. split; [repeat constructor|].
      destruct r0 as [[[tok|] err]|e]; auto.
      destruct Hr as [_ [Htr [Hc _]]]. auto. }
  destruct Htoken as [r0 [w1 [tokevs [Hrun [Hl1 [Hnp Hr]]]]]].
  destruct r0 as [[[tok|] err]|e].
  - destruct Hr as [Htr Hc].
    destruct (get_search_url_run w1) as [u [w2 [gets [Hurl [Hcu [Hl2 [Hg [Hct _]]]]]]]].
    assert (Hpost : exists r,
              search env query options w
              = (r, add_event (EvPost u (Some tok) (search_payload query options)) w2)).
    { unfold search. rewrite (bind_ret_run _ _ _ _ _ Hrun). cbn [fst]. rewrite Htr.
      cbn [negb]. rewrite (bind_ret_run _ _ _ _ _ Hurl).
      unfold bind at 1. unfold http_request_m at 1.
      destruct (http_request env (log w2) u (Some tok) (search_payload query options))
        as [response|failure]; [|eexists; reflexivity].
      destruct (negb (status response =? 200)); [eexists; reflexivity|].
      destruct (decode_body env (body response)) as [data|]; eexists; reflexivity. }
    destruct Hpost as [r Hpost]. eexists; eexists. split; [exact Hpost|].
    right. exists tok, u, (gets ++ tokevs)%list.
    cbn [add_event log cached_token cached_search_url].
    split; [rewrite Hl2, Hl1, <- app_assoc; reflexivity|].
    split; [|rewrite Hct; auto].
    apply Forall_app. split; [|exact Hnp].
    eapply Forall_impl; [|exact Hg]. intros [] He; try reflexivity; discriminate.
  - exists (Ret None), w1. split.
    + unfold search. rewrite (bind_ret_run _ _ _ _ _ Hrun). reflexivity.
    + left. split; [exact Hr|]. discriminate.
  - exists (Raise e), w1. split.
    + unfold search. unfold bind at 1. rewrite Hrun. reflexivity.
    + left. split; [exact Hr|]. discriminate.
Qed.

End SearchRequest.

(** ** The client talks to the site only *)

Section OnSite.

Variable env : Env.

Lemma site_step {A} (g : World -> result A) (f : World -> World) :
  (forall w, cached_search_url (f w) = cached_search_url w) ->
  (forall w, exists evs, log (f w) = (evs ++ log w)%list /\ forallb on_site evs = true) ->
  stays_on_site (fun w => (g w, f w)).
Proof.
  intros Hu Hl w r w' Hs H. inversion H; subst. split; [|apply Hl].
  intros u. rewrite Hu. apply Hs.
Qed.

Lemma site_ret {A} (a : A) : stays_on_site (ret a).
Proof.
  apply (site_step (fun _ => Ret a) (fun w => w)); [reflexivity|].
  intros w. exists []. auto.
Qed.

Lemma site_lift {A} (x : result A) : stays_on_site (lift x).
Proof.
  apply (site_step (fun _ => x) (fun w => w)); [reflexivity|].
  intros w. exists []. auto.
Qed.

Lemma site_get_world : stays_on_site get_world.
Proof.
  apply (site_step (fun w => Ret w) (fun w => w)); [reflexivity|].
  intros w. exists []. auto.
Qed.

Lemma site_put (f : World -> World) :
  (forall w, cached_search_url (f w) = cached_search_url w) ->
  (forall w, log (f w) = log w) ->
  stays_on_site (put_world f).
Proof.
  intros Hu Hl. apply (site_step (fun _ => Ret tt) f); [exact Hu|].
  intros w. exists []. rewrite Hl. auto.
Qed.

Lemma site_event {A} (g : World -> result A) (e : Event) :
  on_site e = true -> stays_on_site (fun w => (g w, add_event e w)).
Proof.
  intros He. apply (site_step g (add_event e)); [reflexivity|].
  intros w. exists [e]. cbn. rewrite He. auto.
Qed.

Lemma site_bind {A B} (m : M A) (f : A -> M B) :
  stays_on_site m -> (forall a, stays_on_site (f a)) -> stays_on_site (bind m f).
Proof.
  intros Hm Hf w r w' Hs H. unfold bind in H.
  destruct (m w) as [[a|e] w1] eqn:Em.
  - destruct (Hm w _ w1 Hs Em) as [Hs1 [evs1 [Hl1 Ho1]]].
    destruct (Hf a w1 r w' Hs1 H) as [Hs2 [evs2 [Hl2 Ho2]]].
    split; [exact Hs2|]. exists (evs2 ++ evs1)%list.
    rewrite Hl2, Hl1, app_assoc, forallb_app, Ho1, Ho2. auto.
  - inversion H; subst. eapply Hm; eauto.
Qed.

Lemma site_bind_from {A} (m : M A) (w0 w1 : World) (evs1 : list Event) :
  search_url_on_site w1 -> log w1 = (evs1 ++ log w0)%list -> forallb on_site evs1 = true ->
  stays_on_site m ->
  forall r w', m w1 = (r, w') ->
    search_url_on_site w' /\
    exists evs, log w' = (evs ++ log w0)%list /\ forallb on_site evs = true.
Proof.
  intros Hs1 Hl1 Ho1 Hm r w' H.
  destruct (Hm w1 r w' Hs1 H) as [Hs2 [evs2 [Hl2 Ho2]]].
  split; [exact Hs2|]. exists (evs2 ++ evs1)%list.
  rewrite Hl2, Hl1, app_assoc, forallb_app, Ho1, Ho2. auto.
Qed.

Lemma site_http_get (path : string) : stays_on_site (http_get_m env (BASE_URL ++ path)).
Proof.
  apply (site_event (fun w => Ret (http_get env (log w) (BASE_URL ++ path)))).
  apply prefix_sapp.
Qed.

Lemma site_get_homepage : stays_on_site (get_homepage env).
Proof.
  unfold get_homepage. apply site_bind; [apply site_get_world|]. intros w.
  destruct (cached_homepage w); [apply site_ret|].
  apply site_bind.
  { rewrite <- (sapp_nil_r BASE_URL) at 1. apply site_http_get. }
  intros [response|err]; [|apply site_ret].
  destruct (negb (status response =? 200)); [apply site_ret|].
  apply site_bind; [apply site_put; reflexivity|]. intros; apply site_ret.
Qed.

Lemma site_scan_scripts (script_urls found : list string) :
  stays_on_site (scan_scripts env script_urls found).
Proof.
  revert found. induction script_urls as [|src rest IH]; intros found;
    cbn [scan_scripts]; [apply site_ret|].
  apply site_bind; [apply site_http_get|]. intros [[st [content|]]|err]; try apply IH.
  destruct (st =? 200); [|apply IH].
  destruct (scan_api_paths content (gmatch api_path_pattern content) found) as [[url|] found'];
    [apply site_ret|apply IH].
Qed.

Lemma site_extract_search_url : stays_on_site (extract_search_url env).
Proof.
  unfold extract_search_url. apply site_bind; [apply site_get_homepage|].
  intros [homepage|]; [apply site_scan_scripts|apply site_ret].
Qed.

Lemma site_set_search_url {A} (a : A) (path : string) :
  stays_on_site (bind (put_world (set_search_url (Some (BASE_URL ++ path))))
                      (fun _ => ret a)).
Proof.
  intros w r w' _ H.
  assert (E : w' = set_search_url (Some (BASE_URL ++ path)) w)
    by (unfold bind, put_world, ret in H; congruence).
  subst w'. split.
  - intros u Hu. unfold set_search_url in Hu. cbn [cached_search_url] in Hu.
    assert (E : u = BASE_URL ++ path) by congruence.
    rewrite E. apply prefix_sapp.
  - exists []. auto.
Qed.

Lemma site_get_search_url : stays_on_site (get_search_url env).
Proof.
  unfold get_search_url. apply site_bind; [apply site_get_world|]. intros w.
  destruct (cached_search_url w); [apply site_ret|].
  apply site_bind; [apply site_extract_search_url|].
  intros [path|]; apply site_set_search_url.
Qed.

Lemma site_extract_build_id : stays_on_site (extract_build_id env).
Proof.
  unfold extract_build_id. apply site_bind; [apply site_get_world|]. intros w.
  destruct (cached_build_id w); [apply site_ret|].
  apply site_bind; [apply site_get_homepage|]. intros [homepage|]; [|apply site_ret].
  destruct (match str_match ssg_manifest_pattern homepage with
            | Some b => Some b
            | None => str_match build_manifest_pattern homepage
            end); [|apply site_ret].
  apply site_bind; [apply site_put; reflexivity|]. intros; apply site_ret.
Qed.

Lemma site_fetch_game_data (game_id : option value) :
  stays_on_site (fetch_game_data env game_id).
Proof.
  unfold fetch_game_data.
  apply site_bind; [apply (site_event (fun _ => Ret tt)); reflexivity|]. intros _.
  apply site_bind; [apply site_extract_build_id|]. intros [build_id|]; [|apply site_ret].
  apply site_bind; [apply site_lift|]. intros id.
  apply site_bind; [apply site_http_get|]. intros [response|err]; [|apply site_ret].
  destruct (negb (status response =? 200)); [apply site_ret|].
  destruct (decode_body env (body response)); [apply site_lift|apply site_ret].
Qed.

Lemma site_get_auth_token (force_refresh : bool) :
  stays_on_site (get_auth_token env force_refresh).
Proof.
  unfold get_auth_token.
  apply site_bind; [apply (site_event (fun w => Ret (os_time env (log w)))); reflexivity|].
  intros now. apply site_bind; [apply site_get_world|]. intros w.
  destruct (negb force_refresh && truthy (cached_token w) && (now <? token_expires_at w));
    [apply site_ret|].
  apply site_bind; [apply site_http_get|]. intros [response|err]; [|apply site_ret].
  destruct (negb (status response =? 200)); [apply site_ret|].
  destruct (decode_body env (body response)) as [data|]; [|apply site_ret].
  apply site_bind; [apply site_lift|]. intros token.
  destruct (negb (truthy token)); [apply site_ret|].
  apply site_bind; [apply site_put; reflexivity|]. intros; apply site_ret.
Qed.

(** The search request goes to the URL [get_search_url] returns, which is
    the cached one afterwards, hence on the site. *)
Lemma site_search (query : string) (options : option SearchOptions) :
  stays_on_site (search env query options).
Proof.
  unfold search. apply site_bind; [apply site_get_auth_token|]. intros tok.
  cbn zeta. destruct (negb (truthy (fst tok))); [apply site_ret|].
  intros w r w' Hs H.
  destruct (get_search_url_run env w) as [u [w2 [gets [Hurl [Hcu _]]]]].
  destruct (site_get_search_url w _ w2 Hs Hurl) as [Hs2 [evs2 [Hl2 Ho2]]].
  rewrite (bind_ret_run _ _ _ _ _ Hurl) in H.
  assert (Hu : String.prefix BASE_URL u = true) by (apply Hs2; exact Hcu).
  refine (site_bind_from _ w w2 evs2 Hs2 Hl2 Ho2 _ r w' H).
  apply site_bind.
  - apply (site_event
             (fun w => Ret (http_request env (log w) u (fst tok) (search_payload query options)))).
    exact Hu.
  - intros [response|err]; [|apply site_ret].
    destruct (negb (status response =? 200)); [apply site_ret|].
    destruct (decode_body env (body response)); [apply site_lift|apply site_ret].
Qed.

Lemma site_build_choices (norm : string) (items : list value) :
  stays_on_site (build_choices env norm items).
Proof.
  induction items as [|element rest IH]; cbn [build_choices]; [apply site_ret|].
  apply site_bind; [apply site_lift|]. intros n.
  apply site_bind.
  { apply (site_event (fun _ => Ret (levenshtein_distance env norm n))). reflexivity. }
  intros d. apply site_bind; [apply site_lift|]. intros c.
  apply site_bind; [apply site_lift|]. intros c'.
  apply site_bind; [exact IH|]. intros; apply site_ret.
Qed.

Lemma site_steam_id_checks (sid : number) (candidates : list choice) :
  stays_on_site (steam_id_checks env sid candidates).
Proof.
  induction candidates as [|candidate rest IH]; cbn [steam_id_checks]; [apply site_ret|].
  apply site_bind; [apply site_lift|]. intros game_id.
  apply site_bind; [apply site_fetch_game_data|]. intros [game_data|]; [|exact IH].
  apply site_bind; [apply site_lift|]. intros ps.
  destruct (equals_number ps sid); [apply site_ret|exact IH].
Qed.

Lemma site_closest_match norm steam_app_id items :
  stays_on_site (closest_match env norm steam_app_id items).
Proof.
  unfold closest_match.
  apply site_bind; [apply site_build_choices|]. intros choices.
  apply site_bind.
  - destruct steam_app_id as [sid|]; [|apply site_ret].
    destruct (rank env choices); [apply site_ret|apply site_steam_id_checks].
  - intros [confirmed|]; [apply site_ret|].
    destruct (rank env choices); apply site_ret.
Qed.

(** X9: a resolution sends requests to URLs below [BASE_URL] only, whatever
    the homepage, the scripts and the responses contain, provided the cached
    search URL, if any, is below [BASE_URL]; and that stays so afterwards. *)
Theorem client_talks_to_site_only (app_name : string) (steam_app_id : option number)
    (w w' : World) (r : result (option value)) :
  search_url_on_site w ->
  search_best_match env app_name steam_app_id w = (r, w') ->
  search_url_on_site w' /\
  exists evs, log w' = (evs ++ log w)%list /\ forallb on_site evs = true.
Proof.
  revert w w' r.
  assert (Hsite : stays_on_site (search_best_match env app_name steam_app_id)).
  { unfold search_best_match.
    apply site_bind; [apply site_search|].
    intros [search_results|]; [|apply site_ret].
    apply site_bind; [apply site_lift|]. intros results.
    destruct results as [[b|n|s|items fields|]|]; try apply site_lift.
    destruct items as [|first others]; [apply site_ret|].
    cbn zeta. apply site_bind; [apply site_lift|].
    intros [exact|]; [apply site_ret|apply site_closest_match]. }
  intros w w' r Hs H. exact (Hsite w r w' Hs H).
Qed.

Lemma extract_search_url_endpoint (w w' : World) (path : string) :
  extract_search_url env w = (Ret (Some path), w') ->
  exists e, path = ("api/" ++ e)%string /\ e <> "" /\
            all_chars is_word_char e = true /\ mem e SKIP_ENDPOINTS = false.
Proof.
  intros H. unfold extract_search_url in H.
  destruct (get_homepage_run env w) as [o [w1 [Hh _]]].
  rewrite (bind_ret_run _ _ _ _ _ Hh) in H.
  destruct o as [h|]; [|discriminate].
  destruct (scan_scripts_spec env (gmatch chunk_pattern h) [] w1) as [k [w2 [Hrun _]]].
  cbn zeta in Hrun. rewrite Hrun in H.
  destruct (discovered [] (fetched_bundles env (gmatch chunk_pattern h) (log w1)))
    as [c|] eqn:Hd; [|discriminate].
  cbn [option_map] in H.
  assert (E : path = api_of c) by congruence.
  destruct (discovered_accepted _ _ _ Hd) as [_ [_ [Hm [Hskip _]]]].
  destruct (endpoint_pattern_shape _ _ Hm) as [Hne [Hw _]].
  exists (endpoint c). rewrite E. unfold api_of. auto.
Qed.

(** X10: resolving the search URL always yields a URL that is in the cache
    afterwards; unless it was cached before, it is [BASE_URL], [api/] and a
    non-empty name of letters, digits and underscores that is not on the skip
    list: nothing else of a script ends up in the URL the token is sent to. *)
Theorem search_url_is_site_endpoint (w : World) :
  exists u w',
    get_search_url env w = (Ret u, w') /\
    cached_search_url w' = Some u /\
    (cached_search_url w = Some u \/ site_endpoint u).
Proof.
  destruct (cached_search_url w) as [u|] eqn:Hc.
  - exists u, w. rewrite (get_search_url_cached env u w Hc). auto.
  - destruct (extract_search_url_returns env w) as [o [w1 Hex]].
    pose proof (get_search_url_uncached env w w1 o Hc Hex) as Hrun. cbn zeta in Hrun.
    eexists; eexists. split; [exact Hrun|]. split; [reflexivity|]. right.
    destruct o as [path|].
    + destruct (extract_search_url_endpoint w w1 path Hex) as [e [-> [Hne [Hw Hs]]]].
      exists e. auto.
    + exists "search". repeat split; try reflexivity. discriminate.
Qed.

End OnSite.

Lemma client_talks_to_site_only_witness :
  search_url_on_site initial_world /\
  search_url_on_site
    (snd (search_best_match (detail_env (detail_page [detail_record 1 "Dark Souls II" 1]))
            "Dark Souls 3" (Some steam_id_example) initial_world)) /\
  exists evs,
    log (snd (search_best_match (detail_env (detail_page [detail_record 1 "Dark Souls II" 1]))
                "Dark Souls 3" (Some steam_id_example) initial_world))
    = (evs ++ log initial_world)%list /\
    forallb on_site evs = true.
Proof.
  assert (Hs : search_url_on_site initial_world) by (intros u Hu; discriminate Hu).
  split; [exact Hs|].
  exact (client_talks_to_site_only
           (detail_env (detail_page [detail_record 1 "Dark Souls II" 1]))
           "Dark Souls 3" (Some steam_id_example) initial_world _ _ Hs
           (surjective_pairing _)).
Defined.


(** ** What a resolution returns *)

Section ResolutionResult.

Variable env : Env.

Lemma find_exact_match_some (n : string) (items : list value) (it : value) :
  find_exact_match env n items = Ret (Some it) ->
  In it items /\ normalized_name env it = Ret n.
Proof.
  induction items as [|x rest IH]; cbn [find_exact_match]; [discriminate|].
  destruct (normalized_name env x) as [m|e] eqn:Hn; [|discriminate].
  destruct (String.eqb m n) eqn:Heq.
  - intros H. assert (E : it = x) by congruence. subst x.
    apply String.eqb_eq in Heq. subst m. split; [left; reflexivity|exact Hn].
  - intros H. destruct (IH H) as [Hin Hnm]. split; [right; exact Hin|exact Hnm].
Qed.

(** The two ways a resolution returns an item: from the exact-name loop, or
    from the part after it. *)
Lemma search_best_match_cases (app_name : string) (steam_app_id : option number)
    (w w' : World) (it : value) :
  search_best_match env app_name steam_app_id w = (Ret (Some it), w') ->
  exists data items fields w1,
    search env app_name None w = (Ret (Some data), w1) /\
    index data "data" = Ret (Some (VTable items fields)) /\
    validate_items items = Ret true /\
    ((find_exact_match env (normalize env app_name) items = Ret (Some it) /\ w' = w1) \/
     (find_exact_match env (normalize env app_name) items = Ret None /\
      closest_match env (normalize env app_name) steam_app_id items w1
      = (Ret (Some it), w'))).
Proof.
  intros H. unfold search_best_match in H. unfold bind at 1 in H.
  destruct (search env app_name None w) as [[[data|]|e] w1] eqn:Hs;
    [|discriminate|discriminate].
  destruct (search_returns_validated _ _ _ _ _ _ Hs) as [items [fields [Hidx Hval]]].
  exists data, items, fields, w1. split; [reflexivity|]. split; [exact Hidx|].
  split; [exact Hval|].
  unfold bind at 1, lift at 1 in H. rewrite Hidx in H.
  destruct items as [|first others]; [discriminate|]. cbn zeta in H.
  unfold bind at 1, lift at 1 in H.
  destruct (find_exact_match env (normalize env app_name) (first :: others))
    as [[exact|]|e]; [|right; auto|discriminate].
  left. unfold ret in H. split; congruence.
Qed.

Lemma steam_id_checks_some (sid : number) (candidates : list choice)
    (w w' : World) (it : value) :
  steam_id_checks env sid candidates w = (Ret (Some it), w') ->
  exists c game_id w0 game_data,
    In c candidates /\ item c = it /\
    index it "game_id" = Ret game_id /\
    fetch_game_data env game_id w0 = (Ret (Some game_data), w') /\
    index game_data "profile_steam" = Ret (Some (VNum sid)).
Proof.
  revert w. induction candidates as [|candidate rest IH]; intros w H;
    cbn [steam_id_checks] in H; [discriminate|].
  unfold bind at 1, lift at 1 in H.
  destruct (index (item candidate) "game_id") as [game_id|e] eqn:Hid; [|discriminate].
  unfold bind at 1 in H.
  destruct (fetch_game_data env game_id w) as [[[game_data|]|e] w1] eqn:Hf;
    [| |discriminate].
  - unfold bind at 1, lift at 1 in H.
    destruct (index game_data "profile_steam") as [ps|e] eqn:Hps; [|discriminate].
    destruct (equals_number ps sid) eqn:Heq.
    + unfold ret in H. assert (E1 : item candidate = it) by congruence.
      assert (E2 : w1 = w') by congruence. subst w1.
      exists candidate, game_id, w, game_data.
      split; [left; reflexivity|]. split; [exact E1|]. rewrite <- E1.
      split; [exact Hid|]. split; [exact Hf|].
      destruct ps as [[b|m|s|arr fs|]|]; try discriminate.
      cbn [equals_number] in Heq. apply num_eqb_eq in Heq. subst m. exact Hps.
    + destruct (IH _ H) as [c [gid [w0 [gd [Hin Hrest]]]]].
      exists c, gid, w0, gd. split; [right; exact Hin|exact Hrest].
  - destruct (IH _ H) as [c [gid [w0 [gd [Hin Hrest]]]]].
    exists c, gid, w0, gd. split; [right; exact Hin|exact Hrest].
Qed.

(** The two ways the part after the exact-name loop returns an item: a
    confirmation by Steam id among the first three ranked choices, or the
    first ranked choice. *)
Lemma closest_match_cases (norm : string) (steam_app_id : option number)
    (items : list value) (w w' : World) (it : value) :
  closest_match env norm steam_app_id items w = (Ret (Some it), w') ->
  exists choices w1,
    build_choices env norm items w = (Ret choices, w1) /\
    ((exists sid, steam_app_id = Some sid /\
        steam_id_checks env sid (firstn max_steam_id_checks (rank env choices)) w1
        = (Ret (Some it), w')) \/
     (exists best rest, rank env choices = best :: rest /\ it = item best)).
Proof.
  intros H. unfold closest_match in H. unfold bind at 1 in H.
  destruct (build_choices env norm items w) as [[choices|e] w1] eqn:Hb; [|discriminate].
  exists choices, w1. split; [reflexivity|]. cbn zeta in H.
  unfold bind at 1 in H.
  destruct steam_app_id as [sid|].
  - destruct (rank env choices) as [|best rest] eqn:Hr.
    + unfold ret in H. discriminate.
    + destruct (steam_id_checks env sid (firstn max_steam_id_checks (best :: rest)) w1)
        as [[[confirmed|]|e] w2] eqn:Hc; [| |discriminate].
      * left. exists sid. split; [reflexivity|]. unfold ret in H.
        assert (E1 : confirmed = it) by congruence.
        assert (E2 : w2 = w') by congruence. subst. exact Hc.
      * right. exists best, rest. split; [reflexivity|]. unfold ret in H. congruence.
  - right. unfold ret in H.
    destruct (rank env choices) as [|best rest]; [discriminate|].
    exists best, rest. split; [reflexivity|]. congruence.
Qed.

Lemma Forall2_in_left {A B} (R : A -> B -> Prop) (l : list A) (l' : list B) (x : A) :
  Forall2 R l l' -> In x l -> exists y, In y l' /\ R x y.
Proof.
  induction 1 as [|a b l l' Hab _ IH]; intros Hin; [destruct Hin|].
  destruct Hin as [<-|Hin].
  - exists b. split; [left; reflexivity|exact Hab].
  - destruct (IH Hin) as [y [Hy Hr]]. exists y. split; [right; exact Hy|exact Hr].
Qed.

Lemma Forall2_in_right {A B} (R : A -> B -> Prop) (l : list A) (l' : list B) (y : B) :
  Forall2 R l l' -> In y l' -> exists x, In x l /\ R x y.
Proof.
  induction 1 as [|a b l l' Hab _ IH]; intros Hin; [destruct Hin|].
  destruct Hin as [<-|Hin].
  - exists a. split; [left; reflexivity|exact Hab].
  - destruct (IH Hin) as [x [Hx Hr]]. exists x. split; [right; exact Hx|exact Hr].
Qed.

Lemma in_firstn {A} (n : nat) (l : list A) (x : A) : In x (firstn n l) -> In x l.
Proof.
  revert l. induction n as [|n IH]; intros [|a l] H; cbn in H; try contradiction.
  destruct H as [<-|H]; [left; reflexivity|right; apply IH; exact H].
Qed.

(** The choice built for an element is determined by the element. *)
Lemma choice_of_keys (norm : string) (element : value) (c c' : choice) :
  choice_of env norm element c -> choice_of env norm element c' ->
  distance c = distance c' /\ comp_all_count c = comp_all_count c'.
Proof.
  intros [_ [[name [Hn Hd]] Hc]] [_ [[name' [Hn' Hd']] Hc']].
  rewrite Hn in Hn'. rewrite Hc in Hc'.
  assert (E1 : name = name') by congruence.
  assert (E2 : comp_all_count c = comp_all_count c') by congruence.
  subst name'. split; [congruence|exact E2].
Qed.

(** No choice is strictly before the first ranked one. *)
Lemma rank_head_minimal (choices : list choice) (best : choice) (rest : list choice) :
  sorts (table_sort env) ->
  rank env choices = best :: rest ->
  In best choices /\ forall b, In b choices -> choice_before b best = false.
Proof.
  intros Hsort Hr.
  destruct (Hsort choice choice_before choices choice_before_strict_weak_order)
    as [Hperm Hord].
  fold (rank env choices) in Hperm, Hord. rewrite Hr in Hperm, Hord. split.
  - apply (Permutation_in _ (Permutation_sym Hperm)). left. reflexivity.
  - intros b Hb. apply (Permutation_in _ Hperm) in Hb.
    apply In_nth_error in Hb as [j Hj]. destruct j as [|j].
    + cbn in Hj. assert (E : best = b) by congruence. subst b.
      apply choice_before_strict_weak_order.
    + apply (Hord 0%nat (S j) best b); [lia|reflexivity|exact Hj].
Qed.

(** X11: a resolution never makes up a result: the item it returns is an
    element of the result array of the search response it received, with a
    number as catalog id, a string as name and a number as popularity count.
    For the results after the exact-name loop this rests on [table.sort]
    rearranging its argument. *)
Theorem resolution_returns_search_item (app_name : string)
    (steam_app_id : option number) (w w' : World) (it : value) :
  sorts (table_sort env) ->
  search_best_match env app_name steam_app_id w = (Ret (Some it), w') ->
  exists data items fields w1,
    search env app_name None w = (Ret (Some data), w1) /\
    index data "data" = Ret (Some (VTable items fields)) /\
    In it items /\ item_well_typed it = true.
Proof.
  intros Hsort H.
  destruct (search_best_match_cases _ _ _ _ _ H)
    as [data [items [fields [w1 [Hs [Hidx [Hval Hcases]]]]]]].
  exists data, items, fields, w1. split; [exact Hs|]. split; [exact Hidx|].
  assert (Hin : In it items).
  { destruct Hcases as [[Hex _]|[_ Hcl]].
    - apply (find_exact_match_some _ _ _ Hex).
    - destruct (closest_match_cases _ _ _ _ _ _ Hcl) as [choices [w2 [Hb Hc]]].
      pose proof (build_choices_spec env _ _ _ _ _ Hb) as Hall.
      destruct (Hsort choice choice_before choices choice_before_strict_weak_order)
        as [Hperm _].
      fold (rank env choices) in Hperm.
      assert (Hc' : exists c, In c (rank env choices) /\ item c = it).
      { destruct Hc as [[sid [_ Hchk]]|[best [rest [Hr ->]]]].
        - destruct (steam_id_checks_some _ _ _ _ _ Hchk) as [c [_ [_ [_ [Hc [Hi _]]]]]].
          exists c. split; [|exact Hi]. eapply in_firstn. exact Hc.
        - exists best. rewrite Hr. split; [left|]; reflexivity. }
      destruct Hc' as [c [Hc' Hi]].
      apply (Permutation_in _ (Permutation_sym Hperm)) in Hc'.
      destruct (Forall2_in_right _ _ _ _ Hall Hc') as [x [Hx [Hitem _]]].
      rewrite <- Hi, Hitem. exact Hx. }
  split; [exact Hin|].
  apply validate_items_well_typed in Hval.
  rewrite forallb_forall in Hval. apply Hval. exact Hin.
Qed.

(** X12: every result of a resolution is justified in one of three ways: its
    normalized name equals the normalized title; or a Steam id was supplied
    and the detail record fetched for the result, in the last step of the
    resolution, carries that Steam id; or no element of the search response
    has a smaller edit distance, or the same distance and a greater
    popularity count. *)
Theorem resolution_result_is_justified (app_name : string)
    (steam_app_id : option number) (w w' : World) (it : value) :
  sorts (table_sort env) ->
  search_best_match env app_name steam_app_id w = (Ret (Some it), w') ->
  exists data items fields w1,
    search env app_name None w = (Ret (Some data), w1) /\
    index data "data" = Ret (Some (VTable items fields)) /\
    (normalized_name env it = Ret (normalize env app_name) \/
     (exists sid game_id w0 game_data,
        steam_app_id = Some sid /\
        index it "game_id" = Ret game_id /\
        fetch_game_data env game_id w0 = (Ret (Some game_data), w') /\
        index game_data "profile_steam" = Ret (Some (VNum sid))) \/
     (exists c,
        choice_of env (normalize env app_name) it c /\
        forall element c',
          In element items -> choice_of env (normalize env app_name) element c' ->
          ~ key_before c' c)).
Proof.
  intros Hsort H.
  destruct (search_best_match_cases _ _ _ _ _ H)
    as [data [items [fields [w1 [Hs [Hidx [_ Hcases]]]]]]].
  exists data, items, fields, w1. split; [exact Hs|]. split; [exact Hidx|].
  destruct Hcases as [[Hex _]|[_ Hcl]].
  { left. apply (find_exact_match_some _ _ _ Hex). }
  right.
  destruct (closest_match_cases _ _ _ _ _ _ Hcl) as [choices [w2 [Hb Hc]]].
  pose proof (build_choices_spec env _ _ _ _ _ Hb) as Hall.
  destruct Hc as [[sid [-> Hchk]]|[best [rest [Hr ->]]]].
  - left. destruct (steam_id_checks_some _ _ _ _ _ Hchk)
      as [c [game_id [w0 [game_data [_ [_ Hrest]]]]]].
    exists sid, game_id, w0, game_data. split; [reflexivity|exact Hrest].
  - right. destruct (rank_head_minimal _ _ _ Hsort Hr) as [Hbest Hmin].
    destruct (Forall2_in_right _ _ _ _ Hall Hbest) as [x [_ Hx]].
    exists best. split.
    + assert (E : item best = x) by apply Hx. rewrite E. exact Hx.
    + intros element c' Hin Hc' Hk.
      destruct (Forall2_in_left _ _ _ _ Hall Hin) as [c0 [Hc0 Hel]].
      destruct (choice_of_keys _ _ _ _ Hc' Hel) as [Ed Ec].
      assert (Hk0 : key_before c0 best).
      { unfold key_before in *. rewrite <- Ed, <- Ec. exact Hk. }
      apply choice_before_key in Hk0. rewrite (Hmin c0 Hc0) in Hk0. discriminate.
Qed.

End ResolutionResult.

(** ** The request budget of a resolution *)

Section Budget.

Variable env : Env.
Variable potential : World -> nat.
Hypothesis potential_event : forall e w, potential (add_event e w) = potential w.
Hypothesis potential_token : forall t x w, potential (set_token t x w) = potential w.
Hypothesis potential_homepage : forall h w, potential (set_homepage h w) = potential w.

Lemma costs_ret {A} (a : A) : costs potential (fun _ => 0%nat) (ret a).
Proof. intros w r w' H. inversion H; subst. lia. Qed.

Lemma costs_lift {A} (x : result A) : costs potential (fun _ => 0%nat) (lift x).
Proof. intros w r w' H. inversion H; subst. lia. Qed.

Lemma costs_get_world : costs potential (fun _ => 0%nat) get_world.
Proof. intros w r w' H. inversion H; subst. lia. Qed.

Lemma costs_weaken {A} (c c' : result A -> nat) (m : M A) :
  (forall r, (c r <= c' r)%nat) -> costs potential c m -> costs potential c' m.
Proof. intros Hc Hm w r w' H. specialize (Hm w r w' H). specialize (Hc r). lia. Qed.

Lemma costs_free {A} (n : nat) (m : M A) :
  costs potential (fun _ => 0%nat) m -> costs potential (fun _ => n) m.
Proof. apply costs_weaken. intros; lia. Qed.

Lemma costs_bind {A B} (n : nat) (c : result A -> nat) (k : A -> nat)
    (m : M A) (f : A -> M B) :
  costs potential c m -> (forall a, costs potential (fun _ => k a) (f a)) ->
  (forall a, (c (Ret a) + k a <= n)%nat) -> (forall e, (c (Raise e) <= n)%nat) ->
  costs potential (fun _ => n) (bind m f).
Proof.
  intros Hm Hf Hn He w r w' H. unfold bind in H.
  destruct (m w) as [[a|e] w1] eqn:Em.
  - specialize (Hm w _ w1 Em). specialize (Hf a w1 r w' H). specialize (Hn a).
    cbn beta in *. lia.
  - inversion H; subst. specialize (Hm w _ w' Em). specialize (He e). cbn beta in *. lia.
Qed.

Lemma costs_seq {A B} (n k : nat) (m : M A) (f : A -> M B) :
  costs potential (fun _ => n) m -> (forall a, costs potential (fun _ => k) (f a)) ->
  costs potential (fun _ => (n + k)%nat) (bind m f).
Proof.
  intros Hm Hf. apply (costs_bind (n + k) (fun _ => n) (fun _ => k)); auto; intros; lia.
Qed.

Lemma costs_event {A} (g : World -> result A) (e : Event) :
  costs potential (fun _ => if is_network e then 1%nat else 0%nat)
        (fun w => (g w, add_event e w)).
Proof.
  intros w r w' H. inversion H; subst. rewrite potential_event.
  unfold requests, add_event. cbn [log filter].
  destruct (is_network e); cbn [List.length]; lia.
Qed.

Lemma costs_put (f : World -> World) :
  (forall w, log (f w) = log w) ->
  (forall w, (potential (f w) <= potential w)%nat) ->
  costs potential (fun _ => 0%nat) (put_world f).
Proof.
  intros Hl Hb w r w' H. inversion H; subst. rewrite Hl. specialize (Hb w). lia.
Qed.

Lemma costs_get_homepage : costs potential (fun _ => 1%nat) (get_homepage env).
Proof.
  unfold get_homepage. apply (costs_seq 0 1); [apply costs_get_world|]. intros w.
  destruct (cached_homepage w); [apply costs_free, costs_ret|].
  apply (costs_seq 1 0); [apply (costs_event _ (EvGet BASE_URL))|].
  intros [response|err]; [|apply costs_ret].
  destruct (negb (status response =? 200)); [apply costs_ret|].
  apply (costs_seq 0 0); [|intros; apply costs_ret].
  apply costs_put; [reflexivity|]. intros w0. rewrite potential_homepage. lia.
Qed.

Lemma costs_build_choices (norm : string) (items : list value) :
  costs potential (fun _ => 0%nat) (build_choices env norm items).
Proof.
  induction items as [|element rest IH]; cbn [build_choices]; [apply costs_ret|].
  apply (costs_seq 0 0); [apply costs_lift|]. intros n.
  apply (costs_seq 0 0).
  { apply (costs_event (fun _ => Ret (levenshtein_distance env norm n))
             (EvLevenshtein norm n)). }
  intros d. apply (costs_seq 0 0); [apply costs_lift|]. intros c.
  apply (costs_seq 0 0); [apply costs_lift|]. intros c'.
  apply (costs_seq 0 0); [exact IH|]. intros; apply costs_ret.
Qed.

Lemma costs_get_auth_token (force_refresh : bool) :
  costs potential (fun _ => 1%nat) (get_auth_token env force_refresh).
Proof.
  unfold get_auth_token.
  apply (costs_seq 0 1); [apply (costs_event _ EvTime)|]. intros now.
  apply (costs_seq 0 1); [apply costs_get_world|]. intros w.
  destruct (negb force_refresh && truthy (cached_token w) && (now <? token_expires_at w));
    [apply costs_free, costs_ret|].
  apply (costs_seq 1 0); [apply (costs_event _ (EvGet (token_url env now)))|].
  intros [response|err]; [|apply costs_ret].
  destruct (negb (status response =? 200)); [apply costs_ret|].
  destruct (decode_body env (body response)) as [data|]; [|apply costs_ret].
  apply (costs_seq 0 0); [apply costs_lift|]. intros token.
  destruct (negb (truthy token)); [apply costs_ret|].
  apply (costs_seq 0 0); [|intros; apply costs_ret].
  apply costs_put; [reflexivity|]. intros w0. rewrite potential_token. lia.
Qed.

(** With the search URL cached, a search sends at most the token request and
    the search request. *)
Lemma search_budget (u query : string) (options : option SearchOptions)
    (w w' : World) (r : result (option value)) :
  cached_search_url w = Some u ->
  search env query options w = (r, w') ->
  (requests (log w') + potential w' <= requests (log w) + potential w + 2)%nat.
Proof.
  intros Hc H. unfold search in H. unfold bind at 1 in H.
  destruct (get_auth_token env false w) as [[tok|e] w1] eqn:Ht.
  - pose proof (costs_get_auth_token false w _ w1 Ht) as Hcost.
    destruct (keeps_url_get_auth_token env u false w _ w1 Hc Ht) as [Hc1 _].
    cbn zeta in H. cbn beta in Hcost.
    destruct (negb (truthy (fst tok))); [inversion H; subst; lia|].
    rewrite (bind_ret_run _ _ _ _ _ (get_search_url_cached env u w1 Hc1)) in H.
    assert (Hrest : costs potential (fun _ => (1 + 0)%nat)
              (bind (http_request_m env u (fst tok) (search_payload query options))
                 (fun r0 =>
                    match r0 with
                    | HttpOk response =>
                        if negb (status response =? 200) then ret None
                        else match decode_body env (body response) with
                             | Some data => lift (check_search_response data)
                             | None => ret None
                             end
                    | HttpFail _ => ret None
                    end))).
    { apply costs_seq;
        [apply (costs_event _ (EvPost u (fst tok) (search_payload query options)))|].
      intros [response|err]; [|apply costs_ret].
      destruct (negb (status response =? 200)); [apply costs_ret|].
      destruct (decode_body env (body response)); [apply costs_lift|apply costs_ret]. }
    specialize (Hrest w1 r w' H). cbn beta in Hrest. lia.
  - inversion H; subst. pose proof (costs_get_auth_token false w _ w' Ht) as Hcost.
    cbn beta in Hcost. lia.
Qed.

(** Without a Steam id the part after the exact-name loop sends nothing. *)
Lemma costs_closest_match_without_id (norm : string) (items : list value) :
  costs potential (fun _ => 0%nat) (closest_match env norm None items).
Proof.
  unfold closest_match.
  apply (costs_seq 0 0); [apply costs_build_choices|]. intros choices. cbn zeta.
  apply (costs_seq 0 0); [apply costs_ret|].
  intros [confirmed|]; [apply costs_ret|].
  destruct (rank env choices); apply costs_ret.
Qed.

(** The budget of a resolution, from the budget of the part after the
    exact-name loop. *)
Lemma search_best_match_budget (n : nat) (u app_name : string)
    (steam_app_id : option number) (w w' : World) (r : result (option value)) :
  (forall norm items,
     costs potential (fun _ => n) (closest_match env norm steam_app_id items)) ->
  cached_search_url w = Some u ->
  search_best_match env app_name steam_app_id w = (r, w') ->
  (requests (log w') + potential w' <= requests (log w) + potential w + (2 + n))%nat.
Proof.
  intros Hclosest Hc H.
  unfold search_best_match in H. unfold bind at 1 in H.
  destruct (search env app_name None w) as [[search_results|e] w1] eqn:Hs.
  - pose proof (search_budget u _ _ _ _ _ Hc Hs) as H1.
    destruct search_results as [search_results|]; [|inversion H; subst; lia].
    assert (Hrest : costs potential (fun _ => n)
              (results <- lift (index search_results "data") ;;
               match results with
               | Some (VTable items _) =>
                   match items with
                   | [] => ret None
                   | _ :: _ =>
                       exact <- lift (find_exact_match env (normalize env app_name) items) ;;
                       match exact with
                       | Some item => ret (Some item)
                       | None => closest_match env (normalize env app_name) steam_app_id items
                       end
                   end
               | _ => lift (Raise (BadArgument "ipairs" (type_of results)))
               end)%lua).
    { apply (costs_weaken (fun _ => (0 + n)%nat)); [intros; lia|].
      apply costs_seq; [apply costs_lift|]. intros results.
      destruct results as [[b|x|s|items fields|]|]; try (apply costs_free, costs_lift).
      destruct items as [|first others]; [apply costs_free, costs_ret|].
      apply (costs_weaken (fun _ => (0 + n)%nat)); [intros; lia|].
      apply costs_seq; [apply costs_lift|].
      intros [exact|]; [apply costs_free, costs_ret|apply Hclosest]. }
    specialize (Hrest w1 r w' H). cbn beta in Hrest. lia.
  - inversion H; subst. pose proof (search_budget u _ _ _ _ _ Hc Hs) as H1. lia.
Qed.

End Budget.

Section RequestBudget.

Variable env : Env.

Lemma build_id_missing_event (e : Event) (w : World) :
  build_id_missing (add_event e w) = build_id_missing w.
Proof. reflexivity. Qed.

Lemma build_id_missing_token (t : option value) (x : Z) (w : World) :
  build_id_missing (set_token t x w) = build_id_missing w.
Proof. reflexivity. Qed.

Lemma build_id_missing_homepage (h : option string) (w : World) :
  build_id_missing (set_homepage h w) = build_id_missing w.
Proof. reflexivity. Qed.

(** Finding the build id costs nothing when it succeeds: the homepage
    request it may take is paid for by the build id being cached
    afterwards. *)
Lemma costs_extract_build_id :
  costs build_id_missing (fun r => match r with Ret (Some _) => 0%nat | _ => 1%nat end)
        (extract_build_id env).
Proof.
  intros w r w' H. unfold extract_build_id in H.
  unfold bind at 1, get_world at 1 in H.
  destruct (cached_build_id w) as [b|] eqn:Hb.
  { inversion H; subst. lia. }
  destruct (get_homepage_run env w) as [o [w1 [Hh [_ [_ [_ [_ [_ Hbid]]]]]]]].
  rewrite (bind_ret_run _ _ _ _ _ Hh) in H.
  pose proof (costs_get_homepage env build_id_missing build_id_missing_event
                build_id_missing_homepage w _ w1 Hh) as Hc.
  unfold build_id_missing in *. rewrite Hbid, Hb in Hc. rewrite Hb.
  destruct o as [h|]; [|inversion H; subst; rewrite Hbid, Hb; lia].
  destruct (match str_match ssg_manifest_pattern h with
            | Some b => Some b
            | None => str_match build_manifest_pattern h
            end) as [b|]; [|inversion H; subst; rewrite Hbid, Hb; lia].
  inversion H; subst. cbn [set_build_id cached_build_id log]. lia.
Qed.

(** A detail fetch sends at most one request beyond the homepage request
    that finds the build id. *)
Lemma costs_fetch_game_data (game_id : option value) :
  costs build_id_missing (fun _ => 1%nat) (fetch_game_data env game_id).
Proof.
  unfold fetch_game_data.
  apply (costs_seq _ 0 1);
    [apply (costs_event _ build_id_missing_event (fun _ => Ret tt)
              (EvFetchGameData game_id))|].
  intros _.
  apply (costs_bind _ 1 _ (fun o => match o with Some _ => 1%nat | None => 0%nat end)
           _ _ costs_extract_build_id).
  - intros [build_id|]; [|apply costs_ret].
    apply (costs_seq _ 0 1); [apply costs_lift|]. intros id.
    apply (costs_seq _ 1 0);
      [apply (costs_event _ build_id_missing_event _ (EvGet (game_url build_id id)))|].
    intros [response|err]; [|apply costs_ret].
    destruct (negb (status response =? 200)); [apply costs_ret|].
    destruct (decode_body env (body response)); [apply costs_lift|apply costs_ret].
  - intros [b|]; lia.
  - intros; lia.
Qed.

Lemma costs_steam_id_checks (sid : number) (candidates : list choice) :
  costs build_id_missing (fun _ => List.length candidates)
        (steam_id_checks env sid candidates).
Proof.
  induction candidates as [|candidate rest IH]; cbn [steam_id_checks List.length];
    [apply costs_ret|].
  apply (costs_seq _ 0 (S (List.length rest)));
    [apply costs_lift|]. intros game_id.
  apply (costs_seq _ 1 (List.length rest));
    [apply costs_fetch_game_data|].
  intros [game_data|]; [|exact IH].
  apply (costs_seq _ 0 (List.length rest));
    [apply costs_lift|]. intros ps.
  destruct (equals_number ps sid); [|exact IH].
  apply costs_free, costs_ret.
Qed.

Lemma firstn_length_le {A} (n : nat) (l : list A) : (List.length (firstn n l) <= n)%nat.
Proof.
  revert l. induction n as [|n IH]; intros [|a l]; cbn; try lia.
  specialize (IH l). lia.
Qed.

Lemma costs_closest_match (norm : string) (steam_app_id : option number)
    (items : list value) :
  costs build_id_missing (fun _ => 3%nat) (closest_match env norm steam_app_id items).
Proof.
  unfold closest_match.
  apply (costs_weaken _ (fun _ => (0 + (3 + 0))%nat)); [intros; lia|].
  apply costs_seq; [apply (costs_build_choices _ _ build_id_missing_event)|].
  intros choices. cbn zeta.
  apply costs_seq.
  - destruct steam_app_id as [sid|]; [|apply costs_free, costs_ret].
    destruct (rank env choices) as [|best rest] eqn:Hr; [apply costs_free, costs_ret|].
    eapply costs_weaken; [|apply costs_steam_id_checks].
    intros r. cbn beta. apply (firstn_length_le max_steam_id_checks).
  - intros [confirmed|]; [apply costs_ret|].
    destruct (rank env choices); apply costs_ret.
Qed.

(** X13: with the search URL cached, a resolution sends at most six HTTP
    requests: the token request, the search request, the homepage request that
    finds the build id and three detail requests; at most five when the build
    id is cached too, and at most two when no Steam id is supplied. *)
Theorem resolution_request_budget (u app_name : string) (steam_app_id : option number)
    (w w' : World) (r : result (option value)) :
  cached_search_url w = Some u ->
  search_best_match env app_name steam_app_id w = (r, w') ->
  (requests (log w') <= requests (log w) + 6)%nat /\
  (cached_build_id w <> None -> (requests (log w') <= requests (log w) + 5)%nat) /\
  (steam_app_id = None -> (requests (log w') <= requests (log w) + 2)%nat).
Proof.
  intros Hc H.
  pose proof (search_best_match_budget env build_id_missing build_id_missing_event
                build_id_missing_token 3 u app_name
                steam_app_id w w' r (fun norm items => costs_closest_match norm _ items)
                Hc H) as Hb.
  unfold build_id_missing in Hb.
  split; [|split].
  - destruct (cached_build_id w), (cached_build_id w'); lia.
  - intros Hcached. destruct (cached_build_id w), (cached_build_id w'); try lia; congruence.
  - intros ->.
    pose proof (search_best_match_budget env (fun _ => 0%nat)
                  (fun _ _ => eq_refl) (fun _ _ _ => eq_refl)
                  0 u app_name None w w' r
                  (costs_closest_match_without_id env (fun _ => 0%nat)
                     (fun _ _ => eq_refl))
                  Hc H) as H0.
    lia.
Qed.

End RequestBudget.

(** ** The requests of the endpoint discovery *)

Section DiscoveryRequests.

Variable env : Env.

Lemma script_gets_chunk_scripts (k : nat) (homepage : string) (e : Event) :
  In e (script_gets k (gmatch chunk_pattern homepage)) -> chunk_script_request e.
Proof.
  unfold script_gets. intros Hin. apply in_rev in Hin.
  apply in_map_iff in Hin as [src [<- Hsrc]]. apply in_firstn in Hsrc.
  destruct (chunk_pattern_shape _ _ Hsrc) as [x [-> [Hne Hq]]].
  exists x. split; [reflexivity|]. split; assumption.
Qed.

(** X14: the endpoint discovery requests nothing but the homepage, unless it
    is cached, and after it chunk scripts: URLs made of [BASE_URL], the chunk
    directory, a non-empty name without a quote, and [.js].  It never
    raises an error, and it sends no request at all when the homepage cannot
    be had. *)
Theorem discovery_requests_chunk_scripts (w : World) :
  exists o w' scripts,
    extract_search_url env w = (Ret o, w') /\
    log w' = (scripts ++ match cached_homepage w with
                         | Some _ => []
                         | None => [EvGet BASE_URL]
                         end ++ log w)%list /\
    Forall chunk_script_request scripts /\
    (cached_homepage w' = None -> scripts = [] /\ o = None) /\
    (forall h, cached_homepage w' = Some h ->
       (List.length scripts <= List.length (gmatch chunk_pattern h))%nat).
Proof.
  destruct (get_homepage_run env w) as [o [w1 [Hh [Hch [Hcase _]]]]].
  assert (Hl1 : log w1 = (match cached_homepage w with
                          | Some _ => []
                          | None => [EvGet BASE_URL]
                          end ++ log w)%list).
  { destruct (cached_homepage w); [destruct Hcase as [_ ->]|destruct Hcase as [-> _]];
      reflexivity. }
  unfold extract_search_url. rewrite (bind_ret_run _ _ _ _ _ Hh).
  destruct o as [h|].
  - destruct (scan_scripts_spec env (gmatch chunk_pattern h) [] w1) as [k [w2 [Hrun [Hw _]]]].
    cbn zeta in Hrun. rewrite Hrun. subst w2.
    eexists; eexists; exists (script_gets k (gmatch chunk_pattern h)).
    split; [reflexivity|]. cbn [prepend_events log cached_homepage].
    split; [rewrite Hl1; reflexivity|].
    split; [apply Forall_forall; intros e; apply script_gets_chunk_scripts|].
    rewrite Hch. split; [discriminate|].
    intros h' E. assert (E' : h' = h) by congruence. subst h'.
    unfold script_gets. rewrite length_rev, length_map, length_firstn.
    apply Nat.le_min_r.
  - exists None, w1, []. split; [reflexivity|]. split; [exact Hl1|].
    split; [constructor|]. rewrite Hch. split; [auto|discriminate].
Qed.

End DiscoveryRequests.

(** ** The game page detector *)

Section DetectorVersions.

Variables Dom Element RegExp JsNumber Exception : Type.
Variable image_src : Element -> Detector.D Dom Exception string.
Variable string_match :
  string -> RegExp -> Detector.D Dom Exception (option (option string)).
Variable closest : Element -> string -> Detector.D Dom Exception (option Element).
Variable parseInt : option string -> JsNumber.

(** X15: the two versions of [detectGamePage] agree on every page and every
    configuration: they make the same calls into the browser in the same
    order, return the same page info or [null], and throw the same exception
    when a call throws. *)
Theorem detectGamePage_versions_agree
    (doc : Detector.Document Dom Element Exception)
    (config : Detector.UIModeConfig RegExp) (page : Dom) :
  Detector.detectGamePage image_src string_match closest parseInt doc config page
  = Detector.detectGamePage_inlined image_src string_match closest parseInt doc config page.
Proof.
  unfold Detector.detectGamePage, Detector.detectGamePage_inlined,
    Detector.tryExtractGamePage, Detector.fallback_attempt, Detector.dbind, Detector.dret.
  destruct (Detector.querySelector doc (Detector.headerImageSelector config) page)
    as [[[img|]|e] s1]; try reflexivity.
  destruct (image_src img s1) as [[src|e] s2]; try reflexivity.
  destruct (string_match src (Detector.appIdPattern config) s2) as [[[group|]|e] s3];
    try reflexivity.
  destruct (closest img (Detector.containerSelector config) s3) as [[[c|]|e] s4];
    reflexivity.
Qed.

End DetectorVersions.

(** ** The further properties at work on examples *)

Lemma token_reused_until_expiry_witness :
  get_auth_token (clock_env 0) false
    (snd (get_auth_token (clock_env 0) false initial_world))
  = (Ret (Some (VStr "t1"), None),
     add_event EvTime (snd (get_auth_token (clock_env 0) false initial_world))).
Proof.
  assert (H : get_auth_token (clock_env 0) false initial_world
              = (Ret (Some (VStr "t1"), None),
                 snd (get_auth_token (clock_env 0) false initial_world)))
    by (vm_compute; reflexivity).
  apply (proj1 (token_reused_until_expiry (clock_env 0) false initial_world _ _
                  (VStr "t1") None H eq_refl eq_refl)).
  vm_compute. reflexivity.
Defined.

Lemma resolution_returns_search_item_witness :
  sorts insertion_sort /\
  exists data items fields w1,
    search (detail_env (detail_page [detail_record 1 "Dark Souls II" 1]))
      "Dark Souls 3" None initial_world = (Ret (Some data), w1) /\
    index data "data" = Ret (Some (VTable items fields)) /\
    In candidate_2 items /\ item_well_typed candidate_2 = true.
Proof.
  split; [exact insertion_sort_sorts|].
  apply (resolution_returns_search_item
           (detail_env (detail_page [detail_record 1 "Dark Souls II" 1]))
           "Dark Souls 3" (Some steam_id_example) initial_world
           (snd (search_best_match
                   (detail_env (detail_page [detail_record 1 "Dark Souls II" 1]))
                   "Dark Souls 3" (Some steam_id_example) initial_world))
           candidate_2 insertion_sort_sorts).
  vm_compute. reflexivity.
Defined.

Lemma resolution_result_is_justified_witness :
  sorts insertion_sort /\
  exists data items fields w1,
    search (search_env (results_of [dark_souls_2; dark_souls])) "Dark Soul"
      None initial_world = (Ret (Some data), w1) /\
    index data "data" = Ret (Some (VTable items fields)) /\
    (normalized_name (search_env (results_of [dark_souls_2; dark_souls])) dark_souls
     = Ret (normalize (search_env (results_of [dark_souls_2; dark_souls])) "Dark Soul") \/
     (exists sid game_id w0 game_data,
        @None number = Some sid /\
        index dark_souls "game_id" = Ret game_id /\
        fetch_game_data (search_env (results_of [dark_souls_2; dark_souls])) game_id w0
        = (Ret (Some game_data),
           snd (search_best_match (search_env (results_of [dark_souls_2; dark_souls]))
                  "Dark Soul" None initial_world)) /\
        index game_data "profile_steam" = Ret (Some (VNum sid))) \/
     (exists c,
        choice_of (search_env (results_of [dark_souls_2; dark_souls]))
          (normalize (search_env (results_of [dark_souls_2; dark_souls])) "Dark Soul")
          dark_souls c /\
        forall element c',
          In element items ->
          choice_of (search_env (results_of [dark_souls_2; dark_souls]))
            (normalize (search_env (results_of [dark_souls_2; dark_souls])) "Dark Soul")
            element c' ->
          ~ key_before c' c)).
Proof.
  split; [exact insertion_sort_sorts|].
  apply (resolution_result_is_justified
           (search_env (results_of [dark_souls_2; dark_souls]))
           "Dark Soul" None initial_world _ dark_souls insertion_sort_sorts).
  vm_compute. reflexivity.
Defined.

Lemma resolution_request_budget_witness :
  cached_search_url warm_world = Some SEARCH_URL /\
  (requests
     (log (snd (search_best_match
                  (detail_env (detail_page [detail_record 1 "Dark Souls II" 1]))
                  "Dark Souls 3" (Some steam_id_example) warm_world)))
   <= requests (log warm_world) + 6)%nat.
Proof.
  split; [reflexivity|].
  exact (proj1 (resolution_request_budget
                  (detail_env (detail_page [detail_record 1 "Dark Souls II" 1]))
                  SEARCH_URL "Dark Souls 3" (Some steam_id_example) warm_world _ _
                  eq_refl (surjective_pairing _))).
Defined.
